(** * Combat and status-effect core of the game: monsters.js and spells.js

    A shallow embedding of the monster registry, the monster AI update, melee
    resolution, the spell engine and the freeze overlay, followed by the
    properties the specification states about them.

    Conventions of the embedding.
    - A JavaScript number is a real number ([R]); [Math.sqrt], [Math.abs],
      [Math.min], [Math.max], [Math.sin], [Math.cos] and [Math.PI] are the
      functions of the standard library of reals.  Rounding, infinities and
      NaN are outside the model.
    - A JavaScript object used as a dictionary ([spells]) is a finite map over
      its own keys, together with the names it inherits from
      [Object.prototype], which a lookup [spells[name]] finds as well.
    - A field that may be absent ([slowUntil], [_frozenPos], [isBoss],
      [_frozen]) is an [option], or a [bool] where only its truthiness is read.
    - Three.js scene objects are reduced to the numbers that the game logic
      reads back: [group.position], [group.rotation.y] and the uniform scale.
      Materials, lights, particles and the HP bar are not modelled.  A
      monster's group is in the scene exactly while the monster is in the
      registry ([scene.add] goes with [push], [scene.remove] with [splice]),
      so the scene is not modelled apart from the registry.
    - [performance.now() / 1000] is passed in as an argument [now], read once
      per call.  [Math.random()] is an oracle indexed by a counter kept in the
      state that consumes it; the counter counts the calls the game's own
      code makes, not those made inside three.js.  [setTimeout] appends to a
      list of pending timers.
    - A call that ends by throwing is described by the state it leaves. *)

From Stdlib Require Import Reals Lra Lia ZArith.
From stdpp Require Import base decidable option list strings gmap.

Open Scope R_scope.

(** ** Numbers *)

#[global] Instance Rlt_decision : RelDecision Rlt := Rlt_dec.
#[global] Instance Rle_decision : RelDecision Rle := Rle_dec.
#[global] Instance Rgt_decision : RelDecision Rgt := Rgt_dec.
#[global] Instance Rge_decision : RelDecision Rge := Rge_dec.
#[global] Instance Req_decision : EqDecision R := Req_dec_T.

(** [THREE.MathUtils.lerp(x, y, t)]. *)
Definition lerp (x y t : R) : R := (1 - t) * x + t * y.

(** [Math.atan2(y, x)] on reals. *)
Definition atan2 (y x : R) : R :=
  if decide (0 < x) then atan (y / x)
  else if decide (x < 0) then
    (if decide (0 <= y) then atan (y / x) + PI else atan (y / x) - PI)
  else if decide (0 < y) then PI / 2
  else if decide (y < 0) then - (PI / 2)
  else 0.

(** [a % b] for a non-negative [a] and a positive [b]; [Math.floor] is
    [Zfloor]. *)
Definition js_mod (a b : R) : R := a - b * IZR (Zfloor (a / b)).

(** [Math.sqrt(dx * dx + dz * dz)]. *)
Definition planar (dx dz : R) : R := sqrt (dx * dx + dz * dz).

(** The two loops of [attackMonstersInRange] that bring the angle back:
    [while (angleDiff > Math.PI) angleDiff -= Math.PI * 2] and
    [while (angleDiff < -Math.PI) angleDiff += Math.PI * 2].  The loops run on
    fuel; [angle_fuel] is an upper bound of the number of iterations, see
    [normalize_angle_exits]. *)
Fixpoint while_above_pi (fuel : nat) (a : R) : R :=
  match fuel with
  | O => a
  | S fuel' => if decide (a > PI) then while_above_pi fuel' (a - PI * 2) else a
  end.

Fixpoint while_below_neg_pi (fuel : nat) (a : R) : R :=
  match fuel with
  | O => a
  | S fuel' =>
      if decide (a < - PI) then while_below_neg_pi fuel' (a + PI * 2) else a
  end.

Definition angle_fuel (a : R) : nat := Z.to_nat (up (Rabs a / (PI * 2))).

Definition normalize_angle (a : R) : R :=
  let a1 := while_above_pi (angle_fuel a) a in
  while_below_neg_pi (angle_fuel a1) a1.

(** ** Data model *)

Record vec3 : Type := Vec3 { vx : R; vy : R; vz : R }.

Inductive mstate : Type := idle | chase | attack | dead.

#[global] Instance mstate_eq_dec : EqDecision mstate.
Proof. solve_decision. Defined.

(** [createMushroom]'s animation bobs the group up and down; the other
    builders leave the group's position alone. *)
Definition mushroom_bob (s : mstate) (t : R) : R :=
  sin (t * 4) * 0.002 * (if decide (s = chase) then 2 else 1).

Definition no_bob (s : mstate) (t : R) : R := 0.

(** The [type] object of a monster, together with what the [updateAnim]
    closure returned by [type.create] adds to [group.position.y], the only
    part of the animation that writes to a field the game logic reads. *)
Record monster_type : Type := MonsterType {
  type_name : string;
  type_hp : R;
  type_damage : R;
  type_size : R;
  type_speed : R;
  updateAnim_y : mstate -> R -> R
}.

Record monster : Type := Monster {
  position : vec3;            (* group.position *)
  rotation_y : R;             (* group.rotation.y *)
  scale : R;                  (* group.scale, always set uniformly *)
  mtype : monster_type;       (* type *)
  hp : R;
  maxHp : R;
  state : mstate;
  time : R;
  attackCooldown : R;
  idleTarget : vec3;
  deathTime : R;
  isBoss : bool;              (* absent on normal monsters: falsy *)
  slowUntil : option R;       (* absent until a spell hits *)
  frozen : bool;              (* _frozen, absent: falsy *)
  frozenPos : option (R * R)  (* _frozenPos: absent, null, or {x, z} *)
}.

Definition set_position (p : vec3) (m : monster) : monster :=
  Monster p (rotation_y m) (scale m) (mtype m) (hp m) (maxHp m) (state m)
    (time m) (attackCooldown m) (idleTarget m) (deathTime m) (isBoss m)
    (slowUntil m) (frozen m) (frozenPos m).
Definition set_rotation_y (r : R) (m : monster) : monster :=
  Monster (position m) r (scale m) (mtype m) (hp m) (maxHp m) (state m)
    (time m) (attackCooldown m) (idleTarget m) (deathTime m) (isBoss m)
    (slowUntil m) (frozen m) (frozenPos m).
Definition set_scale (s : R) (m : monster) : monster :=
  Monster (position m) (rotation_y m) s (mtype m) (hp m) (maxHp m) (state m)
    (time m) (attackCooldown m) (idleTarget m) (deathTime m) (isBoss m)
    (slowUntil m) (frozen m) (frozenPos m).
Definition set_hp (h : R) (m : monster) : monster :=
  Monster (position m) (rotation_y m) (scale m) (mtype m) h (maxHp m) (state m)
    (time m) (attackCooldown m) (idleTarget m) (deathTime m) (isBoss m)
    (slowUntil m) (frozen m) (frozenPos m).
Definition set_state (s : mstate) (m : monster) : monster :=
  Monster (position m) (rotation_y m) (scale m) (mtype m) (hp m) (maxHp m) s
    (time m) (attackCooldown m) (idleTarget m) (deathTime m) (isBoss m)
    (slowUntil m) (frozen m) (frozenPos m).
Definition set_time (t : R) (m : monster) : monster :=
  Monster (position m) (rotation_y m) (scale m) (mtype m) (hp m) (maxHp m)
    (state m) t (attackCooldown m) (idleTarget m) (deathTime m) (isBoss m)
    (slowUntil m) (frozen m) (frozenPos m).
Definition set_attackCooldown (c : R) (m : monster) : monster :=
  Monster (position m) (rotation_y m) (scale m) (mtype m) (hp m) (maxHp m)
    (state m) (time m) c (idleTarget m) (deathTime m) (isBoss m)
    (slowUntil m) (frozen m) (frozenPos m).
Definition set_idleTarget (p : vec3) (m : monster) : monster :=
  Monster (position m) (rotation_y m) (scale m) (mtype m) (hp m) (maxHp m)
    (state m) (time m) (attackCooldown m) p (deathTime m) (isBoss m)
    (slowUntil m) (frozen m) (frozenPos m).
Definition set_deathTime (t : R) (m : monster) : monster :=
  Monster (position m) (rotation_y m) (scale m) (mtype m) (hp m) (maxHp m)
    (state m) (time m) (attackCooldown m) (idleTarget m) t (isBoss m)
    (slowUntil m) (frozen m) (frozenPos m).
Definition set_slowUntil (s : option R) (m : monster) : monster :=
  Monster (position m) (rotation_y m) (scale m) (mtype m) (hp m) (maxHp m)
    (state m) (time m) (attackCooldown m) (idleTarget m) (deathTime m)
    (isBoss m) s (frozen m) (frozenPos m).
Definition set_frozen (b : bool) (m : monster) : monster :=
  Monster (position m) (rotation_y m) (scale m) (mtype m) (hp m) (maxHp m)
    (state m) (time m) (attackCooldown m) (idleTarget m) (deathTime m)
    (isBoss m) (slowUntil m) b (frozenPos m).
Definition set_frozenPos (p : option (R * R)) (m : monster) : monster :=
  Monster (position m) (rotation_y m) (scale m) (mtype m) (hp m) (maxHp m)
    (state m) (time m) (attackCooldown m) (idleTarget m) (deathTime m)
    (isBoss m) (slowUntil m) (frozen m) p.

(** [m.group.position.x] and [m.group.position.z]. *)
Definition px (m : monster) : R := vx (position m).
Definition pz (m : monster) : R := vz (position m).

(** [position.x += ax; position.z += az]. *)
Definition move_xz (ax az : R) (m : monster) : monster :=
  set_position (Vec3 (px m + ax) (vy (position m)) (pz m + az)) m.

(** The block shared by the three damage paths:
    [if (m.hp <= 0) { m.hp = 0; m.state = 'dead'; m.deathTime = 0; }]. *)
Definition die_if_depleted (m : monster) : monster :=
  if decide (hp m <= 0)
  then set_deathTime 0 (set_state dead (set_hp 0 m))
  else m.

(** ** monsters.js: melee resolution *)

Definition AGGRO_RANGE : R := 12.
Definition ATTACK_RANGE : R := 2.
Definition ATTACK_COOLDOWN : R := 1.5.

(** One iteration of the loop of [attackMonstersInRange]: the monster after
    the iteration and whether it was hit. *)
Definition attack_one (playerPos : vec3) (playerAngle range damage : R)
    (m : monster) : monster * bool :=
  if decide (state m = dead) then (m, false) else
  let dx := px m - vx playerPos in
  let dz := pz m - vz playerPos in
  let dist := planar dx dz in
  if decide (dist > range) then (m, false) else
  let angleToMonster := atan2 dx dz in
  let angleDiff := normalize_angle (angleToMonster - playerAngle) in
  if decide (Rabs angleDiff < PI / 2) then
    let m1 := set_hp (hp m - damage) m in
    let m2 :=
      if decide (dist > 0.1)
      then move_xz (dx / dist * 0.8) (dz / dist * 0.8) m1
      else m1 in
    (die_if_depleted m2, true)
  else (m, false).

Fixpoint attack_loop (playerPos : vec3) (playerAngle range damage : R)
    (ms : list monster) (hitAny : bool) : list monster * bool :=
  match ms with
  | [] => ([], hitAny)
  | m :: rest =>
      let '(m', h) := attack_one playerPos playerAngle range damage m in
      let '(rest', hitAny') :=
        attack_loop playerPos playerAngle range damage rest (hitAny || h) in
      (m' :: rest', hitAny')
  end.

Definition attackMonstersInRange (playerPos : vec3)
    (playerAngle range damage : R) (ms : list monster) : list monster * bool :=
  attack_loop playerPos playerAngle range damage ms false.

(** ** monsters.js: damage dealt to the player *)

Definition check_one (playerPos : vec3) (m : monster) : monster * R :=
  if decide (state m <> attack \/ attackCooldown m > 0) then (m, 0) else
  let dx := vx playerPos - px m in
  let dz := vz playerPos - pz m in
  let dist := planar dx dz in
  let atkRange := if isBoss m then 8 else ATTACK_RANGE in
  if decide (dist < atkRange)
  then (set_attackCooldown ATTACK_COOLDOWN m, type_damage (mtype m))
  else (m, 0).

Fixpoint check_loop (playerPos : vec3) (ms : list monster) (totalDamage : R)
    : list monster * R :=
  match ms with
  | [] => ([], totalDamage)
  | m :: rest =>
      let '(m', d) := check_one playerPos m in
      let '(rest', total) := check_loop playerPos rest (totalDamage + d) in
      (m' :: rest', total)
  end.

Definition checkPlayerDamage (playerPos : vec3) (ms : list monster)
    : list monster * R :=
  check_loop playerPos ms 0.

(** ** monsters.js: spawning and the per-frame update *)

(** What [setTimeout] was asked to run. *)
Inductive timer_action : Type := RunSpawnMonster.

Record timer : Type := Timer { delay_ms : R; action : timer_action }.

(** The part of the state that [update] and [spawnMonster] touch besides the
    monsters: the counter of the random oracle and the pending timers. *)
Record env : Type := Env { rng : nat; timers : list timer }.

Definition setTimeout (a : timer_action) (ms : R) (e : env) : env :=
  Env (rng e) (timers e ++ [Timer ms a]).

(** The three entries of [MONSTER_TYPES] (colours and mesh builder left out). *)
Definition MONSTER_TYPES : list monster_type :=
  [ MonsterType "Wütender Pilz" 60 5 2.0 2 mushroom_bob;
    MonsterType "Giftiger Schleim" 45 3 1.8 1.5 no_bob;
    MonsterType "Böser Käfer" 50 4 1.6 3 no_bob ].

(** The boss's [type] literal has no [hp] field and nothing reads it; the
    model stores the boss's initial hp there. *)
Definition BOSS_TYPE : monster_type := MonsterType "Migge" 500 15 5 4 no_bob.

Section MonsterSystem.

(** [getTerrainHeight] of utils.js is built on simplex noise. *)
Variable getTerrainHeight : R -> R -> R.

(** The successive results of the calls of [Math.random()] that
    monsters.js makes, itself or through [randomRange].  three.js draws
    numbers of its own while a mesh is built (the uuids of its objects):
    those calls are not counted, [random n] is the result of the [n]-th
    call made from the monster system's code. *)
Variable random : nat -> R.

Definition randomRange (min max : R) (u : R) : R := u * (max - min) + min.

(** [spawnMonster] calls itself again when the drawn place is under water;
    [fuel] bounds the number of tries.  [None]: out of fuel, or the drawn
    index names no entry of [MONSTER_TYPES]. *)
Fixpoint spawnMonster (fuel : nat) (ms : list monster) (k : nat)
    : option (list monster * nat) :=
  match fuel with
  | O => None
  | S fuel' =>
      let i := Zfloor (random k * INR (length MONSTER_TYPES)) in
      let angle := random (k + 1) * PI * 2 in
      let dist := randomRange 20 60 (random (k + 2)) in
      let x := cos angle * dist in
      let z := sin angle * dist in
      let y := getTerrainHeight x z in
      if decide (y < 0.3) then spawnMonster fuel' ms (k + 3)%nat else
      match MONSTER_TYPES !! Z.to_nat i with
      | None => None
      | Some type =>
          Some (ms ++ [Monster (Vec3 x y z) 0 (type_size type) type
                     (type_hp type)
                         (type_hp type) idle (random (k + 3) * 10) 0
                         (Vec3 x y z) 0 false None false None],
                (k + 4)%nat)
      end
  end.

Definition spawnBoss (ms : list monster) : list monster :=
  let bossX := 55 in
  let bossZ := 55 in
  let bossY := getTerrainHeight bossX bossZ in
  ms ++ [Monster (Vec3 bossX bossY bossZ) 0 5 BOSS_TYPE 500 500 idle 0 0
           (Vec3 bossX bossY bossZ) 0 true None false None].

(** The start of [createMonsterSystem]: five monsters, then the boss. *)
Fixpoint spawn_n (fuel n : nat) (ms : list monster) (k : nat)
    : option (list monster * nat) :=
  match n with
  | O => Some (ms, k)
  | S n' =>
      match spawnMonster fuel ms k with
      | None => None
      | Some (ms', k') => spawn_n fuel n' ms' k'
      end
  end.

Definition createMonsterSystem (fuel : nat) (k : nat)
    : option (list monster * nat) :=
  match spawn_n fuel 5 [] k with
  | None => None
  | Some (ms, k') => Some (spawnBoss ms, k')
  end.

(** The branch of [update] for a dead monster.  [None]: spliced out. *)
Definition update_dead (delta : R) (m : monster) (e : env)
    : option monster * env :=
  let m := set_deathTime (deathTime m + delta) m in
  let deathSpeed := if isBoss m then 0.5 else 2 in
  let m := set_position
             (Vec3 (px m)
                   (vy (position m) - delta * (if isBoss m then 0.3 else 0.5))
                   (pz m)) m in
  let m := set_scale
             (Rmax 0 (type_size (mtype m) * (1 - deathTime m * deathSpeed)))
             m in
  let removeTime := if isBoss m then 4 else 1.5 in
  if decide (deathTime m > removeTime) then
    (None, if negb (isBoss m) then setTimeout RunSpawnMonster 5000 e else e)
  else (Some m, e).

(** The branch of [update] for a monster that is not dead. *)
Definition update_alive (delta : R) (playerPos : vec3) (m : monster)
    (e : env) : monster * env :=
  let dx := vx playerPos - px m in
  let dz := vz playerPos - pz m in
  let dist := planar dx dz in
  let m := set_attackCooldown (Rmax 0 (attackCooldown m - delta)) m in
  let aggroRange := if isBoss m then 40 else AGGRO_RANGE in
  let attackRange := if isBoss m then 8 else ATTACK_RANGE in
  let '(m, e) :=
    if decide (dist < aggroRange) then
      let angle := atan2 dx dz in
      let m := set_rotation_y
                 (lerp (rotation_y m) angle (Rmin 1 (5 * delta))) m in
      if decide (dist < attackRange) then (set_state attack m, e)
      else
        let m := set_state chase m in
        let speed := type_speed (mtype m) in
        (move_xz (dx / dist * speed * delta) (dz / dist * speed * delta) m, e)
    else
      let m := set_state idle m in
      let '(m, e) :=
        if decide (js_mod (time m) 4 < delta) then
          (set_idleTarget
             (Vec3 (px m + randomRange (-3) 3 (random (rng e)))
                   0
                   (pz m + randomRange (-3) 3 (random (rng e + 1))))
             m,
           Env (rng e + 2) (timers e))
        else (m, e) in
      let idx := vx (idleTarget m) - px m in
      let idz := vz (idleTarget m) - pz m in
      let idist := planar idx idz in
      if decide (idist > 0.5) then
        let m := move_xz (idx / idist * 0.5 * delta)
                         (idz / idist * 0.5 * delta) m in
        let wanderAngle := atan2 idx idz in
        (set_rotation_y
           (lerp (rotation_y m) wanderAngle (Rmin 1 (2 * delta))) m, e)
      else (m, e) in
  let ty := getTerrainHeight (px m) (pz m) in
  let y := lerp (vy (position m)) ty (Rmin 1 (6 * delta)) in
  (set_position
     (Vec3 (px m) (y + updateAnim_y (mtype m) (state m) (time m)) (pz m)) m,
   e).

(** The body of the loop of [update]. *)
Definition update_one (delta : R) (playerPos : vec3) (m : monster) (e : env)
    : option monster * env :=
  let m := set_time (time m + delta) m in
  if decide (state m = dead) then update_dead delta m e
  else let '(m', e') := update_alive delta playerPos m e in (Some m', e').

(** [update]: the loop runs from the last index down to 0 and splices
    removed monsters out, so the tail of the list is handled first. *)
Fixpoint update (delta : R) (playerPos : vec3) (ms : list monster) (e : env)
    : list monster * env :=
  match ms with
  | [] => ([], e)
  | m :: rest =>
      let '(rest', e1) := update delta playerPos rest e in
      let '(om, e2) := update_one delta playerPos m e1 in
      (match om with Some m' => m' :: rest' | None => rest' end, e2)
  end.

End MonsterSystem.

(** ** spells.js: data *)

(** An entry of [spells].  The [frostNova] literal has neither [castTime] nor
    [speed]; [speed] is read for [frostbolt] only, the model stores [0] in the
    other entry. *)
Record spell : Type := Spell {
  spell_name : string;
  key : string;
  cooldown : R;
  currentCd : R;
  castTime : option R;
  spell_damage : R;
  spell_range : R;
  spell_speed : R;
  spell_slowDuration : R
}.

Definition set_currentCd (c : R) (s : spell) : spell :=
  Spell (spell_name s) (key s) (cooldown s) c (castTime s) (spell_damage s)
    (spell_range s) (spell_speed s) (spell_slowDuration s).

Definition frostbolt_spell : spell :=
  Spell "Frostbolt" "1" 0 0 (Some 1.5) 25 40 25 3.

Definition frostNova_spell : spell :=
  Spell "Frost Nova" "2" 8 0 None 15 6 0 4.

(** The initial value of [spells]. *)
Definition initial_spells : gmap string spell :=
  <["frostbolt" := frostbolt_spell]> (<["frostNova" := frostNova_spell]> ∅).

Record projectile : Type := Projectile {
  p_position : vec3;     (* group.position *)
  dir : vec3;
  speed : R;
  damage : R;
  slowDuration : R;
  range : R;
  traveled : R;
  p_time : R
}.

Inductive effect_type : Type := frostNova_effect | impact_effect.

Record effect : Type := Effect {
  e_type : effect_type;
  e_time : R;
  maxTime : R
}.

(** Everything the two systems own, and the one thing they can leave on an
    object they do not own: [proto_currentCd] tells whether
    [Object.prototype] has got a property [currentCd] (see [castSpell]).
    [spells] holds the own keys of the object [spells]. *)
Record world : Type := World {
  monsters : list monster;
  spells : gmap string spell;
  projectiles : list projectile;
  effects : list effect;
  sim : env;
  proto_currentCd : bool
}.

(** The property names every object inherits from [Object.prototype]: for
    these, [spells[name]] is not [undefined] although [spells] has no such
    key.  All of them name a function, except [__proto__], which gives
    [Object.prototype] itself. *)
Definition Object_prototype : list string :=
  [ "constructor"; "hasOwnProperty"; "isPrototypeOf";
    "propertyIsEnumerable"; "toLocaleString"; "toString"; "valueOf";
    "__proto__"; "__defineGetter__"; "__defineSetter__";
    "__lookupGetter__"; "__lookupSetter__" ].

Definition inherited (name : string) : bool :=
  bool_decide (name ∈ Object_prototype).

(** ** spells.js: casting *)

(** [Vector3.normalize]: [divideScalar(length() || 1)]. *)
Definition vec_normalize (v : vec3) : vec3 :=
  let l := sqrt (vx v * vx v + vy v * vy v + vz v * vz v) in
  let d := if decide (l = 0) then 1 else l in
  Vec3 (vx v * (1 / d)) (vy v * (1 / d)) (vz v * (1 / d)).

Definition spawnFrostbolt (casterPos : vec3) (angle pitch : R) (s : spell)
    (ps : list projectile) : list projectile :=
  let d := vec_normalize
             (Vec3 (sin angle * cos pitch) (sin pitch) (cos angle * cos pitch)) in
  ps ++ [Projectile (Vec3 (vx casterPos) (vy casterPos + 1.5) (vz casterPos))
           d (spell_speed s) (spell_damage s) (spell_slowDuration s)
           (spell_range s) 0 0].

(** What a spell hit does to the monster it reaches: damage, slow, death. *)
Definition spell_hit (now dmg slow : R) (m : monster) : monster :=
  die_if_depleted (set_slowUntil (Some (now + slow)) (set_hp (hp m - dmg) m)).

(** One iteration of the damage loop of [spawnFrostNova]. *)
Definition nova_one (casterPos : vec3) (s : spell) (now : R) (m : monster)
    : monster :=
  if decide (state m = dead) then m else
  let dx := px m - vx casterPos in
  let dz := pz m - vz casterPos in
  let dist := planar dx dz in
  if decide (dist < spell_range s)
  then spell_hit now (spell_damage s) (spell_slowDuration s) m
  else m.

Definition spawnFrostNova (casterPos : vec3) (s : spell) (now : R) (w : world)
    : world :=
  World (map (nova_one casterPos s now) (monsters w)) (spells w)
    (projectiles w) (effects w ++ [Effect frostNova_effect 0 1.5]) (sim w)
    (proto_currentCd w).

(** [castSpell].  For a name that is no key of [spells] the lookup
    [spells[name]] goes on to [Object.prototype].  A name found there gives
    an object whose [currentCd] and [cooldown] are [undefined]: the guard
    [!spell || spell.currentCd > 0] does not reject ([undefined > 0] is
    false), [spell.currentCd = spell.cooldown] stores [undefined] on that
    object, neither spawn branch is taken and the call returns [true].  The
    object written to is a function for every such name but [__proto__],
    where it is [Object.prototype]: from then on every object inherits an
    enumerable property [currentCd]. *)
Definition castSpell (name : string) (casterPos : vec3) (casterAngle : R)
    (casterPitch : option R) (now : R) (w : world) : world * bool :=
  match spells w !! name with
  | None =>
      if inherited name then
        (if decide (name = "__proto__") then
           World (monsters w) (spells w) (projectiles w) (effects w) (sim w)
             true
         else w,
         true)
      else (w, false)
  | Some s =>
      if decide (currentCd s > 0) then (w, false) else
      let s := set_currentCd (cooldown s) s in
      let w := World (monsters w) (<[name := s]> (spells w)) (projectiles w)
                 (effects w) (sim w) (proto_currentCd w) in
      let w :=
        if decide (name = "frostbolt") then
          World (monsters w) (spells w)
            (spawnFrostbolt casterPos casterAngle (default 0 casterPitch) s
               (projectiles w))
            (effects w) (sim w) (proto_currentCd w)
        else if decide (name = "frostNova") then
          spawnFrostNova casterPos s now w
        else w in
      (w, true)
  end.

(** [canCast]: [spell && spell.currentCd <= 0], as a truth value.  For a
    name inherited from [Object.prototype] the comparison is
    [undefined <= 0], which is false; for any other name that is no key,
    [spell] is [undefined]. *)
Definition canCast (name : string) (w : world) : bool :=
  match spells w !! name with
  | None => false
  | Some s => bool_decide (currentCd s <= 0)
  end.

(** ** spells.js: the per-frame update *)

(** The hit detection loop of one projectile: the first monster that is not
    dead and lies within the hit radius is hit, the loop stops there. *)
Fixpoint hit_detection (now : R) (p : projectile) (ms : list monster)
    : list monster * bool :=
  match ms with
  | [] => ([], false)
  | m :: rest =>
      let continue :=
        let '(rest', hit) := hit_detection now p rest in (m :: rest', hit) in
      if decide (state m = dead) then continue else
      let dx := px m - vx (p_position p) in
      let dz := pz m - vz (p_position p) in
      let dist := planar dx dz in
      let hitRange := if isBoss m then 4 else 1.5 in
      if decide (dist < hitRange)
      then (spell_hit now (damage p) (slowDuration p) m :: rest, true)
      else continue
  end.

(** [spawnImpact]. *)
Definition spawnImpact (es : list effect) : list effect :=
  es ++ [Effect impact_effect 0 0.6].

(** The movement of a projectile at the start of an iteration. *)
Definition advance (delta : R) (p : projectile) : projectile :=
  let k := speed p * delta in
  Projectile
    (Vec3 (vx (p_position p) + vx (dir p) * k)
          (vy (p_position p) + vy (dir p) * k)
          (vz (p_position p) + vz (dir p) * k))
    (dir p) (speed p) (damage p) (slowDuration p) (range p)
    (traveled p + speed p * delta) (p_time p + delta).

(** The body of the projectile loop.  [None]: spliced out. *)
Definition update_projectile (delta now : R) (p : projectile)
    (ms : list monster) (es : list effect)
    : option projectile * list monster * list effect :=
  let p := advance delta p in
  let '(ms', hit) := hit_detection now p ms in
  let es' := if hit then spawnImpact es else es in
  if decide (hit = true \/ traveled p > range p)
  then (None, ms', es')
  else (Some p, ms', es').

(** The projectile loop, from the last index down to 0. *)
Fixpoint update_projectiles (delta now : R) (ps : list projectile)
    (ms : list monster) (es : list effect)
    : list projectile * list monster * list effect :=
  match ps with
  | [] => ([], ms, es)
  | p :: rest =>
      let '(rest', ms1, es1) := update_projectiles delta now rest ms es in
      let '(op, ms2, es2) := update_projectile delta now p ms1 es1 in
      (match op with Some p' => p' :: rest' | None => rest' end, ms2, es2)
  end.

(** The effect loop: age every effect, drop the expired ones. *)
Definition update_effect (delta : R) (e : effect) : option effect :=
  let e := Effect (e_type e) (e_time e + delta) (maxTime e) in
  if decide (e_time e > maxTime e) then None else Some e.

Definition update_effects (delta : R) (es : list effect) : list effect :=
  omap (update_effect delta) es.

Definition decay_cooldown (delta : R) (s : spell) : spell :=
  set_currentCd (Rmax 0 (currentCd s - delta)) s.

(** [update] of the spell system: the state it leaves.  The loop
    [for (const key in spells)] goes through the keys of [spells] and then
    through the enumerable properties [spells] inherits.  Once
    [Object.prototype] has a property [currentCd], that is one more key,
    for which [spells[key]] is [undefined]: after the cooldowns of the
    spells are updated, [s.currentCd] throws a [TypeError] and the update
    ends there, before the projectiles and the effects. *)
Definition spell_update (delta now : R) (w : world) : world :=
  let sp := decay_cooldown delta <$> spells w in
  if proto_currentCd w then
    World (monsters w) sp (projectiles w) (effects w) (sim w) true
  else
    let '(ps, ms, es) :=
      update_projectiles delta now (projectiles w) (monsters w) (effects w)
    in
    World ms sp ps (update_effects delta es) (sim w) false.

(** Whether [update] of the spell system ends by throwing. *)
Definition update_throws (w : world) : bool := proto_currentCd w.

(** ** spells.js: the freeze overlay around [monsterSystem.update] *)

(** [m.slowUntil && now < m.slowUntil && m.state !== 'dead'], as a truth
    value.  A [slowUntil] of 0 is falsy. *)
Definition isFrozen (now : R) (m : monster) : bool :=
  match slowUntil m with
  | None => false
  | Some t =>
      bool_decide (t <> 0) && bool_decide (now < t)
      && bool_decide (state m <> dead)
  end.

(** The body of the loop that runs before the original update. *)
Definition freeze_before (now : R) (m : monster) : monster :=
  let m :=
    if isFrozen now m && negb (frozen m) then set_frozen true m
    else if negb (isFrozen now m) && frozen m then set_frozen false m
    else m in
  if frozen m then
    set_frozenPos
      (Some (match frozenPos m with Some p => p | None => (px m, pz m) end)) m
  else set_frozenPos None m.

(** The body of the loop that runs after the original update. *)
Definition freeze_after (m : monster) : monster :=
  match frozen m, frozenPos m with
  | true, Some (x, z) => set_position (Vec3 x (vy (position m)) z) m
  | _, _ => m
  end.

Section Overlay.

Variable getTerrainHeight : R -> R -> R.
Variable random : nat -> R.

(** The function that replaces [monsterSystem.update]. *)
Definition wrapped_update (now delta : R) (playerPos : vec3)
    (ms : list monster) (e : env) : list monster * env :=
  let ms1 := map (freeze_before now) ms in
  let '(ms2, e') := update getTerrainHeight random delta playerPos ms1 e in
  (map freeze_after ms2, e').

End Overlay.

(** ** The host's calls *)

(** The calls the host makes on the two systems between two renderings, and
    the firing of a pending timer. *)
Inductive call : Type :=
  | CallMonsterUpdate (now delta : R) (playerPos : vec3)
  | CallCheckPlayerDamage (playerPos : vec3)
  | CallAttack (playerPos : vec3) (playerAngle range damage : R)
  | CallCastSpell (name : string) (casterPos : vec3) (casterAngle : R)
      (casterPitch : option R) (now : R)
  | CallSpellUpdate (delta now : R)
  | TimerFires (fuel : nat).

Section Game.

Variable getTerrainHeight : R -> R -> R.
Variable random : nat -> R.

(** The state after a call, whether the call returns or throws (see
    [spell_update]).  [None]: a [spawnMonster] that does not come back
    within [fuel] tries, or no timer is pending. *)
Definition step (c : call) (w : world) : option world :=
  match c with
  | CallMonsterUpdate now delta playerPos =>
      let '(ms, e) :=
        wrapped_update getTerrainHeight random now delta playerPos
          (monsters w) (sim w) in
      Some (World ms (spells w) (projectiles w) (effects w) e
              (proto_currentCd w))
  | CallCheckPlayerDamage playerPos =>
      let '(ms, _) := checkPlayerDamage playerPos (monsters w) in
      Some (World ms (spells w) (projectiles w) (effects w) (sim w)
              (proto_currentCd w))
  | CallAttack playerPos playerAngle range damage =>
      let '(ms, _) :=
        attackMonstersInRange playerPos playerAngle range damage
          (monsters w) in
      Some (World ms (spells w) (projectiles w) (effects w) (sim w)
              (proto_currentCd w))
  | CallCastSpell name casterPos casterAngle casterPitch now =>
      Some (fst (castSpell name casterPos casterAngle casterPitch now w))
  | CallSpellUpdate delta now => Some (spell_update delta now w)
  | TimerFires fuel =>
      match timers (sim w) with
      | [] => None
      | t :: pending =>
          match
            spawnMonster getTerrainHeight random fuel (monsters w)
              (rng (sim w))
          with
          | None => None
          | Some (ms, k) =>
              Some (World ms (spells w) (projectiles w) (effects w)
                      (Env k pending) (proto_currentCd w))
          end
      end
  end.

(** The state right after [createMonsterSystem] and [createSpellSystem]. *)
Definition initial_world (fuel k : nat) : option world :=
  match createMonsterSystem getTerrainHeight random fuel k with
  | None => None
  | Some (ms, k') => Some (World ms initial_spells [] [] (Env k' []) false)
  end.

Inductive reachable : world -> Prop :=
  | reachable_initial fuel k w :
      initial_world fuel k = Some w -> reachable w
  | reachable_step c w w' :
      reachable w -> step c w = Some w' -> reachable w'.

End Game.

(** ** Vocabulary of the specification *)

(** The specification's wording: [v] is the angle [a] normalized into the
    half-open interval from [- PI] (excluded) to [PI] (included). *)
Definition normalized_into (a v : R) : Prop :=
  (- PI < v <= PI) /\ exists k : Z, v = a + PI * 2 * IZR k.

(** The monster lies in the frontal half-plane of the player: the difference
    between the direction to the monster and the player's angle, normalized,
    is less than a quarter turn in absolute value. *)
Definition in_front (playerPos : vec3) (playerAngle : R) (m : monster) : Prop :=
  exists v,
    normalized_into
      (atan2 (px m - vx playerPos) (pz m - vz playerPos) - playerAngle) v
    /\ Rabs v < PI / 2.

(** Planar distance between the player and a monster. *)
Definition distance_to (playerPos : vec3) (m : monster) : R :=
  planar (px m - vx playerPos) (pz m - vz playerPos).

(** The hp a monster is left with by a hit of [dmg]. *)
Definition hp_after (dmg : R) (m : monster) : R :=
  if decide (hp m - dmg <= 0) then 0 else hp m - dmg.

(** A freshly spawned mushroom standing at [(x, 0, z)]. *)
Definition monster_at (x z : R) : monster :=
  Monster (Vec3 x 0 z) 0 2.0
    (MonsterType "Wütender Pilz" 60 5 2.0 2 mushroom_bob) 60 60 idle
    0 0 (Vec3 x 0 z) 0 false None false None.

(** The sum of a list of numbers. *)
Definition sum_R (l : list R) : R := foldr Rplus 0 l.

(** A monster whose attack lands on the player: it is attacking, its cooldown
    has run out, and the player is within its attack range. *)
Definition lands_attack (playerPos : vec3) (m : monster) : Prop :=
  state m = attack /\ attackCooldown m = 0
  /\ distance_to playerPos m < (if isBoss m then 8 else 2).

#[global] Instance lands_attack_dec (playerPos : vec3) (m : monster) :
  Decision (lands_attack playerPos m).
Proof. unfold lands_attack. apply _. Defined.

(** The per-kind constants of [update]. *)
Definition aggroRange (m : monster) : R := if isBoss m then 40 else 12.
Definition attackRange (m : monster) : R := if isBoss m then 8 else 2.
Definition removeTime (m : monster) : R := if isBoss m then 4 else 1.5.

(** Constant terrain and a constant random source, for concrete runs. *)
Definition flat_terrain : R -> R -> R := fun _ _ => 1.
Definition no_dice : nat -> R := fun _ => 0.

(** A dead monster that the next update removes. *)
Definition expires (delta : R) (m : monster) : Prop :=
  state m = dead /\ deathTime m + delta > removeTime m.

#[global] Instance expires_dec (delta : R) (m : monster) :
  Decision (expires delta m).
Proof. unfold expires. apply _. Defined.

(** What [spawnMonster] puts into the registry. *)
Definition newly_spawned (m : monster) : Prop :=
  isBoss m = false /\ state m = idle /\ 0 < hp m /\ attackCooldown m = 0
  /\ slowUntil m = None /\ frozen m = false /\ frozenPos m = None.

(** How the registry after a call relates to the registry before it: from
    the front, every monster is either still there, related to its former
    self by [rel], or it was dead and has been removed; monsters spawned by
    the call come last. *)
Inductive carried (rel : monster -> monster -> Prop)
    : list monster -> list monster -> Prop :=
  | carried_spawned news : Forall newly_spawned news -> carried rel [] news
  | carried_kept m m' l l' :
      rel m m' -> carried rel l l' -> carried rel (m :: l) (m' :: l')
  | carried_removed m l l' :
      state m = dead -> carried rel l l' -> carried rel (m :: l) l'.

(** The damage of a melee call satisfies [ok]. *)
Definition call_damage_in (ok : R -> Prop) (c : call) : Prop :=
  match c with
  | CallAttack _ _ _ damage => ok damage
  | _ => True
  end.

(** The damage of every spell and of every projectile in flight satisfies
    [ok]. *)
Definition damages_in (ok : R -> Prop) (w : world) : Prop :=
  map_Forall (fun _ s => ok (spell_damage s)) (spells w)
  /\ Forall (fun p => ok (damage p)) (projectiles w).

(** The monster's part of one call of the wrapped update. *)
Definition frame_one (getTerrainHeight : R -> R -> R) (random : nat -> R)
    (now delta : R) (playerPos : vec3) (m : monster) (e : env)
    : option monster * env :=
  let '(om, e') :=
    update_one getTerrainHeight random delta playerPos (freeze_before now m) e
  in (freeze_after <$> om, e').

(** From one call to the next: a dead monster stays dead with the hp it has,
    a live monster's hp does not grow. *)
Definition hp_kept (m m' : monster) : Prop :=
  (state m = dead -> state m' = dead /\ hp m' = hp m)
  /\ (state m <> dead -> hp m' <= hp m).

(** The state invariant of a monster in the registry. *)
Definition monster_ok (m : monster) : Prop :=
  (state m <> dead -> 0 < hp m) /\ 0 <= attackCooldown m.

(** The per-frame deltas the host passes are not negative. *)
Definition call_delta_ok (c : call) : Prop :=
  match c with
  | CallMonsterUpdate _ delta _ => 0 <= delta
  | CallSpellUpdate delta _ => 0 <= delta
  | _ => True
  end.

(** The hit radius of a projectile against a monster, and the test of the hit
    detection loop. *)
Definition hit_radius (m : monster) : R := if isBoss m then 4 else 1.5.

Definition within_hit (p : projectile) (m : monster) : Prop :=
  state m <> dead
  /\ planar (px m - vx (p_position p)) (pz m - vz (p_position p))
     < hit_radius m.

(** The two entries of [spells] keep their keys and their cooldowns. *)
Definition spells_ok (sp : gmap string spell) : Prop :=
  (exists s, sp !! "frostbolt" = Some s /\ cooldown s = 0)
  /\ (exists s, sp !! "frostNova" = Some s /\ cooldown s = 8).

(** The state right after both systems were created, with the registry
    [ms]. *)
Definition fresh_world (ms : list monster) : world :=
  World ms initial_spells [] [] (Env 0 []) false.

(** A call of the wrapped update of the monsters. *)
Definition is_update (c : call) : bool :=
  match c with CallMonsterUpdate _ _ _ => true | _ => false end.

Definition count_updates (cs : list call) : nat :=
  length (filter (fun c => is_update c = true) cs).

(** The place in the registry, after a call, of the monster that was at
    place [i] before it.  The update splices out the dead monsters whose
    time is up, so the monster moves up by the number of those before it;
    every other call leaves the places as they are (a spawned monster is
    pushed at the end). *)
Definition place_after (c : call) (w : world) (i : nat) : nat :=
  match c with
  | CallMonsterUpdate _ delta _ =>
      length (filter (fun m => ~ expires delta m) (take i (monsters w)))
  | _ => i
  end.

(** The overlay's marks are the same on both. *)
Definition marks_kept (m m' : monster) : Prop :=
  frozen m' = frozen m /\ frozenPos m' = frozenPos m.

Section Run.

Variable getTerrainHeight : R -> R -> R.
Variable random : nat -> R.

(** Along the run of calls [cs] from [w], the monster that starts at place
    [i] is frozen at every wrapped update, and every call comes back. *)
Fixpoint frozen_at_updates (cs : list call) (w : world) (i : nat) : Prop :=
  match cs with
  | [] => True
  | c :: rest =>
      match c with
      | CallMonsterUpdate now _ _ =>
          exists m, monsters w !! i = Some m /\ isFrozen now m = true
      | _ => True
      end
      /\ match step getTerrainHeight random c w with
         | Some w' => frozen_at_updates rest w' (place_after c w i)
         | None => False
         end
  end.

(** The (x, z) position of that monster at the end of each wrapped update
    of the run ([None] if the registry has nothing at its place). *)
Fixpoint positions_after_updates (cs : list call) (w : world) (i : nat)
    : list (option (R * R)) :=
  match cs with
  | [] => []
  | c :: rest =>
      match step getTerrainHeight random c w with
      | None => []
      | Some w' =>
          let i' := place_after c w i in
          let later := positions_after_updates rest w' i' in
          if is_update c
          then ((fun m => (px m, pz m)) <$> monsters w' !! i') :: later
          else later
      end
  end.

End Run.

(** The overlay's bookkeeping on a monster: unmarked monsters carry no
    snapshot. *)
Definition mark_ok (m : monster) : Prop :=
  frozen m = false -> frozenPos m = None.

(** ** Vocabulary for the rest of monsters.js and spells.js *)

(** The normal monsters and the bosses of a registry. *)
Definition count_normal (ms : list monster) : nat :=
  length (filter (fun m => isBoss m = false) ms).

Definition count_boss (ms : list monster) : nat :=
  length (filter (fun m => isBoss m = true) ms).

(** The entries of [spells] are the initial ones up to their currentCd. *)
Definition spells_shape (sp : gmap string spell) : Prop :=
  exists c1 c2,
    sp = <["frostbolt" := set_currentCd c1 frostbolt_spell]>
           (<["frostNova" := set_currentCd c2 frostNova_spell]> ∅).

(** Euclidean length of a vector. *)
Definition vec_length (v : vec3) : R :=
  sqrt (vx v * vx v + vy v * vy v + vz v * vz v).

(** A frostbolt in flight. *)
Definition projectile_ok (p : projectile) : Prop :=
  vec_length (dir p) = 1 /\ speed p = 25 /\ damage p = 25 /\ range p = 40
  /\ slowDuration p = 3 /\ traveled p <= 40.

(** A visual effect that has not outlived its duration. *)
Definition effect_ok (e : effect) : Prop :=
  e_time e <= maxTime e
  /\ (e_type e = frostNova_effect /\ maxTime e = 1.5
      \/ e_type e = impact_effect /\ maxTime e = 0.6).

(** Successive calls of the spell system's [update], one per delta. *)
Definition spell_updates (now : R) (deltas : list R) (w : world) : world :=
  foldl (fun w delta => spell_update delta now w) w deltas.

(** Successive movements of a projectile, one per delta. *)
Definition advances (deltas : list R) (p : projectile) : projectile :=
  foldl (fun p delta => advance delta p) p deltas.

(** Euclidean distance between two points. *)
Definition vec_distance (a b : vec3) : R :=
  vec_length (Vec3 (vx b - vx a) (vy b - vy a) (vz b - vz a)).

(** * utils.js *)

Module Utils.

Definition TERRAIN_HEIGHT_SCALE : R := 8.
Definition FLAT_ZONE_RADIUS : R := 15.

(** [smoothstep]. *)
Definition smoothstep (edge0 edge1 x : R) : R :=
  let t := Rmax 0 (Rmin 1 ((x - edge0) / (edge1 - edge0))) in
  t * t * (3 - 2 * t).

Section Terrain.

(** The three noise functions made by [createNoise2D] of simplex-noise. *)
Variable noise2D noise2D_2 noise2D_3 : R -> R -> R.

(** The height before the centre is flattened. *)
Definition raw_height (x z : R) : R :=
  let scale1 := 0.02 in
  let scale2 := 0.05 in
  let scale3 := 0.1 in
  let height := 0 in
  let height := height + noise2D (x * scale1) (z * scale1) * 1.0 in
  let height := height + noise2D_2 (x * scale2) (z * scale2) * 0.5 in
  let height := height + noise2D_3 (x * scale3) (z * scale3) * 0.2 in
  let height := (height + 1.7) / 3.4 in
  height * TERRAIN_HEIGHT_SCALE.

Definition terrainNoise (x z : R) : R :=
  let height := raw_height x z in
  let distFromCenter := sqrt (x * x + z * z) in
  if decide (distFromCenter < FLAT_ZONE_RADIUS) then
    let t := distFromCenter / FLAT_ZONE_RADIUS in
    let flatBlend := smoothstep 0 1 t in
    lerp 1.0 height flatBlend
  else height.

Definition getTerrainHeight (x z : R) : R := terrainNoise x z.

End Terrain.

End Utils.

(** * controls.js *)

Module Controls.

(** The [state] object of [createControls].  The key flags carry a [key_]
    prefix here. *)
Record state : Type := State {
  key_forward : bool;
  key_backward : bool;
  key_left : bool;
  key_right : bool;
  key_sprint : bool;
  key_jump : bool;
  yaw : R;
  pitch : R;
  mouseSensitivity : R;
  moveDirection : vec3;
  isMoving : bool;
  speed : R;
  locked : bool
}.

Definition initial : state :=
  State false false false false false false 0 0.3 0.002 (Vec3 0 0 0) false 0
    false.

Definition WALK_SPEED : R := 5.
Definition SPRINT_SPEED : R := 10.
Definition PITCH_MIN : R := -0.5.
Definition PITCH_MAX : R := 1.2.

(** The assignment shared by [onKeyDown] ([b] true) and [onKeyUp] ([b]
    false): the [switch] on [e.code]. *)
Definition set_key (code : string) (b : bool) (s : state) : state :=
  if decide (code = "KeyW" \/ code = "ArrowUp") then
    State b (key_backward s) (key_left s) (key_right s) (key_sprint s)
      (key_jump s) (yaw s) (pitch s) (mouseSensitivity s) (moveDirection s)
      (isMoving s) (speed s) (locked s)
  else if decide (code = "KeyS" \/ code = "ArrowDown") then
    State (key_forward s) b (key_left s) (key_right s) (key_sprint s)
      (key_jump s) (yaw s) (pitch s) (mouseSensitivity s) (moveDirection s)
      (isMoving s) (speed s) (locked s)
  else if decide (code = "KeyA" \/ code = "ArrowLeft") then
    State (key_forward s) (key_backward s) b (key_right s) (key_sprint s)
      (key_jump s) (yaw s) (pitch s) (mouseSensitivity s) (moveDirection s)
      (isMoving s) (speed s) (locked s)
  else if decide (code = "KeyD" \/ code = "ArrowRight") then
    State (key_forward s) (key_backward s) (key_left s) b (key_sprint s)
      (key_jump s) (yaw s) (pitch s) (mouseSensitivity s) (moveDirection s)
      (isMoving s) (speed s) (locked s)
  else if decide (code = "ShiftLeft" \/ code = "ShiftRight") then
    State (key_forward s) (key_backward s) (key_left s) (key_right s) b
      (key_jump s) (yaw s) (pitch s) (mouseSensitivity s) (moveDirection s)
      (isMoving s) (speed s) (locked s)
  else if decide (code = "Space") then
    State (key_forward s) (key_backward s) (key_left s) (key_right s)
      (key_sprint s) b (yaw s) (pitch s) (mouseSensitivity s)
      (moveDirection s) (isMoving s) (speed s) (locked s)
  else s.

Definition onKeyDown (code : string) (s : state) : state := set_key code true s.
Definition onKeyUp (code : string) (s : state) : state := set_key code false s.

Definition onMouseMove (movementX movementY : R) (s : state) : state :=
  if negb (locked s) then s else
  let yaw' := yaw s - movementX * mouseSensitivity s in
  let pitch' := pitch s + movementY * mouseSensitivity s in
  let pitch' := Rmax PITCH_MIN (Rmin PITCH_MAX pitch') in
  State (key_forward s) (key_backward s) (key_left s) (key_right s)
    (key_sprint s) (key_jump s) yaw' pitch' (mouseSensitivity s)
    (moveDirection s) (isMoving s) (speed s) (locked s).

(** [onPointerLockChange]; [isCanvas] is
    [document.pointerLockElement === canvas]. *)
Definition onPointerLockChange (isCanvas : bool) (s : state) : state :=
  State (key_forward s) (key_backward s) (key_left s) (key_right s)
    (key_sprint s) (key_jump s) (yaw s) (pitch s) (mouseSensitivity s)
    (moveDirection s) (isMoving s) (speed s) isCanvas.

(** [new THREE.Matrix4().makeRotationY(theta)] applied to a vector by
    [applyMatrix4]. *)
Definition rotateY (theta : R) (v : vec3) : vec3 :=
  Vec3 (cos theta * vx v + sin theta * vz v)
       (vy v)
       (- sin theta * vx v + cos theta * vz v).

(** The vector built from the key flags at the start of [update]. *)
Definition key_dir (s : state) : vec3 :=
  let z := 0 in
  let x := 0 in
  let z := if key_forward s then z + 1 else z in
  let z := if key_backward s then z - 1 else z in
  let x := if key_left s then x + 1 else x in
  let x := if key_right s then x - 1 else x in
  Vec3 x 0 z.

Definition update (delta : R) (s : state) : state :=
  let d := key_dir s in
  let moving := bool_decide (vx d * vx d + vy d * vy d + vz d * vz d > 0) in
  if moving then
    let d := rotateY (yaw s) (vec_normalize d) in
    State (key_forward s) (key_backward s) (key_left s) (key_right s)
      (key_sprint s) (key_jump s) (yaw s) (pitch s) (mouseSensitivity s)
      d true (if key_sprint s then SPRINT_SPEED else WALK_SPEED) (locked s)
  else
    State (key_forward s) (key_backward s) (key_left s) (key_right s)
      (key_sprint s) (key_jump s) (yaw s) (pitch s) (mouseSensitivity s)
      (Vec3 0 0 0) false 0 (locked s).

(** What the browser can deliver to the controls. *)
Inductive event : Type :=
  | KeyDown (code : string)
  | KeyUp (code : string)
  | MouseMove (movementX movementY : R)
  | PointerLockChange (isCanvas : bool)
  | Update (delta : R).

Definition handle (s : state) (ev : event) : state :=
  match ev with
  | KeyDown code => onKeyDown code s
  | KeyUp code => onKeyUp code s
  | MouseMove mx my => onMouseMove mx my s
  | PointerLockChange b => onPointerLockChange b s
  | Update delta => update delta s
  end.

End Controls.

(** * camera.js *)

Module Camera.

Definition DISTANCE : R := 6.
Definition HEIGHT_OFFSET : R := 2.2.
Definition FOLLOW_LERP : R := 8.

(** [currentPos] as [createCamera] leaves it. *)
Definition initial : vec3 := Vec3 0 5 10.

(** [targetPos] as [update] sets it. *)
Definition targetPos (characterPos : vec3) (yaw pitch : R) : vec3 :=
  let horizontalDist := DISTANCE * cos pitch in
  let verticalDist := DISTANCE * sin pitch in
  Vec3 (vx characterPos - sin yaw * horizontalDist)
       (vy characterPos + HEIGHT_OFFSET + verticalDist)
       (vz characterPos - cos yaw * horizontalDist).

(** [lookAtPos] as [update] sets it. *)
Definition lookAtPos (characterPos : vec3) : vec3 :=
  Vec3 (vx characterPos) (vy characterPos + HEIGHT_OFFSET) (vz characterPos).

(** [Vector3.lerp(v, alpha)]. *)
Definition vec_lerp (a v : vec3) (alpha : R) : vec3 :=
  Vec3 (vx a + (vx v - vx a) * alpha)
       (vy a + (vy v - vy a) * alpha)
       (vz a + (vz v - vz a) * alpha).

(** [update]: the new [currentPos], which is also [camera.position]. *)
Definition update (delta : R) (characterPos : vec3) (yaw pitch : R)
    (currentPos : vec3) : vec3 :=
  let lerpFactor := 1 - exp (- FOLLOW_LERP * delta) in
  vec_lerp currentPos (targetPos characterPos yaw pitch) lerpFactor.

(** Successive calls of [update] with a character and a view that do not
    move. *)
Definition updates (deltas : list R) (characterPos : vec3) (yaw pitch : R)
    (currentPos : vec3) : vec3 :=
  foldl (fun c delta => update delta characterPos yaw pitch c) currentPos
    deltas.

End Camera.

(** * main.js *)

Module Main.

(** The mutable state of main.js.  [character.group.position] and
    [character.group.rotation.y] are [char_position] and [char_rotation_y];
    [sven.group.rotation.y] is [sven_rotation_y].  Of the page, the model
    keeps whether the interact prompt and the dialogue box carry the class
    [hidden] and which line the dialogue text shows (its index in
    [svenLines]).  The renderer, the lights, the overlay and the limb
    animations are not modelled. *)
Record game : Type := Game {
  char_position : vec3;
  char_rotation_y : R;
  targetRotationY : R;
  velocityY : R;
  isGrounded : bool;
  controls : Controls.state;
  camera_position : vec3;
  sven_rotation_y : R;
  dialogueOpen : bool;
  currentLineIndex : Z;
  nearSven : bool;
  eKeyHandled : bool;
  interactPrompt_hidden : bool;
  dialogueBox_hidden : bool;
  dialogueText : option Z;
  rolls : nat                     (* calls of Math.random so far *)
}.

Definition GRAVITY : R := -20.
Definition JUMP_FORCE : R := 8.
Definition INTERACT_DISTANCE : R := 5.
Definition svenX : R := 6.
Definition svenZ : R := 4.
Definition svenLines_length : nat := 14.

(** [THREE.MathUtils.clamp]. *)
Definition clamp (value min max : R) : R := Rmax min (Rmin max value).

Section Loop.

Variable getTerrainHeight : R -> R -> R.
Variable random : nat -> R.

(** The index drawn by
    [Math.floor(Math.random() * svenLines.length)]. *)
Definition random_line (g : game) : Z :=
  Zfloor (random (rolls g) * INR svenLines_length).

(** The keydown listener of main.js. *)
Definition onKeyDown (code : string) (g : game) : game :=
  if decide (code <> "KeyE" \/ eKeyHandled g = true) then g else
  if dialogueOpen g then
    let i := (currentLineIndex g + 1)%Z in
    if decide (i >= 3)%Z then
      Game (char_position g) (char_rotation_y g) (targetRotationY g)
        (velocityY g) (isGrounded g) (controls g) (camera_position g)
        (sven_rotation_y g) false i (nearSven g) true
        (interactPrompt_hidden g) true (dialogueText g) (rolls g)
    else
      Game (char_position g) (char_rotation_y g) (targetRotationY g)
        (velocityY g) (isGrounded g) (controls g) (camera_position g)
        (sven_rotation_y g) true i (nearSven g) true
        (interactPrompt_hidden g) (dialogueBox_hidden g)
        (Some (random_line g)) (S (rolls g))
  else if nearSven g then
    Game (char_position g) (char_rotation_y g) (targetRotationY g)
      (velocityY g) (isGrounded g) (controls g) (camera_position g)
      (sven_rotation_y g) true 0 (nearSven g) true
      true false (Some (random_line g)) (S (rolls g))
  else
    Game (char_position g) (char_rotation_y g) (targetRotationY g)
      (velocityY g) (isGrounded g) (controls g) (camera_position g)
      (sven_rotation_y g) (dialogueOpen g) (currentLineIndex g) (nearSven g)
      true (interactPrompt_hidden g) (dialogueBox_hidden g) (dialogueText g)
      (rolls g).

(** The keyup listener of main.js. *)
Definition onKeyUp (code : string) (g : game) : game :=
  if decide (code = "KeyE") then
    Game (char_position g) (char_rotation_y g) (targetRotationY g)
      (velocityY g) (isGrounded g) (controls g) (camera_position g)
      (sven_rotation_y g) (dialogueOpen g) (currentLineIndex g) (nearSven g)
      false (interactPrompt_hidden g) (dialogueBox_hidden g) (dialogueText g)
      (rolls g)
  else g.

(** The horizontal part of [gameLoop]: the character's position and
    [targetRotationY] after "Move character". *)
Definition move_character (delta : R) (c : Controls.state) (pos : vec3)
    (target : R) : vec3 * R :=
  if Controls.isMoving c then
    let k := Controls.speed c * delta in
    let move := Vec3 (vx (Controls.moveDirection c) * k)
                     (vy (Controls.moveDirection c) * k)
                     (vz (Controls.moveDirection c) * k) in
    (Vec3 (vx pos + vx move) (vy pos) (vz pos + vz move),
     atan2 (vx (Controls.moveDirection c)) (vz (Controls.moveDirection c)))
  else (pos, target).

(** The vertical part of [gameLoop]: height, [velocityY] and [isGrounded]
    after "Jump". *)
Definition jump_and_fall (delta terrainY : R) (jumpPressed : bool)
    (y vel : R) (grounded : bool) : R * R * bool :=
  let '(vel, grounded) :=
    if jumpPressed && grounded then (JUMP_FORCE, false)
    else (vel, grounded) in
  if negb grounded then
    let vel := vel + GRAVITY * delta in
    let y := y + vel * delta in
    if decide (y <= terrainY) then (terrainY, 0, true)
    else (y, vel, false)
  else (lerp y terrainY (Rmin 1 (8 * delta)), vel, grounded).

(** [gameLoop], for the value [clockDelta] of [clock.getDelta()]. *)
Definition gameLoop (clockDelta : R) (g : game) : game :=
  let delta := Rmin clockDelta 0.05 in
  let c := Controls.update delta (controls g) in
  let '(pos, target) :=
    move_character delta c (char_position g) (targetRotationY g) in
  let currentRot := char_rotation_y g in
  let diff := normalize_angle (target - currentRot) in
  let rot := char_rotation_y g + diff * Rmin 1 (10 * delta) in
  let charX := vx pos in
  let charZ := vz pos in
  let terrainY := getTerrainHeight charX charZ in
  let '(y, vel, grounded) :=
    jump_and_fall delta terrainY (Controls.key_jump c) (vy pos) (velocityY g)
      (isGrounded g) in
  let halfSize := 95 in
  let pos := Vec3 (clamp (vx pos) (- halfSize) halfSize) y
                  (clamp (vz pos) (- halfSize) halfSize) in
  let dx := vx pos - svenX in
  let dz := vz pos - svenZ in
  let distToSven := sqrt (dx * dx + dz * dz) in
  let near := bool_decide (distToSven < INTERACT_DISTANCE) in
  let sven_rot :=
    if near
    then lerp (sven_rotation_y g) (atan2 dx dz) (Rmin 1 (4 * delta))
    else sven_rotation_y g in
  let prompt_hidden :=
    if near
    then (if negb (dialogueOpen g) then false else interactPrompt_hidden g)
    else true in
  let open := if near then dialogueOpen g else false in
  let box_hidden :=
    if near then dialogueBox_hidden g
    else (if dialogueOpen g then true else dialogueBox_hidden g) in
  let cam :=
    Camera.update delta pos (Controls.yaw c) (Controls.pitch c)
      (camera_position g) in
  Game pos rot target vel grounded c cam sven_rot open (currentLineIndex g)
    near (eKeyHandled g) prompt_hidden box_hidden (dialogueText g) (rolls g).

(** What happens to the page between two renderings, as far as main.js and
    the controls listen to it. *)
Inductive event : Type :=
  | KeyDown (code : string)
  | KeyUp (code : string)
  | MouseMove (movementX movementY : R)
  | PointerLockChange (isCanvas : bool)
  | Frame (clockDelta : R).

Definition with_controls (c : Controls.state) (g : game) : game :=
  Game (char_position g) (char_rotation_y g) (targetRotationY g)
    (velocityY g) (isGrounded g) c (camera_position g) (sven_rotation_y g)
    (dialogueOpen g) (currentLineIndex g) (nearSven g) (eKeyHandled g)
    (interactPrompt_hidden g) (dialogueBox_hidden g) (dialogueText g)
    (rolls g).

(** A key event reaches the listener of the controls, registered first, and
    then the listener of main.js. *)
Definition handle (g : game) (ev : event) : game :=
  match ev with
  | KeyDown code =>
      onKeyDown code
        (with_controls (Controls.onKeyDown code (controls g)) g)
  | KeyUp code =>
      onKeyUp code (with_controls (Controls.onKeyUp code (controls g)) g)
  | MouseMove mx my =>
      with_controls (Controls.onMouseMove mx my (controls g)) g
  | PointerLockChange b =>
      with_controls (Controls.onPointerLockChange b (controls g)) g
  | Frame clockDelta => gameLoop clockDelta g
  end.

End Loop.

End Main.

(** ** Vocabulary for main.js *)


(** The delta a frame works with. *)
Definition frame_delta (clockDelta : R) : R := Rmin clockDelta 0.05.

(** Where the horizontal move of a frame takes the character, before the
    clamp to the bounds. *)
Definition moved_to (clockDelta : R) (g : Main.game) : vec3 :=
  let delta := frame_delta clockDelta in
  fst (Main.move_character delta
         (Controls.update delta (Main.controls g))
         (Main.char_position g) (Main.targetRotationY g)).

(** The terrain height the frame reads for the jump and the fall: the
    height at the place the character has moved to, read before the clamp
    to the bounds. *)
Definition ground_under (getTerrainHeight : R -> R -> R) (clockDelta : R)
    (g : Main.game) : R :=
  getTerrainHeight (vx (moved_to clockDelta g)) (vz (moved_to clockDelta g)).


(** Pressing and releasing the E key. *)
Definition tap_E (random : nat -> R) (g : Main.game) : Main.game :=
  Main.onKeyUp "KeyE" (Main.onKeyDown random "KeyE" g).

(** * Properties *)

(** ** The angle loops *)

Lemma angle_fuel_enough (a : R) : Rabs a <= PI * 2 * INR (angle_fuel a).
Proof.
  unfold angle_fuel.
  pose proof PI_RGT_0 as Hpi.
  pose proof (Rabs_pos a) as Ha.
  destruct (archimed (Rabs a / (PI * 2))) as [Hup _].
  assert (0 <= Rabs a / (PI * 2)) as Hq.
  { apply Rmult_le_pos; [lra|]. left. apply Rinv_0_lt_compat. lra. }
  assert (0 < up (Rabs a / (PI * 2)))%Z as Hz by (apply lt_IZR; lra).
  rewrite INR_IZR_INZ, Z2Nat.id by lia.
  assert (Rabs a / (PI * 2) * (PI * 2) = Rabs a) as Heq by (field; lra).
  revert Hup Hq Heq. generalize (Rabs a / (PI * 2)), (IZR (up (Rabs a / (PI * 2)))).
  intros q u Hu Hq Heq. nra.
Qed.

Lemma while_above_pi_id (fuel : nat) (a : R) :
  a <= PI -> while_above_pi fuel a = a.
Proof. destruct fuel; simpl; [done|]. intros. case_decide; [lra|done]. Qed.

Lemma while_below_neg_pi_id (fuel : nat) (a : R) :
  - PI <= a -> while_below_neg_pi fuel a = a.
Proof. destruct fuel; simpl; [done|]. intros. case_decide; [lra|done]. Qed.

Lemma while_above_pi_shift (fuel : nat) (a : R) :
  exists k : Z, while_above_pi fuel a = a + PI * 2 * IZR k.
Proof.
  revert a. induction fuel as [|fuel IH]; intros a; simpl.
  - exists 0%Z. lra.
  - case_decide.
    + destruct (IH (a - PI * 2)) as [k ->]. exists (k - 1)%Z.
      rewrite minus_IZR. lra.
    + exists 0%Z. lra.
Qed.

Lemma while_below_neg_pi_shift (fuel : nat) (a : R) :
  exists k : Z, while_below_neg_pi fuel a = a + PI * 2 * IZR k.
Proof.
  revert a. induction fuel as [|fuel IH]; intros a; simpl.
  - exists 0%Z. lra.
  - case_decide.
    + destruct (IH (a + PI * 2)) as [k ->]. exists (k + 1)%Z.
      rewrite plus_IZR. lra.
    + exists 0%Z. lra.
Qed.

(** With enough fuel the first loop stops because its test fails. *)
Lemma while_above_pi_exits (fuel : nat) (a : R) :
  a <= PI + PI * 2 * INR fuel ->
  while_above_pi fuel a <= PI /\
  (PI < a -> - PI < while_above_pi fuel a).
Proof.
  pose proof PI_RGT_0 as Hpi.
  revert a. induction fuel as [|fuel IH]; intros a Ha.
  - simpl in *. lra.
  - rewrite S_INR in Ha. simpl. case_decide as Hc; [|lra].
    destruct (IH (a - PI * 2)) as [Hle Hgt]; [lra|].
    split; [done|]. intros _.
    destruct (decide (PI < a - PI * 2)) as [Hbig|Hsmall]; [auto|].
    rewrite while_above_pi_id by lra. lra.
Qed.

Lemma while_below_neg_pi_exits (fuel : nat) (a : R) :
  - PI - PI * 2 * INR fuel <= a ->
  - PI <= while_below_neg_pi fuel a /\
  (a < - PI -> while_below_neg_pi fuel a < PI).
Proof.
  pose proof PI_RGT_0 as Hpi.
  revert a. induction fuel as [|fuel IH]; intros a Ha.
  - simpl in *. lra.
  - rewrite S_INR in Ha. simpl. case_decide as Hc; [|lra].
    destruct (IH (a + PI * 2)) as [Hle Hgt]; [lra|].
    split; [done|]. intros _.
    destruct (decide (a + PI * 2 < - PI)) as [Hbig|Hsmall]; [auto|].
    rewrite while_below_neg_pi_id by lra. lra.
Qed.

(** Both loops of [normalize_angle] end because their tests fail, and the
    angle has moved by a whole number of turns. *)
Lemma normalize_angle_exits (a : R) :
  ~ normalize_angle a > PI /\ ~ normalize_angle a < - PI.
Proof.
  pose proof PI_RGT_0 as Hpi.
  unfold normalize_angle.
  set (a1 := while_above_pi (angle_fuel a) a).
  pose proof (angle_fuel_enough a) as Hf.
  pose proof (angle_fuel_enough a1) as Hf1.
  destruct (while_above_pi_exits (angle_fuel a) a) as [H1 H2].
  { pose proof (Rle_abs a). lra. }
  fold a1 in H1, H2.
  destruct (while_below_neg_pi_exits (angle_fuel a1) a1) as [H3 H4].
  { pose proof (Rle_abs (- a1)). rewrite Rabs_Ropp in *. lra. }
  split; [|lra].
  destruct (decide (a1 < - PI)) as [Hlow|Hok]; [specialize (H4 Hlow); lra|].
  rewrite while_below_neg_pi_id by lra. lra.
Qed.

Lemma normalize_angle_shift (a : R) :
  exists k : Z, normalize_angle a = a + PI * 2 * IZR k.
Proof.
  unfold normalize_angle.
  destruct (while_above_pi_shift (angle_fuel a) a) as [k1 H1].
  destruct (while_below_neg_pi_shift
              (angle_fuel (while_above_pi (angle_fuel a) a))
              (while_above_pi (angle_fuel a) a)) as [k2 H2].
  exists (k1 + k2)%Z. rewrite H2, H1, plus_IZR. lra.
Qed.

(** The frontal test on the result of the loops is the frontal test on the
    angle normalized the way the specification words it. *)
Lemma frontal_test_normalized (a : R) :
  Rabs (normalize_angle a) < PI / 2 <->
  exists v, normalized_into a v /\ Rabs v < PI / 2.
Proof.
  pose proof PI_RGT_0 as Hpi.
  destruct (normalize_angle_exits a) as [Hhi Hlo].
  destruct (normalize_angle_shift a) as [k Hk].
  split.
  - intros Habs. exists (normalize_angle a).
    apply Rabs_def2 in Habs as [? ?].
    repeat split; [lra|lra|by exists k|apply Rabs_def1; lra].
  - intros (v & [[Hv1 Hv2] [j Hj]] & Habs).
    apply Rabs_def2 in Habs as [? ?].
    assert (k = j) as ->.
    { assert (k - j = 0)%Z; [|lia].
      apply one_IZR_lt1. rewrite minus_IZR.
      assert (normalize_angle a - v = PI * 2 * (IZR k - IZR j)) as Hd
        by (rewrite Hk, Hj; lra).
      split; nra. }
    rewrite Hk, <- Hj. apply Rabs_def1; lra.
Qed.

(** ** Melee resolution *)

Lemma attack_one_hit_iff (playerPos : vec3) (playerAngle range damage : R)
    (m : monster) :
  snd (attack_one playerPos playerAngle range damage m) = true <->
  state m <> dead /\ distance_to playerPos m <= range
  /\ in_front playerPos playerAngle m.
Proof.
  unfold attack_one, in_front, distance_to.
  rewrite <- frontal_test_normalized.
  repeat case_decide; simpl; split; try done;
    try (intros (? & ? & ?); first [done | lra]);
    intros _; repeat split; first [done | lra].
Qed.

Lemma attack_one_miss (playerPos : vec3) (playerAngle range damage : R)
    (m : monster) :
  snd (attack_one playerPos playerAngle range damage m) = false ->
  fst (attack_one playerPos playerAngle range damage m) = m.
Proof. unfold attack_one. repeat case_decide; simpl; done. Qed.

Lemma attack_one_hp (playerPos : vec3) (playerAngle range damage : R)
    (m : monster) :
  snd (attack_one playerPos playerAngle range damage m) = true ->
  hp (fst (attack_one playerPos playerAngle range damage m))
  = hp_after damage m.
Proof.
  unfold attack_one, hp_after, die_if_depleted, move_xz.
  repeat case_decide; simpl in *; try done; lra.
Qed.

Lemma attack_loop_spec (playerPos : vec3) (playerAngle range damage : R)
    (ms : list monster) (hitAny : bool) :
  attack_loop playerPos playerAngle range damage ms hitAny
  = (map (fun m => fst (attack_one playerPos playerAngle range damage m)) ms,
     hitAny
     || existsb
          (fun m => snd (attack_one playerPos playerAngle range damage m)) ms).
Proof.
  revert hitAny. induction ms as [|m ms IH]; intros hitAny; simpl.
  - by rewrite orb_false_r.
  - destruct (attack_one playerPos playerAngle range damage m) as [m' h].
    rewrite IH. simpl. by rewrite orb_assoc.
Qed.

Lemma attackMonstersInRange_spec (playerPos : vec3)
    (playerAngle range damage : R) (ms : list monster) :
  attackMonstersInRange playerPos playerAngle range damage ms
  = (map (fun m => fst (attack_one playerPos playerAngle range damage m)) ms,
     existsb (fun m => snd (attack_one playerPos playerAngle range damage m))
       ms).
Proof. unfold attackMonstersInRange. by rewrite attack_loop_spec. Qed.

Lemma planar_axis (z : R) : 0 <= z -> planar 0 z = z.
Proof.
  intros Hz. unfold planar.
  replace (0 * 0 + z * z) with (z * z) by lra. by apply sqrt_square.
Qed.

Lemma atan2_axis (z : R) : 0 < z -> atan2 0 z = 0.
Proof.
  intros Hz. unfold atan2. case_decide; [|lra].
  replace (0 / z) with 0 by (field; lra). apply atan_0.
Qed.

Lemma normalize_angle_0 : normalize_angle 0 = 0.
Proof.
  pose proof PI_RGT_0. unfold normalize_angle.
  rewrite (while_above_pi_id _ 0) by lra.
  rewrite while_below_neg_pi_id by lra. done.
Qed.

(** The player at the origin, looking north, strikes with range 3 a monster
    that stands exactly 3 units away: the monster is hit. *)
Lemma attack_one_at_range :
  attack_one (Vec3 0 0 0) 0 3 10 (monster_at 0 3)
  = (set_position (Vec3 0 0 (3 + 0.8)) (set_hp 50 (monster_at 0 3)), true).
Proof.
  pose proof PI_RGT_0.
  unfold attack_one, px, pz, monster_at. simpl.
  replace (3 - 0) with 3 by lra. replace (0 - 0) with 0 by lra.
  rewrite planar_axis, atan2_axis by lra.
  replace (0 - 0) with 0 by lra. rewrite normalize_angle_0, Rabs_R0.
  rewrite decide_False by lra.
  rewrite decide_True by lra.
  rewrite decide_True by lra.
  unfold die_if_depleted, move_xz. simpl.
  rewrite decide_False by lra.
  unfold set_position, set_hp, px, pz. simpl.
  f_equal. f_equal; [f_equal; lra | lra].
Qed.

Lemma distance_to_axis (z : R) :
  0 <= z -> distance_to (Vec3 0 0 0) (monster_at 0 z) = z.
Proof.
  intros Hz. unfold distance_to, px, pz, monster_at. simpl.
  replace (0 - 0) with 0 by lra. replace (z - 0) with z by lra.
  by apply planar_axis.
Qed.

Lemma atan2_origin : atan2 0 0 = 0.
Proof. unfold atan2. repeat case_decide; lra. Qed.

(** The player at the origin strikes a monster standing on the same spot. *)
Lemma attack_one_on_the_spot :
  snd (attack_one (Vec3 0 0 0) 0 3 10 (monster_at 0 0)) = true.
Proof.
  pose proof PI_RGT_0.
  unfold attack_one, px, pz, monster_at. simpl.
  replace (0 - 0) with 0 by lra.
  rewrite planar_axis, atan2_origin by lra.
  replace (0 - 0) with 0 by lra. rewrite normalize_angle_0, Rabs_R0.
  rewrite decide_False by lra.
  rewrite decide_True by lra. done.
Qed.

(** C2 (amended).  [attackMonstersInRange] hits a monster exactly when it is
    not dead, its planar distance to the player is at most [range] (the bound
    is included), and the difference between the direction to the monster and
    [playerAngle], normalized into the interval from [- PI] (excluded) to
    [PI], is below [PI / 2] in absolute value.  A monster that is hit loses
    [damage] hp (floored at 0); any other monster is left as it was, hp and
    position included; the call returns [true] exactly when some monster of
    the list was hit. *)
Theorem attackMonstersInRange_hits (playerPos : vec3)
    (playerAngle range damage : R) (ms : list monster) :
  let hit m := snd (attack_one playerPos playerAngle range damage m) = true in
  let after m := fst (attack_one playerPos playerAngle range damage m) in
  (forall m, hit m <->
     state m <> dead /\ distance_to playerPos m <= range
     /\ in_front playerPos playerAngle m)
  /\ (forall m, hit m -> hp (after m) = hp_after damage m)
  /\ (forall m, ~ hit m -> after m = m)
  /\ fst (attackMonstersInRange playerPos playerAngle range damage ms)
     = map after ms
  /\ (snd (attackMonstersInRange playerPos playerAngle range damage ms) = true
      <-> exists m, m ∈ ms /\ hit m).
Proof.
  intros hit after. subst hit after. simpl.
  split; [apply attack_one_hit_iff|].
  split; [apply attack_one_hp|].
  split.
  { intros m Hm. apply attack_one_miss. by destruct (snd _). }
  rewrite attackMonstersInRange_spec. simpl. split; [done|].
  rewrite existsb_exists. split.
  - intros (m & Hin & Hm). exists m. by rewrite list_elem_of_In.
  - intros (m & Hin & Hm). exists m. by rewrite <- list_elem_of_In.
Qed.

(** C2, as stated, fails: with the strict bound [distance < range] a monster
    standing exactly at [range] would be spared, and it is hit. *)
Lemma strict_range_refuted :
  ~ (forall (playerPos : vec3) (playerAngle range damage : R) (m : monster),
        state m <> dead ->
        (snd (attack_one playerPos playerAngle range damage m) = true <->
         distance_to playerPos m < range /\ in_front playerPos playerAngle m)).
Proof.
  intros Hclaim.
  destruct (Hclaim (Vec3 0 0 0) 0 3 10 (monster_at 0 3)) as [Hhit _]; [done|].
  rewrite attack_one_at_range in Hhit.
  destruct Hhit as [Hlt _]; [done|].
  rewrite distance_to_axis in Hlt; lra.
Qed.

(** C10.  A monster hit by [attackMonstersInRange] at a planar distance of at
    most 0.1 takes the damage and keeps its position; the knockback, which
    divides by the distance, is applied only beyond 0.1. *)
Theorem close_hit_has_no_knockback (playerPos : vec3)
    (playerAngle range damage : R) (m : monster) :
  snd (attack_one playerPos playerAngle range damage m) = true ->
  let m' := fst (attack_one playerPos playerAngle range damage m) in
  let d := distance_to playerPos m in
  hp m' = hp_after damage m
  /\ (d <= 0.1 -> position m' = position m)
  /\ (d > 0.1 ->
      px m' = px m + (px m - vx playerPos) / d * 0.8
      /\ pz m' = pz m + (pz m - vz playerPos) / d * 0.8).
Proof.
  intros Hhit m' d. split; [by apply attack_one_hp|].
  subst m' d. revert Hhit.
  unfold attack_one, distance_to, die_if_depleted, move_xz.
  repeat case_decide; simpl; intros; try done; split; intros; try lra; done.
Qed.

Lemma close_hit_has_no_knockback_witness :
  snd (attack_one (Vec3 0 0 0) 0 3 10 (monster_at 0 0)) = true
  /\ hp (fst (attack_one (Vec3 0 0 0) 0 3 10 (monster_at 0 0)))
     = hp_after 10 (monster_at 0 0).
Proof.
  split; [exact attack_one_on_the_spot|].
  apply (close_hit_has_no_knockback (Vec3 0 0 0) 0 3 10 (monster_at 0 0)).
  exact attack_one_on_the_spot.
Defined.

(** ** Damage dealt to the player *)

Lemma planar_swap (a b c d : R) : planar (a - b) (c - d) = planar (b - a) (d - c).
Proof. unfold planar. f_equal. lra. Qed.

Lemma check_one_spec (playerPos : vec3) (m : monster) :
  0 <= attackCooldown m ->
  check_one playerPos m
  = if decide (lands_attack playerPos m)
    then (set_attackCooldown 1.5 m, type_damage (mtype m))
    else (m, 0).
Proof.
  intros Hcd. unfold check_one, lands_attack, distance_to, ATTACK_RANGE,
    ATTACK_COOLDOWN.
  rewrite (planar_swap (vx playerPos)).
  repeat case_decide; try done; exfalso; intuition lra.
Qed.

Lemma check_loop_spec (playerPos : vec3) (ms : list monster) (total : R) :
  check_loop playerPos ms total
  = (map (fun m => fst (check_one playerPos m)) ms,
     total + sum_R (map (fun m => snd (check_one playerPos m)) ms)).
Proof.
  revert total. induction ms as [|m ms IH]; intros total; simpl.
  - f_equal. lra.
  - destruct (check_one playerPos m) as [m' d]. rewrite IH. simpl.
    f_equal. lra.
Qed.

(** C9.  On monsters whose attack cooldown is never negative (see
    [attackCooldown_never_negative]), [checkPlayerDamage] returns the sum of
    [type.damage] over the monsters that are in state attack, have an attack
    cooldown of 0 and stand within their attack range of the player (8 for
    the boss, 2 otherwise); it sets the cooldown of each of those to 1.5 and
    leaves every other monster as it was. *)
Theorem checkPlayerDamage_sums_landed_attacks (playerPos : vec3)
    (ms : list monster) :
  Forall (fun m => 0 <= attackCooldown m) ms ->
  snd (checkPlayerDamage playerPos ms)
  = sum_R (map (fun m => type_damage (mtype m))
             (filter (lands_attack playerPos) ms))
  /\ fst (checkPlayerDamage playerPos ms)
     = map (fun m => if decide (lands_attack playerPos m)
                     then set_attackCooldown 1.5 m else m) ms.
Proof.
  intros Hcd. unfold checkPlayerDamage. rewrite check_loop_spec. simpl.
  induction Hcd as [|m ms Hm Hms [IHd IHm]]; simpl.
  - split; [lra|done].
  - rewrite filter_cons, (check_one_spec playerPos m Hm).
    rewrite Rplus_0_l in IHd.
    case_decide; simpl; rewrite IHm; (split; [|done]); unfold sum_R in *;
      simpl; rewrite !Rplus_0_l; [f_equal|]; exact IHd.
Qed.

(** A mushroom in state attack, one unit away from the player. *)
Lemma lands_attack_example :
  lands_attack (Vec3 0 0 0) (set_state attack (monster_at 0 1)).
Proof.
  unfold lands_attack. simpl. repeat split.
  change (distance_to (Vec3 0 0 0) (monster_at 0 1) < 2).
  rewrite distance_to_axis; lra.
Qed.

Lemma checkPlayerDamage_sums_landed_attacks_witness :
  Forall (fun m => 0 <= attackCooldown m) [set_state attack (monster_at 0 1)]
  /\ snd (checkPlayerDamage (Vec3 0 0 0) [set_state attack (monster_at 0 1)])
     = 5.
Proof.
  assert (Forall (fun m => 0 <= attackCooldown m)
            [set_state attack (monster_at 0 1)]) as Hcd.
  { apply Forall_singleton. unfold monster_at. simpl. lra. }
  split; [exact Hcd|].
  destruct (checkPlayerDamage_sums_landed_attacks (Vec3 0 0 0) _ Hcd)
    as [-> _].
  rewrite filter_cons, decide_True by exact lands_attack_example.
  simpl. lra.
Defined.

(** ** The AI update of a live monster *)

(** C7.  The update of a monster that is not dead, at planar distance [d]
    from the player: within the aggro range (40 for the boss, 12 otherwise)
    and within the attack range (8 for the boss, 2 otherwise) the state
    becomes attack; within the aggro range but not within the attack range
    the state becomes chase and the monster is displaced by
    [type.speed * delta] along the unit vector towards the player; outside
    the aggro range the state becomes idle.  A normal monster at distance 3
    ends in state chase. *)
Theorem ai_state_by_distance (getTerrainHeight : R -> R -> R)
    (random : nat -> R) (delta : R) (playerPos : vec3) (m : monster)
    (e : env) :
  state m <> dead ->
  let d := distance_to playerPos m in
  let dx := vx playerPos - px m in
  let dz := vz playerPos - pz m in
  exists m' e',
    update_one getTerrainHeight random delta playerPos m e = (Some m', e')
    /\ (d < aggroRange m -> d < attackRange m -> state m' = attack)
    /\ (d < aggroRange m -> attackRange m <= d ->
        state m' = chase
        /\ px m' = px m + dx / d * type_speed (mtype m) * delta
        /\ pz m' = pz m + dz / d * type_speed (mtype m) * delta)
    /\ (aggroRange m <= d -> state m' = idle)
    /\ (isBoss m = false -> d = 3 -> state m' = chase /\ state m' <> attack).
Proof.
  intros Halive d dx dz. subst d dx dz.
  unfold distance_to, aggroRange, attackRange.
  rewrite (planar_swap (px m)).
  unfold update_one. rewrite decide_False by done.
  unfold update_alive, AGGRO_RANGE, ATTACK_RANGE. cbn [isBoss set_time
    set_attackCooldown].
  set (dist := planar (vx playerPos - px (set_time (time m + delta) m))
                      (vz playerPos - pz (set_time (time m + delta) m))).
  assert (planar (vx playerPos - px m) (vz playerPos - pz m) = dist) as ->
    by done.
  destruct (isBoss m); repeat case_decide; simpl;
    eexists _, _; (split; [reflexivity|]); simpl;
    repeat split; intros; try done; try lra.
Qed.

Lemma ai_state_by_distance_witness :
  state (monster_at 0 3) <> dead
  /\ exists m' e',
       update_one flat_terrain no_dice 0.05 (Vec3 0 0 0) (monster_at 0 3)
         (Env 0 []) = (Some m', e')
       /\ state m' = chase.
Proof.
  split; [done|].
  destruct (ai_state_by_distance flat_terrain no_dice 0.05 (Vec3 0 0 0)
              (monster_at 0 3) (Env 0 []))
    as (m' & e' & Hrun & _ & _ & _ & Hex); [done|].
  exists m', e'. split; [exact Hrun|].
  apply Hex; [done|]. apply distance_to_axis. lra.
Defined.

(** ** Dead monsters *)

Lemma update_one_dead (getTerrainHeight : R -> R -> R) (random : nat -> R)
    (delta : R) (playerPos : vec3) (m : monster) (e : env) :
  state m = dead ->
  update_one getTerrainHeight random delta playerPos m e
  = if decide (deathTime m + delta > removeTime m)
    then (None, if isBoss m then e else setTimeout RunSpawnMonster 5000 e)
    else (Some
            (set_scale
               (Rmax 0 (type_size (mtype m)
                        * (1 - (deathTime m + delta)
                               * (if isBoss m then 0.5 else 2))))
               (set_position
                  (Vec3 (px m)
                     (vy (position m)
                      - delta * (if isBoss m then 0.3 else 0.5))
                     (pz m))
                  (set_deathTime (deathTime m + delta)
                     (set_time (time m + delta) m)))),
          e).
Proof.
  intros Hdead. unfold update_one. rewrite decide_True by done.
  unfold update_dead, removeTime. simpl.
  destruct (isBoss m); repeat case_decide; try done; lra.
Qed.

Lemma update_one_alive_stays (getTerrainHeight : R -> R -> R)
    (random : nat -> R) (delta : R) (playerPos : vec3) (m : monster)
    (e : env) :
  state m <> dead ->
  exists m' e',
    update_one getTerrainHeight random delta playerPos m e = (Some m', e')
    /\ state m' <> dead /\ hp m' = hp m /\ isBoss m' = isBoss m
    /\ timers e' = timers e
    /\ frozen m' = frozen m /\ frozenPos m' = frozenPos m
    /\ slowUntil m' = slowUntil m
    /\ attackCooldown m' = Rmax 0 (attackCooldown m - delta).
Proof.
  intros Halive. unfold update_one. rewrite decide_False by done.
  unfold update_alive.
  repeat case_decide; simpl; eexists _, _; (split; [reflexivity|]); done.
Qed.

Lemma spawnMonster_appends (getTerrainHeight : R -> R -> R)
    (random : nat -> R) (fuel : nat) (ms : list monster) (k : nat)
    (ms' : list monster) (k' : nat) :
  spawnMonster getTerrainHeight random fuel ms k = Some (ms', k') ->
  exists m, ms' = ms ++ [m] /\ newly_spawned m.
Proof.
  revert k. induction fuel as [|fuel IH]; intros k; simpl; [done|].
  case_decide; [apply IH|].
  destruct (MONSTER_TYPES !! _) as [type|] eqn:Htype; [|done].
  intros [= <- <-]. eexists. split; [reflexivity|].
  unfold newly_spawned. simpl. repeat split; try done.
  apply list_elem_of_lookup_2 in Htype. unfold MONSTER_TYPES in Htype.
  set_unfold. destruct Htype as [->|[->|[->|[]]]]; simpl; lra.
Qed.

Lemma newly_spawned_ok (m : monster) : newly_spawned m -> monster_ok m.
Proof. intros (_ & _ & Hhp & Hcd & _). split; [done|lra]. Qed.

Lemma newly_spawned_marks (m : monster) : newly_spawned m -> mark_ok m.
Proof. by intros (_ & _ & _ & _ & _ & _ & ?) _. Qed.

Lemma update_timers (getTerrainHeight : R -> R -> R) (random : nat -> R)
    (delta : R) (playerPos : vec3) (ms : list monster) (e : env) :
  timers (snd (update getTerrainHeight random delta playerPos ms e))
  = timers e
    ++ replicate
         (length (filter (fun m => expires delta m /\ isBoss m = false) ms))
         (Timer 5000 RunSpawnMonster).
Proof.
  induction ms as [|m ms IH]; simpl.
  - by rewrite app_nil_r.
  - destruct (update getTerrainHeight random delta playerPos ms e)
      as [rest' e1] eqn:Hrest. simpl in IH.
    destruct (update_one getTerrainHeight random delta playerPos m e1)
      as [om e2] eqn:Hone. simpl.
    rewrite filter_cons.
    destruct (decide (state m = dead)) as [Hdead|Halive].
    + rewrite update_one_dead in Hone by done.
      destruct (decide (deathTime m + delta > removeTime m)) as [Hexp|Hkeep];
        simplify_eq.
      * destruct (isBoss m) eqn:Hboss.
        -- by rewrite decide_False by (by intros [_ ?]).
        -- rewrite decide_True by done. simpl. rewrite IH.
           by rewrite <- app_assoc, <- replicate_cons_app.
      * by rewrite decide_False by (by intros [[_ ?] _]).
    + destruct (update_one_alive_stays getTerrainHeight random delta
                  playerPos m e1 Halive) as (m' & e' & Hrun & Hrest').
      rewrite Hrun in Hone. simplify_eq.
      rewrite decide_False by (by intros [[? _] _]).
      destruct Hrest' as (_ & _ & _ & -> & _). done.
Qed.

(** ** How a call changes the registry *)

Lemma freeze_before_fields (now : R) (m : monster) :
  state (freeze_before now m) = state m
  /\ hp (freeze_before now m) = hp m
  /\ isBoss (freeze_before now m) = isBoss m
  /\ deathTime (freeze_before now m) = deathTime m
  /\ position (freeze_before now m) = position m
  /\ attackCooldown (freeze_before now m) = attackCooldown m
  /\ slowUntil (freeze_before now m) = slowUntil m
  /\ mtype (freeze_before now m) = mtype m.
Proof.
  unfold freeze_before.
  destruct (isFrozen now m), (frozen m) eqn:Hf; simpl; rewrite ?Hf;
    repeat split; reflexivity.
Qed.

Lemma freeze_after_fields (m : monster) :
  state (freeze_after m) = state m
  /\ hp (freeze_after m) = hp m
  /\ isBoss (freeze_after m) = isBoss m
  /\ deathTime (freeze_after m) = deathTime m
  /\ attackCooldown (freeze_after m) = attackCooldown m
  /\ slowUntil (freeze_after m) = slowUntil m
  /\ frozen (freeze_after m) = frozen m
  /\ frozenPos (freeze_after m) = frozenPos m.
Proof.
  unfold freeze_after.
  destruct (frozen m) eqn:Hf, (frozenPos m) as [[x z]|] eqn:Hp;
    simpl; rewrite ?Hf, ?Hp; repeat split; reflexivity.
Qed.

Lemma wrapped_update_cons (getTerrainHeight : R -> R -> R)
    (random : nat -> R) (now delta : R) (playerPos : vec3) (m : monster)
    (ms : list monster) (e : env) :
  wrapped_update getTerrainHeight random now delta playerPos (m :: ms) e
  = let '(rest', e1) :=
      wrapped_update getTerrainHeight random now delta playerPos ms e in
    let '(om, e2) :=
      frame_one getTerrainHeight random now delta playerPos m e1 in
    (match om with Some m' => m' :: rest' | None => rest' end, e2).
Proof.
  unfold wrapped_update, frame_one. simpl.
  destruct (update _ _ _ _ (map _ ms) e) as [rest' e1].
  destruct (update_one _ _ _ _ (freeze_before now m) e1) as [[m'|] e2]; done.
Qed.

Lemma frame_one_removed (getTerrainHeight : R -> R -> R) (random : nat -> R)
    (now delta : R) (playerPos : vec3) (m : monster) (e e' : env) :
  frame_one getTerrainHeight random now delta playerPos m e = (None, e') ->
  state m = dead.
Proof.
  unfold frame_one. intros Hrun.
  destruct (decide (state m = dead)) as [|Halive]; [done|exfalso].
  destruct (update_one_alive_stays getTerrainHeight random delta playerPos
              (freeze_before now m) e) as (m' & e1 & Heq & _).
  { by destruct (freeze_before_fields now m) as (-> & _). }
  by rewrite Heq in Hrun.
Qed.

Lemma hit_detection_length (now : R) (p : projectile) (ms : list monster) :
  length (fst (hit_detection now p ms)) = length ms.
Proof.
  induction ms as [|m ms IH]; simpl; [done|].
  destruct (hit_detection now p ms) as [rest' hit]. simpl in IH.
  repeat case_decide; simpl; by rewrite ?IH.
Qed.

Section Carried.

Variable rel : monster -> monster -> Prop.
Variable ok : R -> Prop.

Hypothesis rel_refl : forall m, rel m m.
Hypothesis rel_trans : forall a b c, rel a b -> rel b c -> rel a c.
Hypothesis rel_attack : forall playerPos playerAngle range damage m,
  ok damage -> rel m (fst (attack_one playerPos playerAngle range damage m)).
Hypothesis rel_check : forall playerPos m,
  rel m (fst (check_one playerPos m)).
Hypothesis rel_spell_hit : forall now dmg slow m,
  state m <> dead -> ok dmg -> rel m (spell_hit now dmg slow m).
Hypothesis rel_frame : forall getTerrainHeight random now delta playerPos
    m e m' e',
  frame_one getTerrainHeight random now delta playerPos m e = (Some m', e')
  -> rel m m'.

Lemma carried_Forall2 (l l' : list monster) :
  Forall2 rel l l' -> carried rel l l'.
Proof.
  induction 1; [by apply carried_spawned|by apply carried_kept].
Qed.

Lemma Forall2_rel_refl (l : list monster) : Forall2 rel l l.
Proof. induction l; by constructor. Qed.

Lemma Forall2_rel_map (f : monster -> monster) (l : list monster) :
  (forall m, rel m (f m)) -> Forall2 rel l (map f l).
Proof. intros Hf. induction l; simpl; by constructor. Qed.

Lemma carried_append (l news : list monster) :
  Forall newly_spawned news -> carried rel l (l ++ news).
Proof.
  intros Hnew. induction l; simpl;
    [by apply carried_spawned|by apply carried_kept].
Qed.

Lemma hit_detection_rel (now : R) (p : projectile) (ms : list monster) :
  ok (damage p) -> Forall2 rel ms (fst (hit_detection now p ms)).
Proof.
  intros Hok. induction ms as [|m ms IH]; simpl; [constructor|].
  destruct (hit_detection now p ms) as [rest' hit]. simpl in IH.
  repeat case_decide; simpl; constructor; auto using Forall2_rel_refl.
Qed.

Lemma update_projectiles_rel (delta now : R) (ps : list projectile)
    (ms : list monster) (es : list effect) :
  Forall (fun p => ok (damage p)) ps ->
  Forall2 rel ms (snd (fst (update_projectiles delta now ps ms es))).
Proof.
  intros Hok. revert ms es.
  induction Hok as [|p ps Hp Hps IH]; intros ms es; simpl.
  - apply Forall2_rel_refl.
  - specialize (IH ms es).
    destruct (update_projectiles delta now ps ms es) as [[rest' ms1] es1].
    simpl in IH. unfold update_projectile.
    pose proof (hit_detection_rel now (advance delta p) ms1 Hp) as Hhit.
    destruct (hit_detection now (advance delta p) ms1) as [ms2 hit].
    simpl in Hhit.
    assert (Forall2 rel ms ms2) as Hall.
    { pose proof (rel_trans : Transitive rel). by etrans. }
    case_decide; simpl; exact Hall.
Qed.

Lemma nova_rel (casterPos : vec3) (s : spell) (now : R)
    (ms : list monster) :
  ok (spell_damage s) -> Forall2 rel ms (map (nova_one casterPos s now) ms).
Proof.
  intros Hok. apply Forall2_rel_map. intros m. unfold nova_one.
  repeat case_decide; auto.
Qed.

Lemma wrapped_update_carried (getTerrainHeight : R -> R -> R)
    (random : nat -> R) (now delta : R) (playerPos : vec3)
    (ms : list monster) (e : env) :
  carried rel ms
    (fst (wrapped_update getTerrainHeight random now delta playerPos ms e)).
Proof.
  induction ms as [|m ms IH].
  - apply carried_spawned. unfold wrapped_update. simpl. constructor.
  - rewrite wrapped_update_cons.
    destruct (wrapped_update _ _ _ _ _ ms e) as [rest' e1]. simpl in IH.
    destruct (frame_one getTerrainHeight random now delta playerPos m e1)
      as [[m'|] e2] eqn:Hone; simpl.
    + apply carried_kept; [by eapply rel_frame|done].
    + apply carried_removed; [by eapply frame_one_removed|done].
Qed.

(** Every call carries the registry over. *)
Lemma step_carried (getTerrainHeight : R -> R -> R) (random : nat -> R)
    (c : call) (w w' : world) :
  damages_in ok w -> call_damage_in ok c ->
  step getTerrainHeight random c w = Some w' ->
  carried rel (monsters w) (monsters w').
Proof.
  intros [Hspells Hprojs] Hcall Hstep. destruct c; simpl in *.
  - pose proof (wrapped_update_carried getTerrainHeight random now delta
                  playerPos (monsters w) (sim w)) as Hc.
    destruct (wrapped_update _ _ _ _ _ _ _) as [ms e]. by simplify_eq.
  - unfold checkPlayerDamage in Hstep. rewrite check_loop_spec in Hstep.
    simplify_eq. simpl. by apply carried_Forall2, Forall2_rel_map.
  - rewrite attackMonstersInRange_spec in Hstep. simplify_eq. simpl.
    apply carried_Forall2, Forall2_rel_map. auto.
  - simplify_eq. unfold castSpell.
    destruct (spells w !! name) as [s|] eqn:Hs; simpl.
    + repeat case_decide; simpl;
        try apply carried_Forall2, Forall2_rel_refl.
      apply carried_Forall2, nova_rel. simpl. by eapply Hspells.
    + destruct (inherited name); [case_decide|]; simpl;
        apply carried_Forall2, Forall2_rel_refl.
  - simplify_eq. unfold spell_update.
    destruct (proto_currentCd w);
      [apply carried_Forall2, Forall2_rel_refl|].
    pose proof (update_projectiles_rel delta now (projectiles w)
                  (monsters w) (effects w) Hprojs) as Hc.
    destruct (update_projectiles _ _ _ _ _) as [[ps ms] es]. simpl in *.
    by apply carried_Forall2.
  - destruct (timers (sim w)) as [|t pending]; [done|].
    destruct (spawnMonster _ _ _ _ _) as [[ms k]|] eqn:Hspawn; [|done].
    simplify_eq. simpl.
    apply spawnMonster_appends in Hspawn as (m & -> & Hm).
    by apply carried_append, Forall_singleton.
Qed.

End Carried.

Lemma carried_Forall (P : monster -> Prop) (l l' : list monster) :
  carried (fun m m' => P m -> P m') l l' ->
  (forall m, newly_spawned m -> P m) ->
  Forall P l -> Forall P l'.
Proof.
  intros Hc Hnew. induction Hc as [news Hn|m m' l l' Hm Hc IH|m l l' Hd Hc IH];
    intros Hl.
  - eapply Forall_impl; [exact Hn|done].
  - apply Forall_cons in Hl as [? ?]. constructor; auto.
  - apply Forall_cons in Hl as [? ?]. auto.
Qed.

Lemma attack_one_dead (playerPos : vec3) (playerAngle range damage : R)
    (m : monster) :
  state m = dead -> attack_one playerPos playerAngle range damage m = (m, false).
Proof. intros Hd. unfold attack_one. by rewrite decide_True. Qed.

Lemma attack_one_state (playerPos : vec3) (playerAngle range damage : R)
    (m : monster) :
  let m' := fst (attack_one playerPos playerAngle range damage m) in
  isBoss m' = isBoss m /\ attackCooldown m' = attackCooldown m
  /\ frozen m' = frozen m /\ frozenPos m' = frozenPos m
  /\ (state m' = state m \/ state m' = dead /\ hp m' = 0 /\ deathTime m' = 0)
  /\ (state m' = dead \/ hp m' = hp m \/ 0 < hp m').
Proof.
  unfold attack_one, die_if_depleted, move_xz.
  repeat case_decide; simpl in *; repeat split; auto; right; right; lra.
Qed.

Lemma spell_hit_state (now dmg slow : R) (m : monster) :
  let m' := spell_hit now dmg slow m in
  isBoss m' = isBoss m /\ attackCooldown m' = attackCooldown m
  /\ frozen m' = frozen m /\ frozenPos m' = frozenPos m
  /\ position m' = position m
  /\ hp m' = hp_after dmg m
  /\ (hp m - dmg <= 0 -> state m' = dead /\ deathTime m' = 0)
  /\ (0 < hp m - dmg -> state m' = state m).
Proof.
  unfold spell_hit, die_if_depleted, hp_after.
  repeat case_decide; simpl in *; repeat split; auto; lra.
Qed.

Lemma check_one_state (playerPos : vec3) (m : monster) :
  let m' := fst (check_one playerPos m) in
  isBoss m' = isBoss m /\ state m' = state m /\ hp m' = hp m
  /\ frozen m' = frozen m /\ frozenPos m' = frozenPos m
  /\ position m' = position m
  /\ (attackCooldown m' = attackCooldown m \/ attackCooldown m' = 1.5).
Proof.
  unfold check_one, ATTACK_COOLDOWN.
  repeat case_decide; simpl; repeat split; auto.
Qed.

Lemma frame_one_kept (getTerrainHeight : R -> R -> R) (random : nat -> R)
    (now delta : R) (playerPos : vec3) (m : monster) (e : env) (m' : monster)
    (e' : env) :
  frame_one getTerrainHeight random now delta playerPos m e = (Some m', e') ->
  hp m' = hp m /\ isBoss m' = isBoss m
  /\ (state m = dead -> state m' = dead
      /\ deathTime m' = deathTime m + delta
      /\ attackCooldown m' = attackCooldown m)
  /\ (state m <> dead -> state m' <> dead
      /\ attackCooldown m' = Rmax 0 (attackCooldown m - delta)).
Proof.
  unfold frame_one. intros Hrun.
  destruct (freeze_before_fields now m)
    as (Hst & Hhp & Hboss & Hdt & _ & Hcd & _).
  destruct (decide (state m = dead)) as [Hdead|Halive].
  - rewrite update_one_dead in Hrun by by rewrite Hst.
    case_decide; [done|]. cbn [fmap option_fmap option_map] in Hrun.
    simplify_eq.
    match goal with
    | |- context [freeze_after ?x] =>
        destruct (freeze_after_fields x) as (-> & -> & -> & -> & -> & _)
    end.
    simpl. rewrite Hst, Hhp, Hboss, Hdt, Hcd. done.
  - destruct (update_one_alive_stays getTerrainHeight random delta playerPos
                (freeze_before now m) e) as (m1 & e1 & Heq & Hm1).
    { by rewrite Hst. }
    rewrite Heq in Hrun. cbn [fmap option_fmap option_map] in Hrun.
    simplify_eq.
    destruct Hm1 as (Hs1 & Hhp1 & Hb1 & _ & _ & _ & _ & Hcd1).
    destruct (freeze_after_fields m1) as (-> & -> & -> & _ & -> & _).
    rewrite Hhp1, Hb1, Hcd1, Hhp, Hboss, Hcd. done.
Qed.

(** Every call leaves dead monsters dead, whatever its arguments. *)
Lemma step_never_revives (getTerrainHeight : R -> R -> R) (random : nat -> R)
    (c : call) (w w' : world) :
  step getTerrainHeight random c w = Some w' ->
  carried (fun m m' => isBoss m' = isBoss m
                       /\ (state m = dead -> state m' = dead))
    (monsters w) (monsters w').
Proof.
  apply step_carried with (ok := fun _ => True); try done.
  - intros a b c0 [Hb1 Hd1] [Hb2 Hd2]. split; [congruence|auto].
  - intros pp pa r d m _.
    destruct (attack_one_state pp pa r d m) as (-> & _ & _ & _ & Hs & _).
    split; [done|]. intros Hd. destruct Hs as [->|[-> _]]; done.
  - intros pp m. by destruct (check_one_state pp m) as (-> & -> & _).
  - intros now dmg slow m Halive _.
    by destruct (spell_hit_state now dmg slow m) as (-> & _).
  - intros gT rnd now delta pp m e m' e' Hrun.
    apply frame_one_kept in Hrun as (_ & -> & Hd & _). split; [done|].
    intros Hdead. by apply Hd.
  - split; apply map_Forall_lookup_2 || apply Forall_true; done.
  - by destruct c.
Qed.

Lemma attack_one_ok (playerPos : vec3) (playerAngle range damage : R)
    (m : monster) :
  monster_ok m ->
  monster_ok (fst (attack_one playerPos playerAngle range damage m)).
Proof.
  unfold monster_ok. intros [Hhp Hcd].
  destruct (attack_one_state playerPos playerAngle range damage m)
    as (_ & -> & _ & _ & Hs & Hh). split; [|done].
  intros Halive. destruct Hs as [Hs|[? _]]; [|done].
  destruct Hh as [?|[->|?]]; [done|apply Hhp; by rewrite <- Hs|done].
Qed.

Lemma check_one_ok (playerPos : vec3) (m : monster) :
  monster_ok m -> monster_ok (fst (check_one playerPos m)).
Proof.
  unfold monster_ok. intros [Hhp Hcd].
  destruct (check_one_state playerPos m) as (_ & -> & -> & _ & _ & _ & Hc).
  split; [done|]. destruct Hc as [->| ->]; lra.
Qed.

Lemma spell_hit_ok (now dmg slow : R) (m : monster) :
  monster_ok m -> monster_ok (spell_hit now dmg slow m).
Proof.
  unfold monster_ok. intros [Hhp Hcd].
  destruct (spell_hit_state now dmg slow m)
    as (_ & -> & _ & _ & _ & Hh & Hk & Hl). split; [|done].
  intros Hlive. destruct (decide (hp m - dmg <= 0)) as [Hz|Hz].
  - by destruct (Hk Hz).
  - rewrite Hh. unfold hp_after. rewrite decide_False by done. lra.
Qed.

Lemma frame_one_ok (getTerrainHeight : R -> R -> R) (random : nat -> R)
    (now delta : R) (playerPos : vec3) (m : monster) (e : env) (m' : monster)
    (e' : env) :
  frame_one getTerrainHeight random now delta playerPos m e = (Some m', e') ->
  monster_ok m -> monster_ok m'.
Proof.
  unfold monster_ok. intros Hrun [Hhp Hcd].
  apply frame_one_kept in Hrun as (-> & _ & Hd & Ha).
  destruct (decide (state m = dead)) as [Hdead|Halive].
  - destruct (Hd Hdead) as (Hs & _ & ->). split; done.
  - destruct (Ha Halive) as (Hs & ->). split; [auto|apply Rmax_l].
Qed.

(** Every call keeps the state invariant of the monsters. *)
Lemma step_monster_ok (getTerrainHeight : R -> R -> R) (random : nat -> R)
    (c : call) (w w' : world) :
  step getTerrainHeight random c w = Some w' ->
  Forall monster_ok (monsters w) -> Forall monster_ok (monsters w').
Proof.
  intros Hstep. apply carried_Forall.
  - revert Hstep. apply step_carried with (ok := fun _ => True).
    + done.
    + auto.
    + intros; by apply attack_one_ok.
    + intros; by apply check_one_ok.
    + intros; by apply spell_hit_ok.
    + intros; by eapply frame_one_ok.
    + split; apply map_Forall_lookup_2 || apply Forall_true; done.
    + by destruct c.
  - apply newly_spawned_ok.
Qed.

Lemma carried_impl (rel rel' : monster -> monster -> Prop)
    (l l' : list monster) :
  (forall m m', rel m m' -> rel' m m') -> carried rel l l' -> carried rel' l l'.
Proof.
  intros Himpl. induction 1;
    [by apply carried_spawned|apply carried_kept; auto
    |by apply carried_removed].
Qed.

Lemma carried_strengthen (P : monster -> Prop)
    (rel : monster -> monster -> Prop) (l l' : list monster) :
  carried (fun m m' => P m -> rel m m') l l' -> Forall P l -> carried rel l l'.
Proof.
  induction 1 as [news Hn|m m' l l' Hm Hc IH|m l l' Hd Hc IH]; intros Hl.
  - by apply carried_spawned.
  - apply Forall_cons in Hl as [? ?]. apply carried_kept; auto.
  - apply Forall_cons in Hl as [? ?]. apply carried_removed; auto.
Qed.

(** With no negative damage, every call keeps the hp of a monster from
    growing. *)
Lemma step_hp_kept (getTerrainHeight : R -> R -> R) (random : nat -> R)
    (c : call) (w w' : world) :
  damages_in (Rle 0) w -> call_damage_in (Rle 0) c ->
  Forall monster_ok (monsters w) ->
  step getTerrainHeight random c w = Some w' ->
  carried hp_kept (monsters w) (monsters w').
Proof.
  intros Hdam Hcall Hok Hstep.
  apply carried_impl with (rel := fun m m' => monster_ok m' /\ hp_kept m m');
    [by intros m m' [_ ?]|].
  apply carried_strengthen with (P := monster_ok); [|done].
  revert Hdam Hcall Hstep.
  apply step_carried with
    (rel := fun m m' => monster_ok m -> monster_ok m' /\ hp_kept m m');
    unfold hp_kept.
  - intros m Hm. split; [done|]. split; [done|lra].
  - intros a b c0 Hab Hbc Ha.
    destruct (Hab Ha) as (Hb & Hd1 & Ha1).
    destruct (Hbc Hb) as (Hc & Hd2 & Ha2). split; [done|]. split.
    + intros Hd. destruct (Hd1 Hd) as [Hbd Hhb].
      destruct (Hd2 Hbd) as [Hcd Hhc]. split; [done|congruence].
    + intros Hlive. specialize (Ha1 Hlive).
      destruct (decide (state b = dead)) as [Hbd|Hbl].
      * destruct (Hd2 Hbd) as [_ ->]. done.
      * specialize (Ha2 Hbl). lra.
  - intros pp pa r d m Hd Hm. split; [by apply attack_one_ok|]. split.
    + intros Hdead. by rewrite attack_one_dead.
    + intros Hlive. destruct Hm as [Hhp _]. specialize (Hhp Hlive).
      unfold attack_one, die_if_depleted, move_xz.
      repeat case_decide; simpl in *; lra.
  - intros pp m Hm. split; [by apply check_one_ok|].
    destruct (check_one_state pp m) as (_ & -> & -> & _).
    split; [done|lra].
  - intros now dmg slow m Halive Hd Hm. split; [by apply spell_hit_ok|].
    split; [done|]. intros _. destruct Hm as [Hhp _]. specialize (Hhp Halive).
    destruct (spell_hit_state now dmg slow m) as (_ & _ & _ & _ & _ & -> & _).
    unfold hp_after. case_decide; lra.
  - intros gT rnd now delta pp m e m' e' Hrun Hm.
    split; [by eapply frame_one_ok|].
    apply frame_one_kept in Hrun as (-> & _ & Hd & _). split; [|lra].
    intros Hdead. split; [by apply Hd|done].
Qed.

(** ** Projectiles *)

Lemma hit_detection_spec (now : R) (p : projectile) (ms : list monster) :
  let '(ms', hit) := hit_detection now p ms in
  if hit then
    exists pre m post,
      ms = pre ++ m :: post
      /\ Forall (fun x => ~ within_hit p x) pre
      /\ within_hit p m
      /\ ms' = pre ++ spell_hit now (damage p) (slowDuration p) m :: post
  else ms' = ms /\ Forall (fun x => ~ within_hit p x) ms.
Proof.
  induction ms as [|m ms IH]; simpl; [done|].
  destruct (hit_detection now p ms) as [rest' hit].
  assert (forall x, state x = dead \/
                    ~ planar (px x - vx (p_position p))
                        (pz x - vz (p_position p)) < hit_radius x ->
                    ~ within_hit p x) as Hout.
  { intros x [Hd|Hfar] [Hs Hnear]; done. }
  destruct (decide (state m = dead)) as [Hd|Halive].
  - destruct hit.
    + destruct IH as (pre & m0 & post & -> & Hpre & Hm0 & ->).
      exists (m :: pre), m0, post.
      split; [done|]. split; [constructor; auto|]. by split.
    + destruct IH as [-> Hall]. split; [done|]. constructor; auto.
  - fold (hit_radius m). case_decide as Hnear.
    + exists [], m, ms. split; [done|]. split; [constructor|]. by split.
    + destruct hit.
      * destruct IH as (pre & m0 & post & -> & Hpre & Hm0 & ->).
        exists (m :: pre), m0, post.
        split; [done|]. split; [constructor; auto|]. by split.
      * destruct IH as [-> Hall]. split; [done|]. constructor; auto.
Qed.

Lemma update_projectiles_damage (ok : R -> Prop) (delta now : R)
    (ps : list projectile) (ms : list monster) (es : list effect) :
  Forall (fun p => ok (damage p)) ps ->
  Forall (fun p => ok (damage p))
    (fst (fst (update_projectiles delta now ps ms es))).
Proof.
  induction 1 as [|p ps Hp Hps IH]; simpl; [done|].
  destruct (update_projectiles delta now ps ms es) as [[rest' ms1] es1].
  simpl in IH. unfold update_projectile.
  destruct (hit_detection now (advance delta p) ms1) as [ms2 hit].
  case_decide; simpl; [done|]. by constructor.
Qed.

(** The projectiles left by an update are projectiles of before, moved, that
    are still within their range. *)
Lemma update_projectiles_survivors (delta now : R) (ps : list projectile)
    (ms : list monster) (es : list effect) :
  Forall (fun p' => exists p, p ∈ ps /\ p' = advance delta p
                              /\ ~ traveled p' > range p')
    (fst (fst (update_projectiles delta now ps ms es))).
Proof.
  induction ps as [|p ps IH]; simpl; [done|].
  destruct (update_projectiles delta now ps ms es) as [[rest' ms1] es1].
  simpl in IH.
  assert (Forall (fun p' => exists p0, p0 ∈ p :: ps /\ p' = advance delta p0
                                       /\ ~ traveled p' > range p') rest')
    as Hrest.
  { eapply Forall_impl; [exact IH|]. intros p' (p0 & Hin & Heq & Hr).
    exists p0. split; [by right|done]. }
  unfold update_projectile.
  destruct (hit_detection now (advance delta p) ms1) as [ms2 hit].
  case_decide as Hc; simpl; [done|]. constructor; [|done].
  exists p. split; [by left|]. split; [done|]. intros Hfar. apply Hc. by right.
Qed.

(** The hit test comes before the range test: a projectile that has gone
    beyond its range in this update still hits the monster it reaches. *)
Lemma hit_test_precedes_range_test (delta now : R) (p : projectile)
    (m : monster) (es : list effect) :
  within_hit (advance delta p) m ->
  update_projectile delta now p [m] es
  = (None, [spell_hit now (damage p) (slowDuration p) m], spawnImpact es).
Proof.
  intros [Halive Hnear]. unfold update_projectile. simpl.
  rewrite decide_False by done. fold (hit_radius m).
  rewrite decide_True by done. by rewrite decide_True by auto.
Qed.


Lemma spell_update_spells (delta now : R) (w : world) :
  spells (spell_update delta now w) = decay_cooldown delta <$> spells w.
Proof.
  unfold spell_update. destruct (proto_currentCd w); [done|].
  by destruct (update_projectiles _ _ _ _ _) as [[ps ms] es].
Qed.


(** ** Invariants of the reachable states *)

Lemma step_damages (ok : R -> Prop) (getTerrainHeight : R -> R -> R)
    (random : nat -> R) (c : call) (w w' : world) :
  damages_in ok w -> step getTerrainHeight random c w = Some w' ->
  damages_in ok w'.
Proof.
  intros [Hspells Hprojs] Hstep. destruct c; simpl in Hstep.
  - destruct (wrapped_update _ _ _ _ _ _ _). by simplify_eq.
  - destruct (checkPlayerDamage _ _). by simplify_eq.
  - destruct (attackMonstersInRange _ _ _ _ _). by simplify_eq.
  - simplify_eq. unfold castSpell.
    destruct (spells w !! name) as [s|] eqn:Hs; simpl;
      [|by destruct (inherited name); [case_decide|]].
    pose proof (Hspells _ _ Hs) as Hok. simpl in Hok.
    assert (map_Forall (fun _ s0 => ok (spell_damage s0))
              (<[name := set_currentCd (cooldown s) s]> (spells w))) as Hins.
    { by apply map_Forall_insert_2. }
    repeat case_decide; simpl; split; simpl; try done.
    unfold spawnFrostbolt. apply Forall_app. split; [done|].
    by apply Forall_singleton.
  - simplify_eq. unfold spell_update.
    pose proof (update_projectiles_damage ok delta now (projectiles w)
                  (monsters w) (effects w) Hprojs) as Hps.
    assert (map_Forall (fun _ s => ok (spell_damage s))
              (decay_cooldown delta <$> spells w)) as Hsp.
    { apply map_Forall_fmap. by eapply map_Forall_impl. }
    destruct (proto_currentCd w); [by split|].
    by destruct (update_projectiles _ _ _ _ _) as [[ps ms] es].
  - destruct (timers (sim w)); [done|].
    destruct (spawnMonster _ _ _ _ _) as [[ms k]|]; by simplify_eq.
Qed.

Lemma spawn_n_Forall (P : monster -> Prop) (getTerrainHeight : R -> R -> R)
    (random : nat -> R) (fuel n : nat) (ms : list monster) (k : nat)
    (ms' : list monster) (k' : nat) :
  (forall m, newly_spawned m -> P m) ->
  Forall P ms ->
  spawn_n getTerrainHeight random fuel n ms k = Some (ms', k') ->
  Forall P ms'.
Proof.
  intros Hnew. revert ms k. induction n as [|n IH]; intros ms k Hok; simpl.
  - by intros [= <- <-].
  - destruct (spawnMonster _ _ _ _ _) as [[ms1 k1]|] eqn:Hspawn; [|done].
    apply IH. apply spawnMonster_appends in Hspawn as (m & -> & Hm).
    apply Forall_app. split; [done|]. apply Forall_singleton. auto.
Qed.

Lemma initial_world_ok (getTerrainHeight : R -> R -> R) (random : nat -> R)
    (fuel k : nat) (w : world) :
  initial_world getTerrainHeight random fuel k = Some w ->
  Forall monster_ok (monsters w) /\ damages_in (Rle 0) w.
Proof.
  unfold initial_world, createMonsterSystem.
  destruct (spawn_n _ _ _ _ _ _) as [[ms k']|] eqn:Hspawn; [|done].
  intros [= <-]. simpl. split.
  - unfold spawnBoss. apply Forall_app. split.
    + eapply spawn_n_Forall; [apply newly_spawned_ok| |exact Hspawn].
      constructor.
    + apply Forall_singleton. split; simpl; intros; lra.
  - split; simpl; [|constructor]. unfold initial_spells.
    apply map_Forall_insert_2; [simpl; lra|].
    apply map_Forall_insert_2; [simpl; lra|]. apply map_Forall_empty.
Qed.

Lemma reachable_invariants (getTerrainHeight : R -> R -> R)
    (random : nat -> R) (w : world) :
  reachable getTerrainHeight random w ->
  Forall monster_ok (monsters w) /\ damages_in (Rle 0) w.
Proof.
  induction 1 as [fuel k w Hinit|c w w' Hreach [IHm IHd] Hstep].
  - by eapply initial_world_ok.
  - split; [by eapply step_monster_ok|by eapply step_damages].
Qed.

(** The cooldown that [checkPlayerDamage] compares with 0 is never
    negative. *)
Lemma attackCooldown_never_negative (getTerrainHeight : R -> R -> R)
    (random : nat -> R) (w : world) :
  reachable getTerrainHeight random w ->
  Forall (fun m => 0 <= attackCooldown m) (monsters w).
Proof.
  intros Hreach. apply reachable_invariants in Hreach as [Hok _].
  eapply Forall_impl; [exact Hok|]. by intros m [_ ?].
Qed.

(** ** Lethal damage *)

Lemma hit_detection_changes (now : R) (p : projectile) (ms : list monster) :
  Forall2
    (fun m m' =>
       m' = m
       \/ (state m <> dead
           /\ m' = spell_hit now (damage p) (slowDuration p) m))
    ms (fst (hit_detection now p ms)).
Proof.
  pose proof (hit_detection_spec now p ms) as Hspec.
  destruct (hit_detection now p ms) as [ms' [|]]; simpl.
  - destruct Hspec as (pre & m & post & -> & _ & [Hm _] & ->).
    apply Forall2_app; [|constructor; [by right|]];
      apply Forall2_same_length_lookup_2; try done;
      intros i x y Hx Hy; left; congruence.
  - destruct Hspec as [-> _].
    apply Forall2_same_length_lookup_2; [done|].
    intros i x y Hx Hy. left. congruence.
Qed.

(** C1.  (1) A melee hit, (2) a spell hit, which is what (3) the hit
    detection of a projectile and (4) the burst of a frost nova apply to the
    monsters they reach, that brings the hp to 0 or below leaves the monster
    with hp 0, in state dead, with deathTime 0, within the same call.
    (5) From any reachable state, a call that deals no negative damage
    carries every monster over with an hp that has not grown (a dead monster
    stays dead with its hp).  (6) In every reachable state a monster that is
    not dead has a positive hp. *)
Theorem lethal_damage_kills_at_once (getTerrainHeight : R -> R -> R)
    (random : nat -> R) :
  (forall playerPos playerAngle range damage m,
     snd (attack_one playerPos playerAngle range damage m) = true ->
     hp m - damage <= 0 ->
     let m' := fst (attack_one playerPos playerAngle range damage m) in
     hp m' = 0 /\ state m' = dead /\ deathTime m' = 0)
  /\ (forall now dmg slow m,
        hp m - dmg <= 0 ->
        let m' := spell_hit now dmg slow m in
        hp m' = 0 /\ state m' = dead /\ deathTime m' = 0)
  /\ (forall now p ms,
        Forall2
          (fun m m' =>
             m' = m
             \/ (state m <> dead
                 /\ m' = spell_hit now (damage p) (slowDuration p) m))
          ms (fst (hit_detection now p ms)))
  /\ (forall casterPos s now m,
        nova_one casterPos s now m = m
        \/ (state m <> dead
            /\ nova_one casterPos s now m
               = spell_hit now (spell_damage s) (spell_slowDuration s) m))
  /\ (forall w c w',
        reachable getTerrainHeight random w ->
        call_damage_in (Rle 0) c ->
        step getTerrainHeight random c w = Some w' ->
        carried hp_kept (monsters w) (monsters w'))
  /\ (forall w,
        reachable getTerrainHeight random w ->
        Forall (fun m => state m <> dead -> 0 < hp m) (monsters w)).
Proof.
  split; [|split; [|split; [|split; [|split]]]].
  - intros pp pa r d m. unfold attack_one, die_if_depleted, move_xz.
    repeat case_decide; simpl in *; intros; try done; lra.
  - intros now dmg slow m Hz.
    destruct (spell_hit_state now dmg slow m)
      as (_ & _ & _ & _ & _ & Hh & Hk & _).
    destruct (Hk Hz) as [Hs Hd]. simpl. rewrite Hh. unfold hp_after.
    by rewrite decide_True.
  - apply hit_detection_changes.
  - intros pos s now m. unfold nova_one. repeat case_decide; auto.
  - intros w c w' Hreach Hcall Hstep.
    apply reachable_invariants in Hreach as [Hok Hdam].
    by eapply step_hp_kept.
  - intros w Hreach. apply reachable_invariants in Hreach as [Hok _].
    eapply Forall_impl; [exact Hok|]. by intros m [? _].
Qed.

(** ** The life of a dead monster *)

Lemma freeze_before_dead (now : R) (m : monster) :
  state m = dead ->
  freeze_before now m = set_frozenPos None (set_frozen false m)
  \/ freeze_before now m = set_frozenPos None m.
Proof.
  intros Hd. unfold freeze_before, isFrozen. rewrite Hd.
  destruct (slowUntil m) as [t|], (frozen m) eqn:Hf; simpl;
    rewrite ?andb_false_r; simpl; rewrite ?Hf; auto.
Qed.

Lemma frame_one_dead (getTerrainHeight : R -> R -> R) (random : nat -> R)
    (now delta : R) (playerPos : vec3) (m : monster) (e : env) :
  state m = dead ->
  (deathTime m + delta > removeTime m ->
   frame_one getTerrainHeight random now delta playerPos m e
   = (None, if isBoss m then e else setTimeout RunSpawnMonster 5000 e))
  /\ (~ deathTime m + delta > removeTime m ->
      exists m',
        frame_one getTerrainHeight random now delta playerPos m e
        = (Some m', e)
        /\ state m' = dead /\ deathTime m' = deathTime m + delta
        /\ isBoss m' = isBoss m /\ hp m' = hp m).
Proof.
  intros Hd.
  destruct (freeze_before_fields now m)
    as (Hst & Hhp & Hboss & Hdt & _ & _ & _ & _).
  assert (removeTime (freeze_before now m) = removeTime m) as Hrt
    by (unfold removeTime; by rewrite Hboss).
  split; intros Hexp.
  - unfold frame_one. rewrite update_one_dead by congruence.
    rewrite Hdt, Hrt, Hboss, decide_True by done. done.
  - destruct (frame_one getTerrainHeight random now delta playerPos m e)
      as [om e'] eqn:Hrun.
    assert (e' = e /\ om <> None) as [-> Hsome].
    { revert Hrun. unfold frame_one. rewrite update_one_dead by congruence.
      rewrite Hdt, Hrt, decide_False by done. by intros [= <- <-]. }
    destruct om as [m'|]; [|done]. exists m'. split; [done|].
    apply frame_one_kept in Hrun as (-> & -> & Hk & _).
    destruct (Hk Hd) as (-> & -> & _). done.
Qed.

(** The monsters that [update] leaves in the registry are those that do not
    expire, in the same order. *)
Lemma update_survivors (getTerrainHeight : R -> R -> R) (random : nat -> R)
    (delta : R) (playerPos : vec3) (ms : list monster) (e : env) :
  Forall2
    (fun m m' => isBoss m' = isBoss m /\ hp m' = hp m
                 /\ (state m = dead <-> state m' = dead))
    (filter (fun m => ~ expires delta m) ms)
    (fst (update getTerrainHeight random delta playerPos ms e)).
Proof.
  induction ms as [|m ms IH]; simpl; [constructor|].
  destruct (update getTerrainHeight random delta playerPos ms e)
    as [rest' e1]. simpl in IH.
  destruct (update_one getTerrainHeight random delta playerPos m e1)
    as [om e2] eqn:Hone. simpl.
  rewrite filter_cons.
  destruct (decide (state m = dead)) as [Hdead|Halive].
  - rewrite update_one_dead in Hone by done.
    destruct (decide (deathTime m + delta > removeTime m)) as [Hexp|Hkeep];
      simplify_eq.
    + by rewrite decide_False by (intros Hn; by apply Hn).
    + rewrite decide_True by (by intros [_ ?]). by constructor.
  - destruct (update_one_alive_stays getTerrainHeight random delta playerPos
                m e1 Halive) as (m' & e' & Hrun & Hs & Hhp & Hb & _).
    rewrite Hrun in Hone. simplify_eq.
    rewrite decide_True by (by intros [? _]). by constructor.
Qed.

(** C6.  (1) The update of a dead monster adds [delta] to its deathTime and
    leaves it dead; when the deathTime so reached exceeds the threshold of
    its kind (4 for the boss, 1.5 otherwise) the monster is removed in that
    very update, and the removal of a normal monster schedules one
    [spawnMonster] 5000 ms later while the removal of the boss schedules
    nothing.  (2) The same holds under the freeze overlay.  (3) Over the
    whole registry, the monsters left are those that do not expire, and one
    timer is added per normal monster removed.  (4) No call makes a dead
    monster anything but dead.  (5) What [spawnMonster] adds is not a
    boss. *)
Theorem dead_monster_lifecycle (getTerrainHeight : R -> R -> R)
    (random : nat -> R) :
  (forall delta playerPos m e,
     state m = dead ->
     (deathTime m + delta > removeTime m ->
      update_one getTerrainHeight random delta playerPos m e
      = (None, if isBoss m then e else setTimeout RunSpawnMonster 5000 e))
     /\ (~ deathTime m + delta > removeTime m ->
         exists m',
           update_one getTerrainHeight random delta playerPos m e
           = (Some m', e)
           /\ state m' = dead /\ deathTime m' = deathTime m + delta
           /\ isBoss m' = isBoss m))
  /\ (forall now delta playerPos m e,
        state m = dead ->
        (deathTime m + delta > removeTime m ->
         frame_one getTerrainHeight random now delta playerPos m e
         = (None, if isBoss m then e else setTimeout RunSpawnMonster 5000 e))
        /\ (~ deathTime m + delta > removeTime m ->
            exists m',
              frame_one getTerrainHeight random now delta playerPos m e
              = (Some m', e)
              /\ state m' = dead /\ deathTime m' = deathTime m + delta
              /\ isBoss m' = isBoss m /\ hp m' = hp m))
  /\ (forall delta playerPos ms e,
        Forall2
          (fun m m' => isBoss m' = isBoss m /\ hp m' = hp m
                       /\ (state m = dead <-> state m' = dead))
          (filter (fun m => ~ expires delta m) ms)
          (fst (update getTerrainHeight random delta playerPos ms e))
        /\ timers (snd (update getTerrainHeight random delta playerPos ms e))
           = timers e
             ++ replicate
                  (length (filter (fun m => expires delta m
                                            /\ isBoss m = false) ms))
                  (Timer 5000 RunSpawnMonster))
  /\ (forall c w w',
        step getTerrainHeight random c w = Some w' ->
        carried (fun m m' => isBoss m' = isBoss m
                             /\ (state m = dead -> state m' = dead))
          (monsters w) (monsters w'))
  /\ (forall fuel ms k ms' k',
        spawnMonster getTerrainHeight random fuel ms k = Some (ms', k') ->
        exists m, ms' = ms ++ [m] /\ isBoss m = false).
Proof.
  split; [|split; [|split; [|split]]].
  - intros delta pp m e Hd. rewrite update_one_dead by done.
    split; intros Hexp.
    + by rewrite decide_True.
    + rewrite decide_False by done. eexists. split; [reflexivity|]. done.
  - intros now delta pp m e Hd. by apply frame_one_dead.
  - intros delta pp ms e. split; [apply update_survivors|apply update_timers].
  - intros c w w'. apply step_never_revives.
  - intros fuel ms k ms' k' Hspawn.
    apply spawnMonster_appends in Hspawn as (m & -> & Hb & _). by exists m.
Qed.

(** ** Casting *)

Lemma castSpell_accepted (name : string) (casterPos : vec3) (casterAngle : R)
    (casterPitch : option R) (now : R) (w : world) :
  snd (castSpell name casterPos casterAngle casterPitch now w)
  = match spells w !! name with
    | Some s => bool_decide (~ currentCd s > 0)
    | None => inherited name
    end.
Proof.
  unfold castSpell.
  destruct (spells w !! name) as [s|]; [|by destruct (inherited name)].
  case_decide.
  - by rewrite bool_decide_eq_false_2 by auto.
  - by rewrite bool_decide_eq_true_2.
Qed.

(** A cast of a name that is no key of [spells] touches nothing the two
    systems own. *)
Lemma castSpell_no_entry (name : string) (casterPos : vec3) (casterAngle : R)
    (casterPitch : option R) (now : R) (w : world) :
  spells w !! name = None ->
  let w' := fst (castSpell name casterPos casterAngle casterPitch now w) in
  monsters w' = monsters w /\ spells w' = spells w
  /\ projectiles w' = projectiles w /\ effects w' = effects w
  /\ sim w' = sim w
  /\ proto_currentCd w'
     = proto_currentCd w || bool_decide (name = "__proto__").
Proof.
  intros Hnone. unfold castSpell. rewrite Hnone.
  destruct (inherited name) eqn:Hin; simpl.
  - case_decide as Hname; simpl.
    + rewrite bool_decide_eq_true_2 by done. by rewrite orb_true_r.
    + rewrite bool_decide_eq_false_2 by done. by rewrite orb_false_r.
  - rewrite bool_decide_eq_false_2; [by rewrite orb_false_r|].
    intros ->. by vm_compute in Hin.
Qed.

Lemma castSpell_spells (name : string) (casterPos : vec3) (casterAngle : R)
    (casterPitch : option R) (now : R) (w : world) (s : spell) :
  spells w !! name = Some s -> ~ currentCd s > 0 ->
  spells (fst (castSpell name casterPos casterAngle casterPitch now w))
  = <[name := set_currentCd (cooldown s) s]> (spells w).
Proof.
  intros Hs Hcd. unfold castSpell. rewrite Hs, decide_False by done.
  repeat case_decide; done.
Qed.

(** C3.  The claim fails on the names that [spells] inherits.  For a name
    that is no key of [spells], [castSpell] returns [true] exactly when the
    name is one of [Object.prototype]; it spawns nothing and touches no
    monster and no spell.  So right after the spell system was created,
    [castSpell("constructor", ...)] returns [true], although
    [constructor] is no spell, and [canCast("constructor")] is false. *)
Theorem castSpell_accepts_inherited_names (name : string) (casterPos : vec3)
    (casterAngle : R) (casterPitch : option R) (now : R) (w : world)
    (ms : list monster) :
  (spells w !! name = None ->
   let w' := fst (castSpell name casterPos casterAngle casterPitch now w) in
   snd (castSpell name casterPos casterAngle casterPitch now w)
   = inherited name
   /\ monsters w' = monsters w /\ spells w' = spells w
   /\ projectiles w' = projectiles w /\ effects w' = effects w)
  /\ castSpell "constructor" casterPos casterAngle casterPitch now
       (fresh_world ms)
     = (fresh_world ms, true)
  /\ canCast "constructor" (fresh_world ms) = false.
Proof.
  split; [|split].
  - intros Hnone. cbv zeta. split.
    + by rewrite castSpell_accepted, Hnone.
    + by destruct (castSpell_no_entry name casterPos casterAngle casterPitch
                     now w Hnone) as (? & ? & ? & ? & _).
  - done.
  - done.
Qed.

(** X24.  [castSpell] returns [false] and leaves the whole state as it was
    when [name] is neither a key of [spells] nor a name inherited from
    [Object.prototype], and when the spell's currentCd is above 0.  For a
    key whose currentCd is not above 0 it returns [true], and the spell's
    currentCd has become its cooldown. *)
Theorem castSpell_rejects_without_effect (name : string) (casterPos : vec3)
    (casterAngle : R) (casterPitch : option R) (now : R) (w : world) :
  (spells w !! name = None -> inherited name = false ->
   castSpell name casterPos casterAngle casterPitch now w = (w, false))
  /\ (forall s, spells w !! name = Some s -> currentCd s > 0 ->
        castSpell name casterPos casterAngle casterPitch now w = (w, false))
  /\ (forall s, spells w !! name = Some s -> ~ currentCd s > 0 ->
        let w' := fst (castSpell name casterPos casterAngle casterPitch now w)
        in
        snd (castSpell name casterPos casterAngle casterPitch now w) = true
        /\ exists s', spells w' !! name = Some s'
                      /\ currentCd s' = cooldown s
                      /\ cooldown s' = cooldown s).
Proof.
  split; [|split].
  - intros Hnone Hown. unfold castSpell. by rewrite Hnone, Hown.
  - intros s Hs Hcd. unfold castSpell. by rewrite Hs, decide_True.
  - intros s Hs Hcd. simpl. split.
    + rewrite castSpell_accepted, Hs. by apply bool_decide_eq_true_2.
    + rewrite (castSpell_spells _ _ _ _ _ _ s) by done.
      exists (set_currentCd (cooldown s) s). by rewrite lookup_insert_eq.
Qed.

Lemma initial_spells_ok : spells_ok initial_spells.
Proof.
  unfold spells_ok, initial_spells. split.
  - exists frostbolt_spell. by rewrite lookup_insert_eq.
  - exists frostNova_spell.
    by rewrite lookup_insert_ne, lookup_insert_eq by done.
Qed.

Lemma spells_ok_insert (sp : gmap string spell) (name : string) (s : spell)
    (c : R) :
  sp !! name = Some s -> spells_ok sp ->
  spells_ok (<[name := set_currentCd c s]> sp).
Proof.
  intros Hs [(s1 & H1 & Hc1) (s2 & H2 & Hc2)]. split.
  - destruct (decide (name = "frostbolt")) as [->|Hne].
    + exists (set_currentCd c s). rewrite lookup_insert_eq.
      split; [done|]. simpl. congruence.
    + exists s1. by rewrite lookup_insert_ne.
  - destruct (decide (name = "frostNova")) as [->|Hne].
    + exists (set_currentCd c s). rewrite lookup_insert_eq.
      split; [done|]. simpl. congruence.
    + exists s2. by rewrite lookup_insert_ne.
Qed.

Lemma step_spells_ok (getTerrainHeight : R -> R -> R) (random : nat -> R)
    (c : call) (w w' : world) :
  spells_ok (spells w) -> step getTerrainHeight random c w = Some w' ->
  spells_ok (spells w').
Proof.
  intros Hok Hstep. destruct c; simpl in Hstep.
  - destruct (wrapped_update _ _ _ _ _ _ _). by simplify_eq.
  - destruct (checkPlayerDamage _ _). by simplify_eq.
  - destruct (attackMonstersInRange _ _ _ _ _). by simplify_eq.
  - simplify_eq.
    destruct (spells w !! name) as [s|] eqn:Hs.
    2: { by destruct (castSpell_no_entry name casterPos casterAngle
                        casterPitch now w Hs) as (_ & -> & _). }
    destruct (decide (currentCd s > 0)) as [Hcd|Hcd].
    + unfold castSpell. by rewrite Hs, decide_True.
    + rewrite (castSpell_spells _ _ _ _ _ _ s) by done.
      by apply spells_ok_insert.
  - simplify_eq.
    assert (spells (spell_update delta now w)
            = decay_cooldown delta <$> spells w) as ->.
    { unfold spell_update. destruct (proto_currentCd w); [done|].
      by destruct (update_projectiles _ _ _ _ _) as [[ps ms] es]. }
    destruct Hok as [(s1 & H1 & Hc1) (s2 & H2 & Hc2)]. split.
    + exists (decay_cooldown delta s1). by rewrite lookup_fmap, H1.
    + exists (decay_cooldown delta s2). by rewrite lookup_fmap, H2.
  - destruct (timers (sim w)); [done|].
    destruct (spawnMonster _ _ _ _ _) as [[ms k]|]; by simplify_eq.
Qed.

Lemma reachable_spells_ok (getTerrainHeight : R -> R -> R)
    (random : nat -> R) (w : world) :
  reachable getTerrainHeight random w -> spells_ok (spells w).
Proof.
  induction 1 as [fuel k w Hinit|c w w' Hreach IH Hstep].
  - unfold initial_world in Hinit.
    destruct (createMonsterSystem _ _ _ _) as [[ms k']|]; [|done].
    simplify_eq. apply initial_spells_ok.
  - by eapply step_spells_ok.
Qed.

(** Casting the same spell again with nothing in between. *)
Lemma second_cast (name : string) (p1 p2 : vec3) (a1 a2 : R)
    (t1 t2 : option R) (n1 n2 : R) (w : world) (s : spell) :
  spells w !! name = Some s ->
  snd (castSpell name p1 a1 t1 n1 w) = true ->
  snd (castSpell name p2 a2 t2 n2 (fst (castSpell name p1 a1 t1 n1 w)))
  = bool_decide (~ cooldown s > 0).
Proof.
  intros Hs Hfirst. rewrite castSpell_accepted, Hs in Hfirst.
  apply bool_decide_eq_true_1 in Hfirst.
  rewrite castSpell_accepted, (castSpell_spells _ _ _ _ _ _ s) by done.
  by rewrite lookup_insert_eq.
Qed.

(** C8, as stated, fails: right after both systems were created, a second
    frostbolt cast in immediate succession is accepted. *)
Lemma second_frostbolt_is_accepted :
  snd (castSpell "frostbolt" (Vec3 0 0 0) 0 None 0 (fresh_world [])) = true
  /\ snd (castSpell "frostbolt" (Vec3 0 0 0) 0 None 0
            (fst (castSpell "frostbolt" (Vec3 0 0 0) 0 None 0
                    (fresh_world []))))
     = true.
Proof.
  assert (spells (fresh_world []) !! "frostbolt" = Some frostbolt_spell)
    as Hs by (simpl; unfold initial_spells; by rewrite lookup_insert_eq).
  assert (snd (castSpell "frostbolt" (Vec3 0 0 0) 0 None 0 (fresh_world []))
          = true) as Hfirst.
  { rewrite castSpell_accepted, Hs. apply bool_decide_eq_true_2.
    simpl. lra. }
  split; [exact Hfirst|].
  rewrite (second_cast _ _ _ _ _ _ _ _ _ _ frostbolt_spell) by done.
  apply bool_decide_eq_true_2. simpl. lra.
Qed.

(** C8 (amended).  From any reachable state, a frostbolt cast that is
    accepted can be followed at once by another one that is accepted too:
    frostbolt's cooldown is 0, so the first cast leaves its currentCd at 0.
    An accepted frost nova cast (cooldown 8) followed at once by another one
    makes the second one return [false]. *)
Theorem second_cast_depends_on_cooldown (getTerrainHeight : R -> R -> R)
    (random : nat -> R) (w : world) (p1 p2 : vec3) (a1 a2 : R)
    (t1 t2 : option R) (n1 n2 : R) :
  reachable getTerrainHeight random w ->
  (snd (castSpell "frostbolt" p1 a1 t1 n1 w) = true ->
   snd (castSpell "frostbolt" p2 a2 t2 n2
          (fst (castSpell "frostbolt" p1 a1 t1 n1 w))) = true)
  /\ (snd (castSpell "frostNova" p1 a1 t1 n1 w) = true ->
      snd (castSpell "frostNova" p2 a2 t2 n2
             (fst (castSpell "frostNova" p1 a1 t1 n1 w))) = false).
Proof.
  intros Hreach.
  apply reachable_spells_ok in Hreach as [(s1 & H1 & Hc1) (s2 & H2 & Hc2)].
  split; intros Hfirst.
  - rewrite (second_cast _ _ _ _ _ _ _ _ _ _ s1) by done.
    apply bool_decide_eq_true_2. lra.
  - rewrite (second_cast _ _ _ _ _ _ _ _ _ _ s2) by done.
    apply bool_decide_eq_false_2. lra.
Qed.

(** ** A concrete start *)

Lemma spawnMonster_flat (ms : list monster) (k : nat) :
  exists m,
    spawnMonster flat_terrain no_dice 1 ms k = Some (ms ++ [m], (k + 4)%nat).
Proof.
  simpl. unfold flat_terrain, no_dice.
  rewrite decide_False by lra.
  rewrite Rmult_0_l, (ZfloorZ 0). simpl. by eexists.
Qed.

Lemma initial_world_flat : is_Some (initial_world flat_terrain no_dice 1 0).
Proof.
  unfold initial_world, createMonsterSystem, spawn_n.
  destruct (spawnMonster_flat [] 0) as [m1 ->].
  destruct (spawnMonster_flat ([] ++ [m1]) (0 + 4)) as [m2 ->].
  destruct (spawnMonster_flat (([] ++ [m1]) ++ [m2]) (0 + 4 + 4)) as [m3 ->].
  destruct (spawnMonster_flat ((([] ++ [m1]) ++ [m2]) ++ [m3]) (0 + 4 + 4 + 4))
    as [m4 ->].
  destruct (spawnMonster_flat (((([] ++ [m1]) ++ [m2]) ++ [m3]) ++ [m4])
              (0 + 4 + 4 + 4 + 4)) as [m5 ->].
  by eexists.
Qed.

Lemma second_cast_depends_on_cooldown_witness :
  match initial_world flat_terrain no_dice 1 0 with
  | Some w =>
      reachable flat_terrain no_dice w
      /\ (snd (castSpell "frostbolt" (Vec3 0 0 0) 0 None 0 w) = true ->
          snd (castSpell "frostbolt" (Vec3 0 0 0) 0 None 0
                 (fst (castSpell "frostbolt" (Vec3 0 0 0) 0 None 0 w)))
          = true)
  | None => False
  end.
Proof.
  destruct (initial_world flat_terrain no_dice 1 0) as [w|] eqn:Hinit.
  - assert (reachable flat_terrain no_dice w) as Hreach
      by (by eapply reachable_initial).
    split; [exact Hreach|].
    apply (second_cast_depends_on_cooldown flat_terrain no_dice w
             (Vec3 0 0 0) (Vec3 0 0 0) 0 0 None None 0 0 Hreach).
  - pose proof initial_world_flat as [w Hw]. congruence.
Defined.

(** ** The freeze overlay *)

Lemma isFrozen_alive (now : R) (m : monster) :
  isFrozen now m = true -> state m <> dead.
Proof.
  unfold isFrozen. destruct (slowUntil m); [|done].
  rewrite !andb_true_iff, !bool_decide_eq_true. tauto.
Qed.

Lemma freeze_before_frozen (now : R) (m : monster) :
  isFrozen now m = true ->
  frozen (freeze_before now m) = true
  /\ frozenPos (freeze_before now m)
     = Some (default (px m, pz m) (frozenPos m)).
Proof.
  intros Hf. unfold freeze_before. rewrite Hf.
  destruct (frozen m) eqn:Hm, (frozenPos m) as [p|] eqn:Hp; simpl;
    rewrite ?Hm, ?Hp; done.
Qed.

Lemma freeze_before_marks (now : R) (m : monster) :
  mark_ok (freeze_before now m).
Proof.
  unfold mark_ok, freeze_before.
  destruct (isFrozen now m), (frozen m) eqn:Hm; simpl;
    unfold set_frozenPos, set_frozen; simpl; rewrite ?Hm; done.
Qed.

Lemma update_one_marks (getTerrainHeight : R -> R -> R) (random : nat -> R)
    (delta : R) (playerPos : vec3) (m : monster) (e : env) (m' : monster)
    (e' : env) :
  update_one getTerrainHeight random delta playerPos m e = (Some m', e') ->
  frozen m' = frozen m /\ frozenPos m' = frozenPos m.
Proof.
  destruct (decide (state m = dead)) as [Hd|Ha].
  - rewrite update_one_dead by done. case_decide; [done|].
    by intros [= <- <-].
  - destruct (update_one_alive_stays getTerrainHeight random delta playerPos
                m e Ha) as (m1 & e1 & -> & _ & _ & _ & _ & Hf & Hp & _).
    by intros [= <- <-].
Qed.

(** The wrapped update of a frozen monster keeps it, marked, with the
    snapshot it had, or with its position on entry if it had none, and ends
    with the monster on the snapshot. *)
Lemma frame_one_frozen (getTerrainHeight : R -> R -> R) (random : nat -> R)
    (now delta : R) (playerPos : vec3) (m : monster) (e : env) :
  isFrozen now m = true ->
  exists m' e',
    frame_one getTerrainHeight random now delta playerPos m e = (Some m', e')
    /\ frozen m' = true
    /\ frozenPos m' = Some (default (px m, pz m) (frozenPos m))
    /\ (px m', pz m') = default (px m, pz m) (frozenPos m).
Proof.
  intros Hf. pose proof (isFrozen_alive now m Hf) as Halive.
  destruct (freeze_before_frozen now m Hf) as [Hmark Hsnap].
  destruct (freeze_before_fields now m) as (Hst & _).
  destruct (update_one_alive_stays getTerrainHeight random delta playerPos
              (freeze_before now m) e) as (m1 & e1 & Hrun & _);
    [by rewrite Hst|].
  destruct (update_one_marks _ _ _ _ _ _ _ _ Hrun) as [Hf1 Hp1].
  unfold frame_one. rewrite Hrun. cbn [fmap option_fmap option_map].
  exists (freeze_after m1), e1. split; [done|].
  rewrite Hmark in Hf1. rewrite Hsnap in Hp1.
  destruct (freeze_after_fields m1) as (_ & _ & _ & _ & _ & _ & -> & ->).
  split; [done|]. split; [done|].
  unfold freeze_after. rewrite Hf1, Hp1.
  by destruct (default (px m, pz m) (frozenPos m)) as [x z].
Qed.

Lemma frame_one_marks (getTerrainHeight : R -> R -> R) (random : nat -> R)
    (now delta : R) (playerPos : vec3) (m : monster) (e : env) (m' : monster)
    (e' : env) :
  frame_one getTerrainHeight random now delta playerPos m e = (Some m', e') ->
  mark_ok m'.
Proof.
  unfold frame_one.
  destruct (update_one _ _ _ _ (freeze_before now m) e) as [[m1|] e1] eqn:Hrun;
    [|done].
  cbn [fmap option_fmap option_map]. intros [= <- <-].
  destruct (update_one_marks _ _ _ _ _ _ _ _ Hrun) as [Hf Hp].
  destruct (freeze_after_fields m1) as (_ & _ & _ & _ & _ & _ & Hf' & Hp').
  unfold mark_ok. rewrite Hf', Hp', Hf, Hp. apply freeze_before_marks.
Qed.

(** In every reachable state, a monster that the overlay has not marked
    carries no snapshot. *)
Lemma reachable_marks (getTerrainHeight : R -> R -> R) (random : nat -> R)
    (w : world) :
  reachable getTerrainHeight random w -> Forall mark_ok (monsters w).
Proof.
  induction 1 as [fuel k w Hinit|c w w' Hreach IH Hstep].
  - unfold initial_world, createMonsterSystem in Hinit.
    destruct (spawn_n _ _ _ _ _ _) as [[ms k']|] eqn:Hspawn; [|done].
    simplify_eq. simpl. unfold spawnBoss. apply Forall_app. split.
    + eapply spawn_n_Forall; [apply newly_spawned_marks| |exact Hspawn].
      constructor.
    + by apply Forall_singleton.
  - revert IH. apply carried_Forall; [|apply newly_spawned_marks].
    revert Hstep. apply step_carried with (ok := fun _ => True).
    + done.
    + auto.
    + intros pp pa r d m _.
      destruct (attack_one_state pp pa r d m) as (_ & _ & Hf & Hp & _).
      unfold mark_ok. by rewrite Hf, Hp.
    + intros pp m.
      destruct (check_one_state pp m) as (_ & _ & _ & Hf & Hp & _).
      unfold mark_ok. by rewrite Hf, Hp.
    + intros now dmg slow m _ _.
      destruct (spell_hit_state now dmg slow m) as (_ & _ & Hf & Hp & _).
      unfold mark_ok. by rewrite Hf, Hp.
    + intros gT rnd now delta pp m e m' e' Hrun _. by eapply frame_one_marks.
    + split; apply map_Forall_lookup_2 || apply Forall_true; done.
    + by destruct c.
Qed.

Lemma isFrozen_true (now t : R) (m : monster) :
  slowUntil m = Some t -> t <> 0 -> now < t -> state m <> dead ->
  isFrozen now m = true.
Proof.
  intros Hs Ht Hnow Halive. unfold isFrozen. rewrite Hs.
  by rewrite !bool_decide_eq_true_2.
Qed.

Lemma frame_one_alive_slow (getTerrainHeight : R -> R -> R)
    (random : nat -> R) (now delta : R) (playerPos : vec3) (m : monster)
    (e : env) (m' : monster) (e' : env) :
  state m <> dead ->
  frame_one getTerrainHeight random now delta playerPos m e = (Some m', e') ->
  state m' <> dead /\ slowUntil m' = slowUntil m.
Proof.
  intros Halive. unfold frame_one.
  destruct (freeze_before_fields now m) as (Hst & _ & _ & _ & _ & _ & Hsl & _).
  destruct (update_one_alive_stays getTerrainHeight random delta playerPos
              (freeze_before now m) e)
    as (m1 & e1 & -> & Hs1 & _ & _ & _ & _ & _ & Hsl1 & _); [by rewrite Hst|].
  cbn [fmap option_fmap option_map]. intros [= <- <-].
  destruct (freeze_after_fields m1) as (-> & _ & _ & _ & _ & -> & _).
  split; [done|congruence].
Qed.

Lemma attack_one_slowUntil (playerPos : vec3) (playerAngle range damage : R)
    (m : monster) :
  slowUntil (fst (attack_one playerPos playerAngle range damage m))
  = slowUntil m.
Proof.
  unfold attack_one, die_if_depleted, move_xz. repeat case_decide; done.
Qed.

(** A strike that takes less than the monster's hp does not kill it. *)
Lemma attack_one_survives (playerPos : vec3) (playerAngle range damage : R)
    (m : monster) :
  state m <> dead -> 0 < hp m - damage ->
  state (fst (attack_one playerPos playerAngle range damage m)) <> dead.
Proof.
  intros Halive Hhp. unfold attack_one, die_if_depleted, move_xz.
  repeat case_decide; simpl in *; try done; lra.
Qed.

(** ** A frozen monster through a run of calls *)

(** The wrapped update drops a monster exactly when it is dead and its time
    is up. *)
Lemma frame_one_gone (getTerrainHeight : R -> R -> R) (random : nat -> R)
    (now delta : R) (playerPos : vec3) (m : monster) (e : env) :
  fst (frame_one getTerrainHeight random now delta playerPos m e) = None
  <-> expires delta m.
Proof.
  unfold frame_one, expires.
  destruct (freeze_before_fields now m) as (Hst & _ & Hboss & Hdt & _).
  destruct (decide (state m = dead)) as [Hd|Ha].
  - rewrite update_one_dead by (by rewrite Hst).
    unfold removeTime. rewrite Hdt, Hboss.
    case_decide; simpl; split; try done.
    by intros [_ ?].
  - destruct (update_one_alive_stays getTerrainHeight random delta playerPos
                (freeze_before now m) e) as (m1 & e1 & -> & _);
      [by rewrite Hst|].
    simpl. split; [done|]. by intros [? _].
Qed.

(** Where a live monster of the registry is after the wrapped update, and
    that it is what [frame_one] makes of it. *)
Lemma wrapped_update_place (getTerrainHeight : R -> R -> R)
    (random : nat -> R) (now delta : R) (playerPos : vec3)
    (ms : list monster) (e : env) (i : nat) (m : monster) :
  ms !! i = Some m -> state m <> dead ->
  exists m' e1 e2,
    fst (wrapped_update getTerrainHeight random now delta playerPos ms e)
      !! length (filter (fun x => ~ expires delta x) (take i ms)) = Some m'
    /\ frame_one getTerrainHeight random now delta playerPos m e1
       = (Some m', e2).
Proof.
  revert i. induction ms as [|x rest IH]; intros i Hi Halive; [done|].
  rewrite wrapped_update_cons.
  destruct (wrapped_update _ _ _ _ _ rest e) as [rest' e1] eqn:Hrest.
  simpl in IH.
  pose proof (frame_one_gone getTerrainHeight random now delta playerPos x e1)
    as Hgone.
  destruct (frame_one getTerrainHeight random now delta playerPos x e1)
    as [[x'|] e2] eqn:Hone; simpl in Hgone |- *.
  - destruct i as [|j]; simpl in Hi |- *.
    + simplify_eq. by exists x', e1, e2.
    + rewrite filter_cons, decide_True by (intros Hx; by apply Hgone in Hx).
      simpl. by apply IH.
  - destruct i as [|j]; simpl in Hi |- *.
    + simplify_eq. destruct Halive. by apply Hgone.
    + rewrite filter_cons, decide_False by (intros Hx; by apply Hx, Hgone).
      by apply IH.
Qed.

(** The wrapped update of the registry, seen from a monster that is frozen. *)
Lemma step_update_frozen (getTerrainHeight : R -> R -> R)
    (random : nat -> R) (now delta : R) (playerPos : vec3) (w w' : world)
    (i : nat) (m : monster) :
  step getTerrainHeight random (CallMonsterUpdate now delta playerPos) w
  = Some w' ->
  monsters w !! i = Some m -> isFrozen now m = true ->
  exists m',
    monsters w' !! place_after (CallMonsterUpdate now delta playerPos) w i
    = Some m'
    /\ frozen m' = true
    /\ frozenPos m' = Some (default (px m, pz m) (frozenPos m))
    /\ (px m', pz m') = default (px m, pz m) (frozenPos m)
    /\ state m' <> dead /\ slowUntil m' = slowUntil m /\ hp m' = hp m.
Proof.
  intros Hstep Hm Hfrozen. simpl in Hstep.
  pose proof (isFrozen_alive now m Hfrozen) as Halive.
  destruct (wrapped_update_place getTerrainHeight random now delta playerPos
              (monsters w) (sim w) i m Hm Halive)
    as (m' & e1 & e2 & Hplace & Hone).
  destruct (wrapped_update _ _ _ _ _ _ _) as [ms e]. simplify_eq.
  exists m'. split; [exact Hplace|].
  destruct (frame_one_frozen getTerrainHeight random now delta playerPos m e1
              Hfrozen) as (m2 & e3 & Hone' & Hmark & Hsnap & Hpos).
  rewrite Hone in Hone'. simplify_eq.
  destruct (frame_one_alive_slow _ _ _ _ _ _ _ _ _ Halive Hone) as [Ha Hs].
  destruct (frame_one_kept _ _ _ _ _ _ _ _ _ Hone) as (Hhp & _).
  done.
Qed.

(** Every other call leaves the monster at its place, with the marks it
    has. *)
Lemma step_keeps_place (getTerrainHeight : R -> R -> R) (random : nat -> R)
    (c : call) (w w' : world) (i : nat) (m : monster) :
  is_update c = false ->
  step getTerrainHeight random c w = Some w' ->
  monsters w !! i = Some m ->
  exists m', monsters w' !! i = Some m' /\ marks_kept m m'.
Proof.
  intros Hc Hstep Hm. destruct c; simpl in Hc, Hstep; [done|..].
  - unfold checkPlayerDamage in Hstep. rewrite check_loop_spec in Hstep.
    simplify_eq. simpl. rewrite list_lookup_fmap, Hm. simpl.
    eexists. split; [done|].
    by destruct (check_one_state playerPos m) as (_ & _ & _ & ? & ? & _).
  - rewrite attackMonstersInRange_spec in Hstep. simplify_eq. simpl.
    rewrite list_lookup_fmap, Hm. simpl. eexists. split; [done|].
    by destruct (attack_one_state playerPos playerAngle range0 damage0 m)
      as (_ & _ & ? & ? & _).
  - simplify_eq. destruct (spells w !! name) as [s|] eqn:Hs.
    + unfold castSpell. rewrite Hs.
      repeat case_decide; simpl; try (by exists m).
      rewrite list_lookup_fmap, Hm. simpl. eexists. split; [done|].
      unfold nova_one. repeat case_decide; try done.
      by destruct (spell_hit_state now
                     (spell_damage (set_currentCd (cooldown s) s))
                     (spell_slowDuration (set_currentCd (cooldown s) s)) m)
        as (_ & _ & ? & ? & _).
    + destruct (castSpell_no_entry name casterPos casterAngle casterPitch now
                  w Hs) as (-> & _).
      by exists m.
  - simplify_eq. unfold spell_update.
    destruct (proto_currentCd w); [by exists m|].
    pose proof (update_projectiles_rel marks_kept (fun _ => True)) as Hrel.
    specialize (Hrel (fun _ => conj eq_refl eq_refl)).
    assert (forall a b c, marks_kept a b -> marks_kept b c -> marks_kept a c)
      as Htrans.
    { intros a b c [H1 H2] [H3 H4]. split; congruence. }
    assert (forall now dmg slow x, state x <> dead -> True ->
              marks_kept x (spell_hit now dmg slow x)) as Hhit.
    { intros n0 d0 s0 x _ _.
      by destruct (spell_hit_state n0 d0 s0 x) as (_ & _ & ? & ? & _). }
    specialize (Hrel Htrans Hhit delta now (projectiles w) (monsters w)
                  (effects w) (Forall_true _ _ (fun _ => I))).
    destruct (update_projectiles _ _ _ _ _) as [[ps ms] es]. simpl in *.
    destruct (Forall2_lookup_l _ _ _ _ _ Hrel Hm) as (m' & Hm' & Hk).
    by exists m'.
  - destruct (timers (sim w)) as [|t pending]; [done|].
    destruct (spawnMonster _ _ _ _ _) as [[ms k]|] eqn:Hspawn; [|done].
    simplify_eq. simpl.
    apply spawnMonster_appends in Hspawn as (m0 & -> & _).
    exists m. split; [|done]. by apply lookup_app_l_Some.
Qed.

(** Once a monster is marked with a snapshot, every further wrapped update
    at which it is frozen ends with the monster on that snapshot. *)
Lemma marked_run (getTerrainHeight : R -> R -> R) (random : nat -> R)
    (snap : R * R) (cs : list call) (w : world) (i : nat) (m : monster) :
  monsters w !! i = Some m -> frozenPos m = Some snap ->
  frozen_at_updates getTerrainHeight random cs w i ->
  positions_after_updates getTerrainHeight random cs w i
  = replicate (count_updates cs) (Some snap).
Proof.
  revert w i m. induction cs as [|c cs IH]; intros w i m Hm Hsnap Hrun;
    [done|].
  simpl in Hrun |- *. destruct Hrun as [Hfrozen Hrest].
  destruct (step getTerrainHeight random c w) as [w'|] eqn:Hstep; [|done].
  unfold count_updates. rewrite filter_cons.
  destruct (is_update c) eqn:Hc.
  - rewrite decide_True by done. simpl.
    destruct c; try done. destruct Hfrozen as (m0 & Hm0 & Hf).
    simplify_eq.
    destruct (step_update_frozen _ _ _ _ _ _ _ _ _ Hstep Hm Hf)
      as (m' & Hm' & _ & Hsnap' & Hpos & _).
    rewrite Hsnap in Hsnap', Hpos. simpl in Hsnap', Hpos.
    rewrite Hm'. simpl. rewrite Hpos. f_equal. by eapply IH.
  - rewrite decide_False by done.
    destruct (step_keeps_place _ _ _ _ _ _ _ Hc Hstep Hm)
      as (m' & Hm' & _ & Hp).
    assert (place_after c w i = i) as Hi by (by destruct c).
    rewrite Hi in *. eapply IH; [exact Hm'| |exact Hrest]. congruence.
Qed.

(** C5 (amended).  Take a monster of the registry for which the overlay
    holds no snapshot (it holds none for a monster it has not marked as
    frozen), and a run of calls that starts with a wrapped update: further
    wrapped updates, damage checks, melee strikes, casts, updates of the
    spells and respawns, in any order.  If the monster is frozen (slowUntil
    set, [now < slowUntil], not dead) at every wrapped update of the run,
    then it is still in the registry after each of them, and at the end of
    each its (x, z) position is the one it had when it entered the first,
    which is where the overlay took its snapshot. *)
Theorem frozen_monster_stays_put (getTerrainHeight : R -> R -> R)
    (random : nat -> R) (now delta : R) (playerPos : vec3) (cs : list call)
    (w : world) (i : nat) (m : monster) :
  monsters w !! i = Some m ->
  frozenPos m = None ->
  frozen_at_updates getTerrainHeight random
    (CallMonsterUpdate now delta playerPos :: cs) w i ->
  positions_after_updates getTerrainHeight random
    (CallMonsterUpdate now delta playerPos :: cs) w i
  = replicate (S (count_updates cs)) (Some (px m, pz m)).
Proof.
  intros Hm Hnone Hrun.
  cbn [frozen_at_updates positions_after_updates] in Hrun |- *.
  destruct Hrun as [(m0 & Hm0 & Hfrozen) Hrest]. simplify_eq.
  destruct (step getTerrainHeight random
              (CallMonsterUpdate now delta playerPos) w) as [w'|] eqn:Hstep;
    [|done].
  destruct (step_update_frozen _ _ _ _ _ _ _ _ _ Hstep Hm Hfrozen)
    as (m' & Hm' & _ & Hsnap & Hpos & _).
  rewrite Hnone in Hsnap, Hpos. simpl in Hsnap, Hpos.
  cbn [is_update]. cbv zeta. rewrite Hm'. simpl. rewrite Hpos. f_equal.
  by eapply marked_run.
Qed.

(** A melee strike from the origin, facing along z, on a live monster that
    stands 3 away on the z axis: it is knocked back to 3.8. *)
Lemma attack_one_from_origin (damage : R) (m : monster) :
  state m <> dead -> px m = 0 -> pz m = 3 -> 0 < hp m - damage ->
  let m' := fst (attack_one (Vec3 0 0 0) 0 3 damage m) in
  (px m', pz m') = (0, 3 + 0.8) /\ state m' <> dead
  /\ slowUntil m' = slowUntil m /\ marks_kept m m'.
Proof.
  intros Halive Hx Hz Hhp. cbv zeta.
  split; [|split; [by apply attack_one_survives|split]];
    [|apply attack_one_slowUntil
     |by destruct (attack_one_state (Vec3 0 0 0) 0 3 damage m)
        as (_ & _ & ? & ? & _)].
  pose proof PI_RGT_0.
  unfold attack_one. rewrite decide_False by done.
  rewrite Hx, Hz. simpl.
  replace (3 - 0) with 3 by lra. replace (0 - 0) with 0 by lra.
  rewrite planar_axis, atan2_axis by lra.
  replace (0 - 0) with 0 by lra. rewrite normalize_angle_0, Rabs_R0.
  rewrite decide_False by lra.
  rewrite decide_True by lra.
  rewrite decide_True by lra.
  unfold die_if_depleted, move_xz. simpl.
  rewrite decide_False by lra.
  unfold px, pz in *. simpl. rewrite Hx, Hz. f_equal; lra.
Qed.

(** A mushroom slowed until second 10 lives through two wrapped updates, at
    seconds 1 and 2; between them it is struck in melee and knocked back. *)
Lemma frozen_monster_stays_put_witness :
  let m := set_slowUntil (Some 10) (monster_at 0 3) in
  let run := [CallAttack (Vec3 0 0 0) 0 3 10;
              CallMonsterUpdate 2 0.05 (Vec3 0 0 0)] in
  frozen_at_updates flat_terrain no_dice
    (CallMonsterUpdate 1 0.05 (Vec3 0 0 0) :: run) (fresh_world [m]) 0
  /\ positions_after_updates flat_terrain no_dice
       (CallMonsterUpdate 1 0.05 (Vec3 0 0 0) :: run) (fresh_world [m]) 0
     = [Some (0, 3); Some (0, 3)].
Proof.
  intros m run.
  assert (isFrozen 1 m = true) as Hf1
    by (apply (isFrozen_true 1 10); simpl; try done; lra).
  assert (frozen_at_updates flat_terrain no_dice
            (CallMonsterUpdate 1 0.05 (Vec3 0 0 0) :: run) (fresh_world [m]) 0)
    as Hrun.
  { cbn [frozen_at_updates run].
    split; [by exists m|].
    destruct (step flat_terrain no_dice (CallMonsterUpdate 1 0.05 (Vec3 0 0 0))
                (fresh_world [m])) as [w1|] eqn:H1;
      [|simpl in H1; by destruct (wrapped_update _ _ _ _ _ _ _)].
    destruct (step_update_frozen _ _ _ _ _ _ _ 0%nat m H1 eq_refl Hf1)
      as (m1 & Hm1 & _ & _ & Hpos1 & Halive1 & Hslow1 & Hhp1).
    change (monsters w1 !! 0%nat = Some m1) in Hm1.
    change (place_after (CallMonsterUpdate 1 0.05 (Vec3 0 0 0))
              (fresh_world [m]) 0) with 0%nat.
    split; [done|].
    destruct (step flat_terrain no_dice (CallAttack (Vec3 0 0 0) 0 3 10) w1)
      as [w2|] eqn:H2;
      [|simpl in H2; by destruct (attackMonstersInRange _ _ _ _ _)].
    assert (monsters w2 !! 0%nat
            = Some (fst (attack_one (Vec3 0 0 0) 0 3 10 m1))) as Hm2.
    { simpl in H2. rewrite attackMonstersInRange_spec in H2. simplify_eq.
      simpl. by rewrite list_lookup_fmap, Hm1. }
    cbn [place_after]. split.
    - eexists. split; [exact Hm2|].
      apply (isFrozen_true 2 10); [|lra|lra|].
      + by rewrite attack_one_slowUntil, Hslow1.
      + apply attack_one_survives; [done|]. rewrite Hhp1. simpl. lra.
    - simpl. by destruct (wrapped_update _ _ _ _ _ _ _). }
  split; [exact Hrun|].
  apply (frozen_monster_stays_put flat_terrain no_dice 1 0.05 (Vec3 0 0 0) run
           (fresh_world [m]) 0 m eq_refl eq_refl Hrun).
Defined.

(** C5, as stated, fails: the snapshot is taken at the first wrapped update
    that finds the monster frozen, not when the freeze begins.  A mushroom
    at (0, 3) is hit by a frost nova at second 0, which starts its freeze;
    a melee strike then knocks it back to (0, 3.8); the wrapped update at
    second 1 finds it frozen and ends with it at (0, 3.8), not at (0, 3)
    where it was when the freeze began. *)
Lemma frozen_monster_ends_off_its_freeze_position :
  exists (w1 w2 w3 : world) (m1 m3 : monster),
    step flat_terrain no_dice
      (CallCastSpell "frostNova" (Vec3 0 0 0) 0 None 0)
      (fresh_world [monster_at 0 3]) = Some w1
    /\ monsters w1 !! 0%nat = Some m1
    /\ slowUntil (monster_at 0 3) = None
    /\ isFrozen 0 m1 = true /\ (px m1, pz m1) = (0, 3)
    /\ step flat_terrain no_dice (CallAttack (Vec3 0 0 0) 0 3 10) w1 = Some w2
    /\ step flat_terrain no_dice (CallMonsterUpdate 1 0.05 (Vec3 0 0 0)) w2
       = Some w3
    /\ monsters w3 !! 0%nat = Some m3
    /\ isFrozen 1 m3 = true
    /\ (px m3, pz m3) = (0, 3 + 0.8)
    /\ (px m3, pz m3) <> (px m1, pz m1).
Proof.
  set (m1 := spell_hit 0 15 4 (monster_at 0 3)).
  assert (monsters (fst (castSpell "frostNova" (Vec3 0 0 0) 0 None 0
                           (fresh_world [monster_at 0 3]))) = [m1]) as Hcast.
  { unfold castSpell. simpl. unfold initial_spells.
    rewrite lookup_insert_ne, lookup_insert_eq by done.
    rewrite decide_False by (simpl; lra).
    unfold spawnFrostNova, nova_one. simpl.
    change (planar (px (monster_at 0 3) - 0) (pz (monster_at 0 3) - 0))
      with (planar (0 - 0) (3 - 0)).
    replace (0 - 0) with 0 by lra. replace (3 - 0) with 3 by lra.
    rewrite planar_axis by lra. by rewrite decide_True by lra. }
  destruct (spell_hit_state 0 15 4 (monster_at 0 3))
    as (_ & _ & Hfr & Hfp & Hp & Hhp & _ & Hst).
  fold m1 in Hfr, Hfp, Hp, Hhp, Hst.
  assert (hp m1 = 45) as Hhp1.
  { rewrite Hhp. unfold hp_after. simpl. rewrite decide_False by lra. lra. }
  assert (state m1 <> dead) as Halive1 by (rewrite Hst; [done|simpl; lra]).
  assert (slowUntil m1 = Some (0 + 4)) as Hslow1.
  { unfold m1, spell_hit, die_if_depleted. by case_decide. }
  assert (px m1 = 0 /\ pz m1 = 3) as [Hx1 Hz1]
    by (unfold px, pz; by rewrite Hp).
  set (m2 := fst (attack_one (Vec3 0 0 0) 0 3 10 m1)).
  destruct (attack_one_from_origin 10 m1 Halive1 Hx1 Hz1)
    as (Hpos2 & Halive2 & Hslow2 & Hfr2 & Hfp2); [lra|].
  fold m2 in Hpos2, Halive2, Hslow2, Hfr2, Hfp2.
  assert (isFrozen 1 m2 = true) as Hf2.
  { apply (isFrozen_true 1 (0 + 4)); [congruence|lra|lra|done]. }
  set (w1 := fst (castSpell "frostNova" (Vec3 0 0 0) 0 None 0
                    (fresh_world [monster_at 0 3]))).
  set (w2 := World [m2] (spells w1) (projectiles w1) (effects w1) (sim w1)
               (proto_currentCd w1)).
  assert (step flat_terrain no_dice (CallAttack (Vec3 0 0 0) 0 3 10) w1
          = Some w2) as H2.
  { simpl. rewrite attackMonstersInRange_spec. fold w1 in Hcast.
    by rewrite Hcast. }
  destruct (step flat_terrain no_dice (CallMonsterUpdate 1 0.05 (Vec3 0 0 0))
              w2) as [w3|] eqn:H3;
    [|simpl in H3; by destruct (wrapped_update _ _ _ _ _ _ _)].
  destruct (step_update_frozen _ _ _ _ _ _ _ 0%nat m2 H3 eq_refl Hf2)
    as (m3 & Hm3 & _ & _ & Hpos3 & Halive3 & Hslow3 & _).
  change (monsters w3 !! 0%nat = Some m3) in Hm3.
  assert (frozenPos m2 = None) as Hnone by (rewrite Hfp2, Hfp; done).
  rewrite Hnone in Hpos3. simpl in Hpos3.
  exists w1, w2, w3, m1, m3.
  split; [done|]. split; [by fold w1 in Hcast; rewrite Hcast|].
  split; [done|].
  split; [apply (isFrozen_true 0 (0 + 4)); [done|lra|lra|done]|].
  split; [by rewrite Hx1, Hz1|]. split; [exact H2|]. split; [done|].
  split; [exact Hm3|].
  split; [apply (isFrozen_true 1 (0 + 4)); [congruence|lra|lra|done]|].
  split; [congruence|].
  rewrite Hpos3, Hpos2, Hx1, Hz1. intros [= Hbad]. lra.
Qed.

(** * Further properties of monsters.js and spells.js *)

(** ** The population of the registry *)

Lemma count_normal_app (l1 l2 : list monster) :
  count_normal (l1 ++ l2) = (count_normal l1 + count_normal l2)%nat.
Proof. unfold count_normal. by rewrite filter_app, length_app. Qed.

Lemma count_boss_app (l1 l2 : list monster) :
  count_boss (l1 ++ l2) = (count_boss l1 + count_boss l2)%nat.
Proof. unfold count_boss. by rewrite filter_app, length_app. Qed.

Lemma counts_same_kinds (l l' : list monster) :
  Forall2 (fun m m' => isBoss m' = isBoss m) l l' ->
  count_normal l' = count_normal l /\ count_boss l' = count_boss l.
Proof.
  unfold count_normal, count_boss.
  induction 1 as [|m m' l l' Hm Hl [IH1 IH2]]; [done|].
  rewrite !filter_cons, Hm.
  destruct (isBoss m); repeat case_decide; simpl; try done; split; congruence.
Qed.

Lemma frame_one_cases (getTerrainHeight : R -> R -> R) (random : nat -> R)
    (now delta : R) (playerPos : vec3) (m : monster) (e : env) :
  (exists m' e',
     frame_one getTerrainHeight random now delta playerPos m e = (Some m', e')
     /\ isBoss m' = isBoss m /\ timers e' = timers e)
  \/ frame_one getTerrainHeight random now delta playerPos m e
     = (None, if isBoss m then e else setTimeout RunSpawnMonster 5000 e).
Proof.
  destruct (decide (state m = dead)) as [Hd|Ha].
  - destruct (frame_one_dead getTerrainHeight random now delta playerPos m e
                Hd) as [Hrem Hkeep].
    destruct (decide (deathTime m + delta > removeTime m)) as [Hexp|Hnot].
    + right. by apply Hrem.
    + left. destruct (Hkeep Hnot) as (m' & Hrun & _ & _ & Hb & _).
      by exists m', e.
  - left. unfold frame_one.
    destruct (freeze_before_fields now m) as (Hst & _ & Hb & _).
    destruct (update_one_alive_stays getTerrainHeight random delta playerPos
                (freeze_before now m) e)
      as (m1 & e1 & -> & _ & _ & Hb1 & Ht & _); [by rewrite Hst|].
    cbn [fmap option_fmap option_map]. exists (freeze_after m1), e1.
    destruct (freeze_after_fields m1) as (_ & _ & -> & _).
    split; [done|]. split; [congruence|done].
Qed.

Lemma wrapped_update_population (getTerrainHeight : R -> R -> R)
    (random : nat -> R) (now delta : R) (playerPos : vec3)
    (ms : list monster) (e : env) :
  let r := wrapped_update getTerrainHeight random now delta playerPos ms e in
  (count_normal (fst r) + length (timers (snd r))
   = count_normal ms + length (timers e))%nat
  /\ (count_boss (fst r) <= count_boss ms)%nat.
Proof.
  induction ms as [|m ms IH]; [done|].
  simpl. rewrite wrapped_update_cons.
  simpl in IH.
  destruct (wrapped_update getTerrainHeight random now delta playerPos ms e)
    as [rest' e1]. simpl in IH. destruct IH as [IHn IHb].
  unfold count_normal, count_boss in *. rewrite !filter_cons.
  destruct (frame_one_cases getTerrainHeight random now delta playerPos m e1)
    as [(m' & e2 & -> & Hb & Ht)| ->]; simpl.
  - rewrite !filter_cons, Hb, Ht.
    destruct (isBoss m); repeat case_decide; simpl; try done; lia.
  - destruct (isBoss m); repeat case_decide; simpl; try done;
      rewrite ?length_app; simpl; lia.
Qed.

Lemma spawn_n_population (getTerrainHeight : R -> R -> R) (random : nat -> R)
    (fuel n : nat) (ms : list monster) (k : nat) (ms' : list monster)
    (k' : nat) :
  spawn_n getTerrainHeight random fuel n ms k = Some (ms', k') ->
  count_normal ms' = (count_normal ms + n)%nat
  /\ count_boss ms' = count_boss ms.
Proof.
  revert ms k. induction n as [|n IH]; intros ms k; simpl.
  - intros [= <- <-]. split; [lia|done].
  - destruct (spawnMonster _ _ _ _ _) as [[ms1 k1]|] eqn:Hspawn; [|done].
    intros Hn. apply IH in Hn as [-> ->].
    apply spawnMonster_appends in Hspawn as (m & -> & Hb & _).
    rewrite count_normal_app, count_boss_app.
    unfold count_normal, count_boss. rewrite !filter_cons, Hb. simpl.
    repeat case_decide; try done. simpl. split; lia.
Qed.

(** X1.  In every reachable state the normal monsters in the registry and
    the pending respawn timers add up to five, and the registry holds at
    most one boss. *)
Theorem population_is_kept (getTerrainHeight : R -> R -> R)
    (random : nat -> R) (w : world) :
  reachable getTerrainHeight random w ->
  (count_normal (monsters w) + length (timers (sim w)) = 5)%nat
  /\ (count_boss (monsters w) <= 1)%nat.
Proof.
  induction 1 as [fuel k w Hinit|c w w' Hreach [IHn IHb] Hstep].
  - unfold initial_world, createMonsterSystem in Hinit.
    destruct (spawn_n _ _ _ _ _ _) as [[ms k']|] eqn:Hspawn; [|done].
    simplify_eq. simpl.
    apply spawn_n_population in Hspawn as [Hn Hb].
    unfold spawnBoss. rewrite count_normal_app, count_boss_app, Hn, Hb.
    unfold count_normal, count_boss. simpl. split; lia.
  - assert (forall ms', Forall2 (fun m m' => isBoss m' = isBoss m)
                          (monsters w) ms' ->
              (count_normal ms' + length (timers (sim w)) = 5)%nat
              /\ (count_boss ms' <= 1)%nat) as Hsame.
    { intros ms' Hall. apply counts_same_kinds in Hall as [-> ->]. done. }
    destruct c; simpl in Hstep.
    + pose proof (wrapped_update_population getTerrainHeight random now delta
                    playerPos (monsters w) (sim w)) as Hpop.
      destruct (wrapped_update _ _ _ _ _ _ _) as [ms e]. simplify_eq.
      simpl in *. lia.
    + unfold checkPlayerDamage in Hstep. rewrite check_loop_spec in Hstep.
      simplify_eq. simpl. apply Hsame, Forall2_rel_map.
      intros m. by destruct (check_one_state playerPos m) as (-> & _).
    + rewrite attackMonstersInRange_spec in Hstep. simplify_eq. simpl.
      apply Hsame, Forall2_rel_map. intros m.
      by destruct (attack_one_state playerPos playerAngle range0 damage0 m)
        as (-> & _).
    + simplify_eq. unfold castSpell.
      destruct (spells w !! name) as [s|]; simpl;
        [|by destruct (inherited name); [case_decide|]].
      repeat case_decide; simpl; try by split.
      apply Hsame, Forall2_rel_map. intros m. unfold nova_one.
      repeat case_decide; try done.
      by destruct (spell_hit_state now (spell_damage (set_currentCd
                     (cooldown s) s)) (spell_slowDuration (set_currentCd
                     (cooldown s) s)) m) as (-> & _).
    + simplify_eq. unfold spell_update.
      pose proof (update_projectiles_rel
                    (fun m m' => isBoss m' = isBoss m) (fun _ => True)) as Hrel.
      specialize (Hrel (fun _ => eq_refl)).
      specialize (Hrel (fun a b c0 Hab Hbc => eq_trans Hbc Hab)).
      assert (forall now dmg slow m, state m <> dead -> True ->
                isBoss (spell_hit now dmg slow m) = isBoss m) as Hhit.
      { intros n0 d0 s0 m _ _. by destruct (spell_hit_state n0 d0 s0 m)
          as (-> & _). }
      specialize (Hrel Hhit delta now (projectiles w) (monsters w)
                    (effects w)).
      destruct (proto_currentCd w); [done|].
      destruct (update_projectiles _ _ _ _ _) as [[ps ms] es]. simpl in *.
      apply Hsame, Hrel. by apply Forall_true.
    + destruct (timers (sim w)) as [|t pending] eqn:Ht; [done|].
      destruct (spawnMonster _ _ _ _ _) as [[ms k]|] eqn:Hspawn; [|done].
      simplify_eq. simpl in *.
      apply spawnMonster_appends in Hspawn as (m & -> & Hb & _).
      rewrite count_normal_app, count_boss_app.
      unfold count_normal, count_boss in *. rewrite !filter_cons, Hb. simpl.
      repeat case_decide; try done. simpl. lia.
Qed.

Lemma population_is_kept_witness :
  match initial_world flat_terrain no_dice 1 0 with
  | Some w =>
      reachable flat_terrain no_dice w
      /\ (count_normal (monsters w) + length (timers (sim w)) = 5)%nat
  | None => False
  end.
Proof.
  destruct (initial_world flat_terrain no_dice 1 0) as [w|] eqn:Hinit.
  - assert (reachable flat_terrain no_dice w) as Hreach
      by (by eapply reachable_initial).
    split; [exact Hreach|].
    apply (population_is_kept flat_terrain no_dice w Hreach).
  - pose proof initial_world_flat as [w Hw]. congruence.
Defined.

(** ** Geometry of the moves *)

Lemma planar_nonneg (a b : R) : 0 <= planar a b.
Proof. apply sqrt_pos. Qed.

Lemma planar_scale (k a b : R) : planar (k * a) (k * b) = Rabs k * planar a b.
Proof.
  unfold planar.
  replace (k * a * (k * a) + k * b * (k * b)) with (k² * (a * a + b * b))
    by (unfold Rsqr; lra).
  rewrite sqrt_mult; [|apply Rle_0_sqr|nra].
  by rewrite sqrt_Rsqr_abs.
Qed.

Lemma planar_polar (a d : R) : 0 <= d -> planar (cos a * d) (sin a * d) = d.
Proof.
  intros Hd. rewrite (Rmult_comm (cos a)), (Rmult_comm (sin a)).
  rewrite planar_scale, Rabs_right by lra.
  unfold planar.
  replace (cos a * cos a + sin a * sin a) with ((sin a)² + (cos a)²)
    by (unfold Rsqr; lra).
  rewrite sin2_cos2, sqrt_1. lra.
Qed.

Lemma attack_one_position (playerPos : vec3) (playerAngle range damage : R)
    (m : monster) :
  snd (attack_one playerPos playerAngle range damage m) = true ->
  distance_to playerPos m > 0.1 ->
  let m' := fst (attack_one playerPos playerAngle range damage m) in
  let d := distance_to playerPos m in
  px m' = px m + (px m - vx playerPos) / d * 0.8
  /\ pz m' = pz m + (pz m - vz playerPos) / d * 0.8.
Proof.
  unfold attack_one, distance_to, die_if_depleted, move_xz.
  repeat case_decide; simpl; intros; try done; lra.
Qed.

(** X2.  A melee hit from more than 0.1 away pushes the monster straight
    away from the attacker: its planar distance to the attacker grows by
    exactly 0.8. *)
Theorem knockback_is_08_away (playerPos : vec3)
    (playerAngle range damage : R) (m : monster) :
  snd (attack_one playerPos playerAngle range damage m) = true ->
  distance_to playerPos m > 0.1 ->
  distance_to playerPos (fst (attack_one playerPos playerAngle range damage m))
  = distance_to playerPos m + 0.8.
Proof.
  intros Hhit Hfar.
  destruct (attack_one_position _ _ _ _ _ Hhit Hfar) as [Hx Hz].
  set (d := distance_to playerPos m) in *.
  unfold distance_to at 1. rewrite Hx, Hz.
  replace (px m + (px m - vx playerPos) / d * 0.8 - vx playerPos)
    with ((1 + 0.8 / d) * (px m - vx playerPos)) by (field; lra).
  replace (pz m + (pz m - vz playerPos) / d * 0.8 - vz playerPos)
    with ((1 + 0.8 / d) * (pz m - vz playerPos)) by (field; lra).
  rewrite planar_scale. fold (distance_to playerPos m). fold d.
  assert (0 < 0.8 / d) by (apply Rdiv_lt_0_compat; lra).
  rewrite Rabs_right by lra. field. lra.
Qed.

Lemma knockback_is_08_away_witness :
  snd (attack_one (Vec3 0 0 0) 0 3 10 (monster_at 0 3)) = true
  /\ distance_to (Vec3 0 0 0) (monster_at 0 3) > 0.1
  /\ distance_to (Vec3 0 0 0)
       (fst (attack_one (Vec3 0 0 0) 0 3 10 (monster_at 0 3)))
     = distance_to (Vec3 0 0 0) (monster_at 0 3) + 0.8.
Proof.
  assert (snd (attack_one (Vec3 0 0 0) 0 3 10 (monster_at 0 3)) = true) as Hhit
    by (by rewrite attack_one_at_range).
  assert (distance_to (Vec3 0 0 0) (monster_at 0 3) > 0.1) as Hfar
    by (rewrite distance_to_axis; lra).
  split; [exact Hhit|]. split; [exact Hfar|].
  apply (knockback_is_08_away (Vec3 0 0 0) 0 3 10 (monster_at 0 3) Hhit Hfar).
Defined.

Lemma update_one_chase (getTerrainHeight : R -> R -> R) (random : nat -> R)
    (delta : R) (playerPos : vec3) (m : monster) (e : env) :
  state m <> dead ->
  distance_to playerPos m < aggroRange m ->
  attackRange m <= distance_to playerPos m ->
  exists m' e',
    update_one getTerrainHeight random delta playerPos m e = (Some m', e')
    /\ state m' = chase
    /\ px m' = px m + (vx playerPos - px m) / distance_to playerPos m
                      * type_speed (mtype m) * delta
    /\ pz m' = pz m + (vz playerPos - pz m) / distance_to playerPos m
                      * type_speed (mtype m) * delta.
Proof.
  intros Halive. unfold distance_to, aggroRange, attackRange.
  rewrite (planar_swap (px m)).
  unfold update_one. rewrite decide_False by done.
  unfold update_alive, AGGRO_RANGE, ATTACK_RANGE.
  cbn [isBoss set_time set_attackCooldown].
  set (dist := planar (vx playerPos - px (set_time (time m + delta) m))
                      (vz playerPos - pz (set_time (time m + delta) m))).
  assert (planar (vx playerPos - px m) (vz playerPos - pz m) = dist) as ->
    by done.
  intros Haggro Hatk.
  destruct (isBoss m); rewrite decide_True by lra;
    rewrite decide_False by lra; simpl; by eexists _, _.
Qed.

(** X3.  A chasing monster ends the update at planar distance
    [|d - type.speed * delta|] from the player, [d] being its distance at
    the start: it comes closer by exactly its step as long as the step does
    not exceed the distance. *)
Theorem chase_closes_in (getTerrainHeight : R -> R -> R) (random : nat -> R)
    (delta : R) (playerPos : vec3) (m : monster) (e : env) :
  state m <> dead ->
  distance_to playerPos m < aggroRange m ->
  attackRange m <= distance_to playerPos m ->
  exists m' e',
    update_one getTerrainHeight random delta playerPos m e = (Some m', e')
    /\ distance_to playerPos m'
       = Rabs (distance_to playerPos m - type_speed (mtype m) * delta)
    /\ (0 <= type_speed (mtype m) * delta <= distance_to playerPos m ->
        distance_to playerPos m'
        = distance_to playerPos m - type_speed (mtype m) * delta).
Proof.
  intros Halive Haggro Hatk.
  destruct (update_one_chase getTerrainHeight random delta playerPos m e
              Halive Haggro Hatk) as (m' & e' & Hrun & _ & Hx & Hz).
  exists m', e'. split; [done|].
  assert (0 < distance_to playerPos m) as Hd.
  { unfold attackRange in Hatk. destruct (isBoss m); lra. }
  set (d := distance_to playerPos m) in *.
  set (s := type_speed (mtype m) * delta).
  assert (distance_to playerPos m' = Rabs (d - s)) as Hdist.
  { unfold distance_to at 1. rewrite Hx, Hz.
    replace (px m + (vx playerPos - px m) / d * type_speed (mtype m) * delta
             - vx playerPos)
      with ((1 - s / d) * (px m - vx playerPos)) by (unfold s; field; lra).
    replace (pz m + (vz playerPos - pz m) / d * type_speed (mtype m) * delta
             - vz playerPos)
      with ((1 - s / d) * (pz m - vz playerPos)) by (unfold s; field; lra).
    rewrite planar_scale. fold (distance_to playerPos m). fold d.
    rewrite <- (Rabs_right d) at 2 by lra. rewrite <- Rabs_mult.
    f_equal. field. lra. }
  split; [exact Hdist|].
  intros [Hs1 Hs2]. rewrite Hdist. apply Rabs_right. lra.
Qed.

Lemma chase_closes_in_witness :
  state (monster_at 0 3) <> dead
  /\ exists m' e',
       update_one flat_terrain no_dice 0.05 (Vec3 0 0 0) (monster_at 0 3)
         (Env 0 []) = (Some m', e')
       /\ distance_to (Vec3 0 0 0) m' = 3 - 2 * 0.05.
Proof.
  split; [done|].
  assert (distance_to (Vec3 0 0 0) (monster_at 0 3) = 3) as Hd
    by (apply distance_to_axis; lra).
  destruct (chase_closes_in flat_terrain no_dice 0.05 (Vec3 0 0 0)
              (monster_at 0 3) (Env 0 []))
    as (m' & e' & Hrun & _ & Hnear).
  - done.
  - rewrite Hd. unfold aggroRange. simpl. lra.
  - rewrite Hd. unfold attackRange. simpl. lra.
  - exists m', e'. split; [exact Hrun|].
    rewrite Hnear; rewrite Hd; simpl; lra.
Defined.

(** ** Spawning *)

(** X4.  With [Math.random()] in the interval from 0 (included) to 1
    (excluded), a monster that [spawnMonster] adds stands at a planar
    distance of at least 20 and less than 60 from the origin, on the
    terrain, not under water (height at least 0.3); it is of one of the
    three normal kinds of [MONSTER_TYPES], with the full hp and the size of
    its kind, and its idle target is the place where it stands. *)
Theorem spawnMonster_places (getTerrainHeight : R -> R -> R)
    (random : nat -> R) (fuel : nat) (ms : list monster) (k : nat)
    (ms' : list monster) (k' : nat) :
  (forall n, 0 <= random n < 1) ->
  spawnMonster getTerrainHeight random fuel ms k = Some (ms', k') ->
  exists m,
    ms' = ms ++ [m]
    /\ 20 <= planar (px m) (pz m) < 60
    /\ vy (position m) = getTerrainHeight (px m) (pz m)
    /\ 0.3 <= vy (position m)
    /\ mtype m ∈ MONSTER_TYPES
    /\ hp m = type_hp (mtype m) /\ maxHp m = type_hp (mtype m)
    /\ scale m = type_size (mtype m)
    /\ idleTarget m = position m.
Proof.
  intros Hrand. revert k. induction fuel as [|fuel IH]; intros k; simpl;
    [done|].
  case_decide as Hwet; [apply IH|].
  destruct (MONSTER_TYPES !! _) as [type|] eqn:Htype; [|done].
  intros [= <- <-]. eexists. split; [reflexivity|].
  unfold px, pz. simpl.
  assert (20 <= randomRange 20 60 (random (k + 2)%nat) < 60) as Hring.
  { unfold randomRange. specialize (Hrand (k + 2)%nat). lra. }
  rewrite planar_polar by lra.
  split; [done|]. split; [done|]. split; [lra|].
  split; [by eapply list_elem_of_lookup_2|done].
Qed.

Lemma spawnMonster_places_witness :
  (forall n, 0 <= no_dice n < 1)
  /\ match spawnMonster flat_terrain no_dice 1 [] 0 with
     | Some (ms', _) =>
         exists m, ms' = [] ++ [m] /\ 20 <= planar (px m) (pz m) < 60
     | None => False
     end.
Proof.
  assert (forall n, 0 <= no_dice n < 1) as Hrand
    by (intros n; unfold no_dice; lra).
  split; [exact Hrand|].
  destruct (spawnMonster flat_terrain no_dice 1 [] 0) as [[ms' k']|] eqn:Hs.
  - destruct (spawnMonster_places flat_terrain no_dice 1 [] 0 ms' k' Hrand Hs)
      as (m & Hm & Hring & _).
    by exists m.
  - destruct (spawnMonster_flat [] 0) as [m Hm]. congruence.
Defined.

(** ** Asking twice for the damage dealt to the player *)

(** X5.  Right after a call of [checkPlayerDamage], a second call for the
    same player position deals no damage and changes no monster: every
    monster whose attack landed is on cooldown. *)
Theorem checkPlayerDamage_twice (playerPos : vec3) (ms : list monster) :
  let ms1 := fst (checkPlayerDamage playerPos ms) in
  snd (checkPlayerDamage playerPos ms1) = 0
  /\ fst (checkPlayerDamage playerPos ms1) = ms1.
Proof.
  simpl. unfold checkPlayerDamage. rewrite !check_loop_spec. simpl.
  assert (forall m, check_one playerPos (fst (check_one playerPos m))
                    = (fst (check_one playerPos m), 0)) as Hone.
  { intros m. unfold check_one at 2 3, ATTACK_COOLDOWN.
    repeat case_decide; simpl; unfold check_one, ATTACK_COOLDOWN; simpl;
      repeat case_decide; try done; exfalso; intuition lra. }
  induction ms as [|m ms [IHd IHm]]; simpl; [split; [lra|done]|].
  rewrite Hone. simpl. rewrite IHm. split; [|done].
  rewrite Rplus_0_l in IHd. unfold sum_R in *. simpl. lra.
Qed.

(** ** The table of spells *)

Lemma spells_shape_lookup (sp : gmap string spell) (name : string)
    (s : spell) :
  spells_shape sp -> sp !! name = Some s ->
  (name = "frostbolt"
   /\ exists c, s = set_currentCd c frostbolt_spell)
  \/ (name = "frostNova"
      /\ exists c, s = set_currentCd c frostNova_spell).
Proof.
  intros (c1 & c2 & ->) Hs.
  destruct (decide (name = "frostbolt")) as [->|Hne1].
  - rewrite lookup_insert_eq in Hs. left. split; [done|]. exists c1. congruence.
  - rewrite lookup_insert_ne in Hs by done.
    destruct (decide (name = "frostNova")) as [->|Hne2].
    + rewrite lookup_insert_eq in Hs. right. split; [done|]. exists c2.
      congruence.
    + by rewrite lookup_insert_ne, lookup_empty in Hs.
Qed.

Lemma step_spells_shape (getTerrainHeight : R -> R -> R) (random : nat -> R)
    (c : call) (w w' : world) :
  spells_shape (spells w) -> step getTerrainHeight random c w = Some w' ->
  spells_shape (spells w').
Proof.
  intros Hok Hstep. destruct c; simpl in Hstep.
  - destruct (wrapped_update _ _ _ _ _ _ _). by simplify_eq.
  - destruct (checkPlayerDamage _ _). by simplify_eq.
  - destruct (attackMonstersInRange _ _ _ _ _). by simplify_eq.
  - simplify_eq.
    destruct (spells w !! name) as [s|] eqn:Hs.
    2: { by destruct (castSpell_no_entry name casterPos casterAngle
                        casterPitch now w Hs) as (_ & -> & _). }
    destruct (decide (currentCd s > 0)) as [Hcd|Hcd].
    { unfold castSpell. by rewrite Hs, decide_True. }
    rewrite (castSpell_spells _ _ _ _ _ _ s) by done.
    destruct (spells_shape_lookup _ _ _ Hok Hs)
      as [[-> [c ->]]|[-> [c ->]]]; destruct Hok as (c1 & c2 & ->).
    + exists 0, c2. by rewrite insert_insert_eq.
    + exists c1, 8. rewrite insert_insert_ne by done.
      by rewrite insert_insert_eq.
  - simplify_eq. rewrite spell_update_spells.
    destruct Hok as (c1 & c2 & ->).
    exists (Rmax 0 (c1 - delta)), (Rmax 0 (c2 - delta)).
    by rewrite !fmap_insert, fmap_empty.
  - destruct (timers (sim w)); [done|].
    destruct (spawnMonster _ _ _ _ _) as [[ms k]|]; by simplify_eq.
Qed.

Lemma reachable_spells_shape (getTerrainHeight : R -> R -> R)
    (random : nat -> R) (w : world) :
  reachable getTerrainHeight random w -> spells_shape (spells w).
Proof.
  induction 1 as [fuel k w Hinit|c w w' Hreach IH Hstep].
  - unfold initial_world in Hinit.
    destruct (createMonsterSystem _ _ _ _) as [[ms k']|]; [|done].
    simplify_eq. by exists 0, 0.
  - by eapply step_spells_shape.
Qed.

(** X6.  [castSpell] accepts a name exactly when [canCast] says so, or the
    name is no key of [spells] but one of those every object inherits from
    [Object.prototype]: on such a name the two disagree, [canCast] answers
    false and [castSpell] accepts.  On every other name, for every state,
    [canCast(name)] is true exactly when a call of [castSpell] with that
    name is accepted. *)
Theorem canCast_versus_castSpell (name : string) (casterPos : vec3)
    (casterAngle : R) (casterPitch : option R) (now : R) (w : world) :
  snd (castSpell name casterPos casterAngle casterPitch now w)
  = canCast name w
    || (bool_decide (spells w !! name = None) && inherited name).
Proof.
  rewrite castSpell_accepted. unfold canCast.
  destruct (spells w !! name) as [s|]; simpl.
  - rewrite orb_false_r. apply bool_decide_ext. split; intros; lra.
  - done.
Qed.

Lemma spell_updates_lookup (now : R) (deltas : list R) (w : world)
    (name : string) :
  spells (spell_updates now deltas w) !! name
  = (fun s => set_currentCd
                (foldl (fun c delta => Rmax 0 (c - delta)) (currentCd s)
                   deltas) s)
    <$> (spells w !! name).
Proof.
  unfold spell_updates. revert w.
  induction deltas as [|d deltas IH]; intros w; simpl.
  - by destruct (spells w !! name) as [[]|].
  - rewrite IH, spell_update_spells.
    rewrite lookup_fmap. by destruct (spells w !! name).
Qed.

Lemma decay_reaches_zero (deltas : list R) (c : R) :
  Forall (Rle 0) deltas ->
  foldl (fun c delta => Rmax 0 (c - delta)) c deltas <= 0
  <-> c <= sum_R deltas.
Proof.
  intros Hpos. revert c.
  induction Hpos as [|d deltas Hd Hds IH]; intros c; simpl.
  - lra.
  - rewrite IH.
    assert (0 <= sum_R deltas) as Hsum.
    { clear IH. induction Hds as [|x l Hx Hl IHl]; simpl; [lra|].
      unfold Rle in Hx |- *. lra. }
    unfold Rmax. destruct (Rle_dec 0 (c - d)); split; intros; lra.
Qed.

(** X7.  After an accepted cast, the spell can be cast again exactly when
    the deltas passed to the spell system's [update] since then, none of
    them negative, add up to at least the spell's cooldown. *)
Theorem spell_ready_after_cooldown (name : string) (casterPos : vec3)
    (casterAngle : R) (casterPitch : option R) (now now' : R) (w : world)
    (s : spell) (deltas : list R) :
  spells w !! name = Some s ->
  snd (castSpell name casterPos casterAngle casterPitch now w) = true ->
  Forall (Rle 0) deltas ->
  canCast name
    (spell_updates now' deltas
       (fst (castSpell name casterPos casterAngle casterPitch now w)))
  = bool_decide (cooldown s <= sum_R deltas).
Proof.
  intros Hs Hacc Hpos.
  rewrite castSpell_accepted, Hs in Hacc.
  apply bool_decide_eq_true_1 in Hacc.
  unfold canCast. rewrite spell_updates_lookup.
  rewrite (castSpell_spells _ _ _ _ _ _ s), lookup_insert_eq by done.
  simpl. apply bool_decide_ext. by apply decay_reaches_zero.
Qed.

Lemma spell_ready_after_cooldown_witness :
  canCast "frostNova"
    (spell_updates 0 [4; 3]
       (fst (castSpell "frostNova" (Vec3 0 0 0) 0 None 0 (fresh_world []))))
  = false.
Proof.
  rewrite (spell_ready_after_cooldown "frostNova" (Vec3 0 0 0) 0 None 0 0
             (fresh_world []) frostNova_spell [4; 3]).
  - apply bool_decide_eq_false_2. simpl. lra.
  - by simpl; unfold initial_spells; rewrite lookup_insert_ne, lookup_insert_eq.
  - rewrite castSpell_accepted. simpl. unfold initial_spells.
    rewrite lookup_insert_ne, lookup_insert_eq by done.
    apply bool_decide_eq_true_2. simpl. lra.
  - repeat apply Forall_cons_2; [| |apply Forall_nil_2]; unfold Rle; lra.
Defined.

(** ** What a cast does *)

Lemma aim_is_unit (angle pitch : R) :
  vec_length (Vec3 (sin angle * cos pitch) (sin pitch) (cos angle * cos pitch))
  = 1.
Proof.
  unfold vec_length. simpl.
  replace (sin angle * cos pitch * (sin angle * cos pitch)
           + sin pitch * sin pitch
           + cos angle * cos pitch * (cos angle * cos pitch))
    with (((sin angle)² + (cos angle)²) * (cos pitch)² + (sin pitch)²)
    by (unfold Rsqr; lra).
  rewrite sin2_cos2, Rmult_1_l, Rplus_comm, sin2_cos2. apply sqrt_1.
Qed.

Lemma vec_normalize_unit (v : vec3) : vec_length v = 1 -> vec_normalize v = v.
Proof.
  unfold vec_length, vec_normalize. intros ->.
  rewrite decide_False by lra. destruct v as [x y z]. simpl.
  f_equal; lra.
Qed.

(** X8.  From a reachable state, an accepted cast of frostbolt touches no
    monster and no effect and adds one projectile at the end of the list: it
    starts 1.5 above the caster, flies along the unit vector given by the
    caster's angle and pitch (pitch 0 when none is given), with speed 25,
    damage 25, range 40, slow duration 3, and has traveled 0. *)
Theorem frostbolt_cast_spawns_one_projectile
    (getTerrainHeight : R -> R -> R) (random : nat -> R) (w : world)
    (casterPos : vec3) (casterAngle : R) (casterPitch : option R) (now : R) :
  reachable getTerrainHeight random w ->
  snd (castSpell "frostbolt" casterPos casterAngle casterPitch now w) = true ->
  let w' := fst (castSpell "frostbolt" casterPos casterAngle casterPitch now w)
  in
  let pitch := default 0 casterPitch in
  monsters w' = monsters w /\ effects w' = effects w
  /\ projectiles w'
     = projectiles w
       ++ [Projectile
             (Vec3 (vx casterPos) (vy casterPos + 1.5) (vz casterPos))
             (Vec3 (sin casterAngle * cos pitch) (sin pitch)
                (cos casterAngle * cos pitch))
             25 25 3 40 0 0]
  /\ vec_length (Vec3 (sin casterAngle * cos pitch) (sin pitch)
                   (cos casterAngle * cos pitch)) = 1.
Proof.
  intros Hreach Hacc. apply reachable_spells_shape in Hreach.
  rewrite castSpell_accepted in Hacc.
  destruct (spells w !! "frostbolt") as [s|] eqn:Hs; [|done].
  apply bool_decide_eq_true_1 in Hacc.
  destruct (spells_shape_lookup _ _ _ Hreach Hs)
    as [[_ [c ->]]|[Hne _]]; [|done].
  unfold castSpell. rewrite Hs, decide_False by done. simpl.
  unfold spawnFrostbolt. rewrite vec_normalize_unit by apply aim_is_unit.
  repeat split; try done. apply aim_is_unit.
Qed.

Lemma frostbolt_cast_spawns_one_projectile_witness :
  match initial_world flat_terrain no_dice 1 0 with
  | Some w =>
      reachable flat_terrain no_dice w
      /\ snd (castSpell "frostbolt" (Vec3 0 0 0) 0 None 0 w) = true
      /\ monsters (fst (castSpell "frostbolt" (Vec3 0 0 0) 0 None 0 w))
         = monsters w
  | None => False
  end.
Proof.
  destruct (initial_world flat_terrain no_dice 1 0) as [w|] eqn:Hinit.
  - assert (reachable flat_terrain no_dice w) as Hreach
      by (by eapply reachable_initial).
    assert (snd (castSpell "frostbolt" (Vec3 0 0 0) 0 None 0 w) = true)
      as Hacc.
    { unfold initial_world in Hinit.
      destruct (createMonsterSystem _ _ _ _) as [[ms k']|]; [|done].
      simplify_eq. rewrite castSpell_accepted. simpl. unfold initial_spells.
      rewrite lookup_insert_eq. apply bool_decide_eq_true_2. simpl. lra. }
    split; [exact Hreach|]. split; [exact Hacc|].
    apply (frostbolt_cast_spawns_one_projectile flat_terrain no_dice w
             (Vec3 0 0 0) 0 None 0 Hreach Hacc).
  - pose proof initial_world_flat as [w Hw]. congruence.
Defined.

(** X9.  From a reachable state, an accepted cast of frost nova leaves the
    projectiles alone, adds one frost nova effect of duration 1.5, and hits
    exactly the monsters that are not dead and stand at a planar distance
    below 6 from the caster (6 itself is out of reach): each of them loses
    15 hp, floored at 0, dies at 0, and is slowed until [now + 4], whatever
    slow it had before; it is not moved.  Every other monster is left as it
    was. *)
Theorem frost_nova_cast_hits_within_six (getTerrainHeight : R -> R -> R)
    (random : nat -> R) (w : world) (casterPos : vec3) (casterAngle : R)
    (casterPitch : option R) (now : R) :
  reachable getTerrainHeight random w ->
  snd (castSpell "frostNova" casterPos casterAngle casterPitch now w) = true ->
  let w' := fst (castSpell "frostNova" casterPos casterAngle casterPitch now w)
  in
  projectiles w' = projectiles w
  /\ effects w' = effects w ++ [Effect frostNova_effect 0 1.5]
  /\ Forall2
       (fun m m' =>
          if decide (state m <> dead /\ distance_to casterPos m < 6)
          then hp m' = hp_after 15 m
               /\ slowUntil m' = Some (now + 4)
               /\ position m' = position m
               /\ (hp m - 15 <= 0 -> state m' = dead /\ deathTime m' = 0)
               /\ (0 < hp m - 15 -> state m' = state m)
          else m' = m)
       (monsters w) (monsters w').
Proof.
  intros Hreach Hacc. apply reachable_spells_shape in Hreach.
  rewrite castSpell_accepted in Hacc.
  destruct (spells w !! "frostNova") as [s|] eqn:Hs; [|done].
  apply bool_decide_eq_true_1 in Hacc.
  destruct (spells_shape_lookup _ _ _ Hreach Hs)
    as [[Hne _]|[_ [c ->]]]; [done|].
  unfold castSpell. rewrite Hs, decide_False by done. simpl.
  split; [done|]. split; [done|].
  apply Forall2_same_length_lookup_2; [by rewrite length_map|].
  intros i m m' Hm Hm'. rewrite list_lookup_fmap, Hm in Hm'.
  simpl in Hm'. simplify_eq. unfold nova_one, distance_to. simpl.
  destruct (decide (state m = dead)) as [Hd|Ha].
  - rewrite decide_False; [done|]. by intros [? _].
  - destruct (decide (planar (px m - vx casterPos) (pz m - vz casterPos) < 6))
      as [Hnear|Hfar].
    + rewrite decide_True by done.
      destruct (spell_hit_state now 15 4 m)
        as (_ & _ & _ & _ & Hp & Hh & Hk & Hl).
      repeat split; try done; try by apply Hk.
      unfold spell_hit, die_if_depleted. by case_decide.
    + rewrite decide_False; [done|]. by intros [_ ?].
Qed.

Lemma frost_nova_cast_hits_within_six_witness :
  match initial_world flat_terrain no_dice 1 0 with
  | Some w =>
      let w' := fst (castSpell "frostNova" (Vec3 55 0 55) 0 None 0 w) in
      reachable flat_terrain no_dice w
      /\ snd (castSpell "frostNova" (Vec3 55 0 55) 0 None 0 w) = true
      /\ (exists m, last (monsters w) = Some m /\ (px m, pz m) = (55, 55)
                    /\ hp m = 500 /\ slowUntil m = None)
      /\ (exists m', last (monsters w') = Some m' /\ hp m' = 485
                     /\ slowUntil m' = Some (0 + 4))
  | None => False
  end.
Proof.
  destruct (initial_world flat_terrain no_dice 1 0) as [w|] eqn:Hinit.
  - assert (reachable flat_terrain no_dice w) as Hreach
      by (by eapply reachable_initial).
    unfold initial_world, createMonsterSystem in Hinit.
    destruct (spawn_n _ _ _ _ _ _) as [[ms k']|]; [|done].
    injection Hinit as <-.
    set (boss := Monster (Vec3 55 (flat_terrain 55 55) 55) 0 5 BOSS_TYPE 500
                   500 idle 0 0 (Vec3 55 (flat_terrain 55 55) 55) 0 true None
                   false None).
    set (w := World (spawnBoss flat_terrain ms) initial_spells [] []
                (Env k' []) false) in *.
    assert (monsters w = ms ++ [boss]) as Hms by done.
    assert (snd (castSpell "frostNova" (Vec3 55 0 55) 0 None 0 w) = true)
      as Hacc.
    { rewrite castSpell_accepted. simpl. unfold initial_spells.
      rewrite lookup_insert_ne, lookup_insert_eq by done.
      apply bool_decide_eq_true_2. simpl. lra. }
    cbv zeta. split; [exact Hreach|]. split; [exact Hacc|].
    split; [exists boss; by rewrite Hms, last_snoc|].
    destruct (frost_nova_cast_hits_within_six flat_terrain no_dice w
                (Vec3 55 0 55) 0 None 0 Hreach Hacc) as (_ & _ & Hall).
    rewrite Hms in Hall.
    apply Forall2_app_inv_l in Hall as (l1 & l2 & _ & Hlast & ->).
    apply Forall2_cons_inv_l in Hlast as (m' & l3 & Hhit & Hnil & ->).
    apply Forall2_nil_inv_l in Hnil as ->.
    exists m'. split; [by rewrite last_snoc|].
    rewrite decide_True in Hhit.
    + destruct Hhit as (Hhp & Hslow & _). split; [|exact Hslow].
      rewrite Hhp. unfold hp_after. simpl. rewrite decide_False by lra. lra.
    + split; [done|]. unfold distance_to, px, pz. simpl.
      replace (55 - 55) with 0 by lra. rewrite planar_axis by lra. lra.
  - pose proof initial_world_flat as [w Hw]. congruence.
Defined.

(** ** Projectiles in flight and effects on display *)

Lemma vec_length_scale (k : R) (v : vec3) :
  vec_length (Vec3 (vx v * k) (vy v * k) (vz v * k)) = Rabs k * vec_length v.
Proof.
  unfold vec_length. simpl.
  replace (vx v * k * (vx v * k) + vy v * k * (vy v * k)
           + vz v * k * (vz v * k))
    with (k² * (vx v * vx v + vy v * vy v + vz v * vz v))
    by (unfold Rsqr; lra).
  rewrite sqrt_mult; [|apply Rle_0_sqr|nra].
  by rewrite sqrt_Rsqr_abs.
Qed.

Lemma advances_fields (deltas : list R) (p : projectile) :
  dir (advances deltas p) = dir p /\ speed (advances deltas p) = speed p
  /\ damage (advances deltas p) = damage p
  /\ range (advances deltas p) = range p
  /\ traveled (advances deltas p) = traveled p + speed p * sum_R deltas
  /\ p_position (advances deltas p)
     = Vec3 (vx (p_position p) + vx (dir p) * (speed p * sum_R deltas))
            (vy (p_position p) + vy (dir p) * (speed p * sum_R deltas))
            (vz (p_position p) + vz (dir p) * (speed p * sum_R deltas)).
Proof.
  unfold advances. revert p.
  induction deltas as [|d deltas IH]; intros p; simpl.
  - destruct p as [[x y z] ? ? ? ? ? ? ?]. simpl.
    repeat split; try done; [lra|f_equal; lra].
  - destruct (IH (advance d p)) as (-> & -> & -> & -> & -> & ->). simpl.
    repeat split; try done; [lra|f_equal; lra].
Qed.

(** X10.  For a projectile whose direction is a unit vector, [traveled]
    measures the flight: after any number of movements whose deltas, summed
    and multiplied by the speed, are not negative, the distance between
    where it was and where it is equals the growth of [traveled]. *)
Theorem traveled_is_distance_flown (deltas : list R) (p : projectile) :
  vec_length (dir p) = 1 ->
  0 <= speed p * sum_R deltas ->
  vec_distance (p_position p) (p_position (advances deltas p))
  = traveled (advances deltas p) - traveled p.
Proof.
  intros Hunit Hpos.
  destruct (advances_fields deltas p) as (_ & _ & _ & _ & -> & ->).
  unfold vec_distance. simpl.
  replace (vx (p_position p) + vx (dir p) * (speed p * sum_R deltas)
           - vx (p_position p))
    with (vx (dir p) * (speed p * sum_R deltas)) by lra.
  replace (vy (p_position p) + vy (dir p) * (speed p * sum_R deltas)
           - vy (p_position p))
    with (vy (dir p) * (speed p * sum_R deltas)) by lra.
  replace (vz (p_position p) + vz (dir p) * (speed p * sum_R deltas)
           - vz (p_position p))
    with (vz (dir p) * (speed p * sum_R deltas)) by lra.
  rewrite vec_length_scale, Hunit, Rabs_right by lra. lra.
Qed.

Lemma traveled_is_distance_flown_witness :
  let p := Projectile (Vec3 0 1.5 0) (Vec3 0 0 1) 25 25 3 40 0 0 in
  vec_distance (p_position p) (p_position (advances [0.05; 0.05] p)) = 2.5.
Proof.
  intros p.
  rewrite (traveled_is_distance_flown [0.05; 0.05] p).
  - destruct (advances_fields [0.05; 0.05] p) as (_ & _ & _ & _ & -> & _).
    simpl. lra.
  - unfold vec_length. simpl.
    replace (0 * 0 + 0 * 0 + 1 * 1) with 1 by lra. apply sqrt_1.
  - simpl. lra.
Defined.

Lemma update_projectiles_effects (Q : effect -> Prop) (delta now : R)
    (ps : list projectile) (ms : list monster) (es : list effect) :
  Q (Effect impact_effect 0 0.6) -> Forall Q es ->
  Forall Q (snd (update_projectiles delta now ps ms es)).
Proof.
  intros Himpact Hes. revert ms.
  induction ps as [|p ps IH]; intros ms; simpl; [done|].
  specialize (IH ms).
  destruct (update_projectiles delta now ps ms es) as [[rest' ms1] es1].
  simpl in IH. unfold update_projectile.
  destruct (hit_detection now (advance delta p) ms1) as [ms2 [|]];
    case_decide; simpl; try done; unfold spawnImpact; apply Forall_app;
    split; try done; by apply Forall_singleton.
Qed.

Lemma update_effects_ok (delta : R) (es : list effect) :
  Forall (fun e => e_type e = frostNova_effect /\ maxTime e = 1.5
                   \/ e_type e = impact_effect /\ maxTime e = 0.6) es ->
  Forall effect_ok (update_effects delta es).
Proof.
  unfold update_effects. induction 1 as [|e es He Hes IH]; simpl; [done|].
  unfold update_effect at 1. case_decide as Hold; simpl in *; [done|].
  constructor; [|done]. split; simpl; [lra|done].
Qed.

(** X11.  In every reachable state, every projectile in the list is a
    frostbolt as cast (unit direction, speed 25, damage 25, range 40, slow
    duration 3) that has traveled at most 40, and every effect in the list
    is a frost nova effect of duration 1.5 or an impact effect of duration
    0.6 whose age does not exceed its duration. *)
Theorem spell_lists_are_well_formed (getTerrainHeight : R -> R -> R)
    (random : nat -> R) (w : world) :
  reachable getTerrainHeight random w ->
  Forall projectile_ok (projectiles w) /\ Forall effect_ok (effects w).
Proof.
  intros Hreach.
  induction Hreach as [fuel k w Hinit|c w w' Hreach [IHp IHe] Hstep].
  - unfold initial_world in Hinit.
    destruct (createMonsterSystem _ _ _ _) as [[ms k']|]; [|done].
    simplify_eq. simpl. split; constructor.
  - apply reachable_spells_shape in Hreach as Hshape.
    destruct c; simpl in Hstep.
    + destruct (wrapped_update _ _ _ _ _ _ _). by simplify_eq.
    + destruct (checkPlayerDamage _ _). by simplify_eq.
    + destruct (attackMonstersInRange _ _ _ _ _). by simplify_eq.
    + simplify_eq. unfold castSpell.
      destruct (spells w !! name) as [s|] eqn:Hs; simpl;
        [|by destruct (inherited name); [case_decide|]].
      case_decide; simpl; [done|].
      destruct (spells_shape_lookup _ _ _ Hshape Hs)
        as [[-> [c ->]]|[-> [c ->]]]; simpl.
      * split; [|done]. unfold spawnFrostbolt. apply Forall_app.
        split; [done|]. apply Forall_singleton.
        rewrite vec_normalize_unit by apply aim_is_unit.
        unfold projectile_ok. simpl.
        repeat split; try done; [apply aim_is_unit|lra].
      * split; [done|]. apply Forall_app. split; [done|].
        apply Forall_singleton. split; simpl; [lra|by left].
    + simplify_eq. unfold spell_update.
      pose proof (update_projectiles_survivors delta now (projectiles w)
                    (monsters w) (effects w)) as Hsurv.
      pose proof (update_projectiles_effects
                    (fun e => e_type e = frostNova_effect /\ maxTime e = 1.5
                              \/ e_type e = impact_effect /\ maxTime e = 0.6)
                    delta now (projectiles w) (monsters w) (effects w))
        as Heff.
      destruct (proto_currentCd w); [done|].
      destruct (update_projectiles _ _ _ _ _) as [[ps ms] es]. simpl in *.
      split.
      * eapply Forall_impl; [exact Hsurv|].
        intros p' (p & Hin & -> & Hnear).
        rewrite Forall_forall in IHp.
        destruct (IHp p Hin) as (Hu & Hsp & Hd & Hr & Hsl & Ht).
        unfold projectile_ok. simpl in *.
        repeat split; try done. lra.
      * apply update_effects_ok, Heff; [by right|].
        eapply Forall_impl; [exact IHe|]. by intros e [_ ?].
    + destruct (timers (sim w)); [done|].
      destruct (spawnMonster _ _ _ _ _) as [[ms k]|]; by simplify_eq.
Qed.

(** The state after a frostbolt and a frost nova were cast right after the
    start: one projectile is in flight and one effect is showing. *)
Lemma spell_lists_are_well_formed_witness :
  match initial_world flat_terrain no_dice 1 0 with
  | Some w =>
      let w1 := fst (castSpell "frostbolt" (Vec3 0 0 0) 0 None 0 w) in
      let w2 := fst (castSpell "frostNova" (Vec3 0 0 0) 0 None 0 w1) in
      reachable flat_terrain no_dice w2
      /\ length (projectiles w2) = 1%nat /\ length (effects w2) = 1%nat
      /\ Forall projectile_ok (projectiles w2)
      /\ Forall effect_ok (effects w2)
  | None => False
  end.
Proof.
  destruct (initial_world flat_terrain no_dice 1 0) as [w|] eqn:Hinit.
  - cbv zeta.
    set (w1 := fst (castSpell "frostbolt" (Vec3 0 0 0) 0 None 0 w)).
    set (w2 := fst (castSpell "frostNova" (Vec3 0 0 0) 0 None 0 w1)).
    assert (reachable flat_terrain no_dice w2) as Hreach.
    { apply (reachable_step flat_terrain no_dice
               (CallCastSpell "frostNova" (Vec3 0 0 0) 0 None 0) w1);
        [|done].
      apply (reachable_step flat_terrain no_dice
               (CallCastSpell "frostbolt" (Vec3 0 0 0) 0 None 0) w);
        [|done].
      by eapply reachable_initial. }
    split; [exact Hreach|].
    assert (length (projectiles w2) = 1%nat /\ length (effects w2) = 1%nat)
      as [Hps Hes].
    { unfold initial_world in Hinit.
      destruct (createMonsterSystem _ _ _ _) as [[ms k']|]; [|done].
      injection Hinit as <-. unfold w2, w1, castSpell. simpl.
      unfold initial_spells. rewrite lookup_insert_eq.
      rewrite decide_False by (simpl; lra). simpl.
      rewrite lookup_insert_ne, lookup_insert_ne, lookup_insert_eq by done.
      rewrite decide_False by (simpl; lra). by simpl. }
    split; [exact Hps|]. split; [exact Hes|].
    apply (spell_lists_are_well_formed flat_terrain no_dice w2 Hreach).
  - pose proof initial_world_flat as [w Hw]. congruence.
Defined.

(** * Properties of utils.js *)

Lemma smoothstep_poly_range (t : R) :
  0 <= t <= 1 -> 0 <= t * t * (3 - 2 * t) <= 1.
Proof.
  intros [H0 H1]. split.
  - apply Rmult_le_pos; [apply Rmult_le_pos|]; lra.
  - assert (1 - t * t * (3 - 2 * t) = (1 - t) * (1 - t) * (1 + 2 * t)) as Heq
      by ring.
    assert (0 <= (1 - t) * (1 - t) * (1 + 2 * t))
      by (apply Rmult_le_pos; [apply Rmult_le_pos|]; lra).
    lra.
Qed.

Lemma smoothstep_poly_mono (a b : R) :
  0 <= a -> a <= b -> b <= 1 ->
  a * a * (3 - 2 * a) <= b * b * (3 - 2 * b).
Proof.
  intros Ha Hab Hb.
  assert (b * b * (3 - 2 * b) - a * a * (3 - 2 * a)
          = (b - a) * (a * (3 - 2 * a - b) + b * (3 - 2 * b - a))) as Heq
    by ring.
  assert (0 <= a * (3 - 2 * a - b)) by (apply Rmult_le_pos; lra).
  assert (0 <= b * (3 - 2 * b - a)) by (apply Rmult_le_pos; lra).
  assert (0 <= (b - a) * (a * (3 - 2 * a - b) + b * (3 - 2 * b - a)))
    by (apply Rmult_le_pos; lra).
  lra.
Qed.

Lemma clamp01_range (u : R) : 0 <= Rmax 0 (Rmin 1 u) <= 1.
Proof.
  split; [apply Rmax_l|]. apply Rmax_lub; [lra|apply Rmin_l].
Qed.

Lemma smoothstep_range (edge0 edge1 x : R) :
  0 <= Utils.smoothstep edge0 edge1 x <= 1.
Proof. apply smoothstep_poly_range, clamp01_range. Qed.

Lemma smoothstep_low (edge0 edge1 x : R) :
  edge0 < edge1 -> x <= edge0 -> Utils.smoothstep edge0 edge1 x = 0.
Proof.
  intros Hedges Hx. unfold Utils.smoothstep.
  assert (0 < / (edge1 - edge0)) as Hinv by (apply Rinv_0_lt_compat; lra).
  assert ((x - edge0) / (edge1 - edge0) <= 0) as Hneg.
  { unfold Rdiv. nra. }
  rewrite Rmin_right by lra. rewrite Rmax_left by lra. lra.
Qed.

(** X12.  For [edge0 < edge1], [smoothstep] stays between 0 and 1, is 0 up
    to [edge0] and 1 from [edge1] on, and never decreases as [x] grows. *)
Theorem smoothstep_shape (edge0 edge1 : R) :
  edge0 < edge1 ->
  (forall x, 0 <= Utils.smoothstep edge0 edge1 x <= 1)
  /\ (forall x, x <= edge0 -> Utils.smoothstep edge0 edge1 x = 0)
  /\ (forall x, edge1 <= x -> Utils.smoothstep edge0 edge1 x = 1)
  /\ (forall x y, x <= y ->
        Utils.smoothstep edge0 edge1 x <= Utils.smoothstep edge0 edge1 y).
Proof.
  intros Hedges. unfold Utils.smoothstep.
  assert (0 < / (edge1 - edge0)) as Hinv by (apply Rinv_0_lt_compat; lra).
  split; [|split; [|split]].
  - intros x. apply smoothstep_poly_range, clamp01_range.
  - intros x Hx. by apply smoothstep_low.
  - intros x Hx.
    assert (1 <= (x - edge0) / (edge1 - edge0)) as Hbig.
    { apply Rmult_le_reg_r with (edge1 - edge0); [lra|].
      unfold Rdiv. rewrite Rmult_assoc, Rinv_l by lra. lra. }
    rewrite Rmin_left by lra. rewrite Rmax_right by lra. lra.
  - intros x y Hxy.
    assert ((x - edge0) / (edge1 - edge0) <= (y - edge0) / (edge1 - edge0))
      as Hmono.
    { unfold Rdiv. apply Rmult_le_compat_r; lra. }
    apply smoothstep_poly_mono.
    + apply Rmax_l.
    + apply Rle_max_compat_l. by apply Rle_min_compat_l.
    + apply clamp01_range.
Qed.

Lemma smoothstep_shape_witness :
  0 < 1 /\ Utils.smoothstep 0 1 0 = 0 /\ Utils.smoothstep 0 1 1 = 1.
Proof.
  assert (0 < 1) as H01 by lra.
  destruct (smoothstep_shape 0 1 H01) as (_ & Hlow & Hhigh & _).
  split; [exact H01|].
  split; [apply Hlow|apply Hhigh]; lra.
Defined.

(** X13.  With noise values between -1 and 1, the terrain height lies
    between 0 and 8 everywhere; outside the flat zone of radius 15 it is the
    scaled noise; at the origin, where the character starts, it is exactly
    1, whatever the noise. *)
Theorem terrain_height_bounds (noise2D noise2D_2 noise2D_3 : R -> R -> R) :
  (forall x z, -1 <= noise2D x z <= 1) ->
  (forall x z, -1 <= noise2D_2 x z <= 1) ->
  (forall x z, -1 <= noise2D_3 x z <= 1) ->
  (forall x z,
     0 <= Utils.getTerrainHeight noise2D noise2D_2 noise2D_3 x z <= 8)
  /\ (forall x z, 15 <= sqrt (x * x + z * z) ->
        Utils.getTerrainHeight noise2D noise2D_2 noise2D_3 x z
        = (noise2D (x * 0.02) (z * 0.02)
           + noise2D_2 (x * 0.05) (z * 0.05) * 0.5
           + noise2D_3 (x * 0.1) (z * 0.1) * 0.2 + 1.7) / 3.4 * 8)
  /\ Utils.getTerrainHeight noise2D noise2D_2 noise2D_3 0 0 = 1.
Proof.
  intros H1 H2 H3.
  assert (forall x z,
            0 <= Utils.raw_height noise2D noise2D_2 noise2D_3 x z <= 8)
    as Hraw.
  { intros x z. unfold Utils.raw_height, Utils.TERRAIN_HEIGHT_SCALE.
    specialize (H1 (x * 0.02) (z * 0.02)).
    specialize (H2 (x * 0.05) (z * 0.05)).
    specialize (H3 (x * 0.1) (z * 0.1)). lra. }
  unfold Utils.getTerrainHeight, Utils.terrainNoise, Utils.FLAT_ZONE_RADIUS.
  split; [|split].
  - intros x z. specialize (Hraw x z). case_decide; [|done].
    unfold lerp.
    pose proof (smoothstep_range 0 1 (sqrt (x * x + z * z) / 15)) as Hb.
    nra.
  - intros x z Hfar. rewrite decide_False by lra.
    unfold Utils.raw_height, Utils.TERRAIN_HEIGHT_SCALE. lra.
  - replace (0 * 0 + 0 * 0) with 0 by lra. rewrite sqrt_0.
    rewrite decide_True by lra.
    replace (0 / 15) with 0 by lra.
    rewrite smoothstep_low by lra. unfold lerp. lra.
Qed.

Lemma terrain_height_bounds_witness :
  let still : R -> R -> R := fun _ _ => 0 in
  (forall x z, -1 <= still x z <= 1)
  /\ Utils.getTerrainHeight still still still 0 0 = 1.
Proof.
  intros still.
  assert (forall x z, -1 <= still x z <= 1) as Hn
    by (intros x z; unfold still; lra).
  split; [exact Hn|].
  apply (terrain_height_bounds still still still Hn Hn Hn).
Defined.

(** * Properties of controls.js *)

Lemma set_key_pitch (code : string) (b : bool) (s : Controls.state) :
  Controls.pitch (Controls.set_key code b s) = Controls.pitch s.
Proof. unfold Controls.set_key. repeat case_decide; done. Qed.

(** X14.  Whatever keys, mouse moves, pointer-lock changes and updates the
    controls receive after their creation, the pitch stays between -0.5 and
    1.2. *)
Theorem pitch_stays_in_bounds (evs : list Controls.event) :
  Controls.PITCH_MIN
  <= Controls.pitch (foldl Controls.handle Controls.initial evs)
  <= Controls.PITCH_MAX.
Proof.
  assert (forall s,
            Controls.PITCH_MIN <= Controls.pitch s <= Controls.PITCH_MAX ->
            Controls.PITCH_MIN
            <= Controls.pitch (foldl Controls.handle s evs)
            <= Controls.PITCH_MAX) as Hgen.
  { induction evs as [|ev evs IH]; intros s Hs; simpl; [done|].
    apply IH. destruct ev as [code|code|mx my|b|delta]; simpl.
    - unfold Controls.onKeyDown. by rewrite set_key_pitch.
    - unfold Controls.onKeyUp. by rewrite set_key_pitch.
    - unfold Controls.onMouseMove. destruct (Controls.locked s); simpl;
        [|done].
      unfold Controls.PITCH_MIN, Controls.PITCH_MAX in *. split.
      + apply Rmax_l.
      + apply Rmax_lub; [lra|apply Rmin_l].
    - done.
    - unfold Controls.update. by case_bool_decide. }
  apply Hgen. unfold Controls.initial, Controls.PITCH_MIN, Controls.PITCH_MAX.
  simpl. lra.
Qed.

Lemma vec_length_rotateY (theta : R) (v : vec3) :
  vec_length (Controls.rotateY theta v) = vec_length v.
Proof.
  unfold vec_length, Controls.rotateY. simpl. f_equal.
  pose proof (sin2_cos2 theta) as Hsc. unfold Rsqr in Hsc. nra.
Qed.

Lemma vec_length_normalize (v : vec3) :
  vec_length v <> 0 -> vec_length (vec_normalize v) = 1.
Proof.
  intros Hnz. unfold vec_normalize. fold (vec_length v).
  rewrite decide_False by done.
  rewrite vec_length_scale.
  assert (0 <= vec_length v) by apply sqrt_pos.
  assert (0 < 1 / vec_length v) by (apply Rdiv_lt_0_compat; lra).
  rewrite Rabs_right by lra. field. done.
Qed.

Lemma vec_length_pos (v : vec3) :
  vx v * vx v + vy v * vy v + vz v * vz v > 0 -> vec_length v <> 0.
Proof.
  intros Hpos. unfold vec_length.
  assert (0 < sqrt (vx v * vx v + vy v * vy v + vz v * vz v))
    by (by apply sqrt_lt_R0). lra.
Qed.

(** X15.  After [update], the controls report movement exactly when the
    forward and backward keys differ or the left and right keys differ
    (opposite keys cancel).  When moving, the move direction is a horizontal
    unit vector, also on diagonals, and the speed is 10 with sprint held
    and 5 without; when not moving, the direction is the zero vector and
    the speed 0.  With the forward key alone the direction is
    [(sin yaw, 0, cos yaw)]. *)
Theorem controls_update_direction (delta : R) (s : Controls.state) :
  let s' := Controls.update delta s in
  (Controls.isMoving s' = true <->
   Controls.key_forward s <> Controls.key_backward s
   \/ Controls.key_left s <> Controls.key_right s)
  /\ (Controls.isMoving s' = true ->
      vec_length (Controls.moveDirection s') = 1
      /\ vy (Controls.moveDirection s') = 0
      /\ Controls.speed s' = (if Controls.key_sprint s then 10 else 5))
  /\ (Controls.isMoving s' = false ->
      Controls.moveDirection s' = Vec3 0 0 0 /\ Controls.speed s' = 0)
  /\ (Controls.key_forward s = true -> Controls.key_backward s = false ->
      Controls.key_left s = false -> Controls.key_right s = false ->
      Controls.moveDirection s'
      = Vec3 (sin (Controls.yaw s)) 0 (cos (Controls.yaw s))).
Proof.
  simpl. unfold Controls.update.
  set (d := Controls.key_dir s).
  assert (vy d = 0) as Hy by done.
  assert (vx d * vx d + vy d * vy d + vz d * vz d > 0 <->
          Controls.key_forward s <> Controls.key_backward s
          \/ Controls.key_left s <> Controls.key_right s) as Hmoving.
  { subst d. unfold Controls.key_dir.
    destruct (Controls.key_forward s), (Controls.key_backward s),
      (Controls.key_left s), (Controls.key_right s); simpl;
      split; intros; try lra; try (by left); try (by right);
      destruct H; done. }
  case_bool_decide as Hpos; simpl.
  - split; [by rewrite <- Hmoving|]. split; [|split; [done|]].
    + intros _. split; [|split; [|done]].
      * rewrite vec_length_rotateY. by apply vec_length_normalize, vec_length_pos.
      * apply Rmult_0_l.
    + intros Hf Hb Hl Hr. subst d. unfold Controls.key_dir.
      rewrite Hf, Hb, Hl, Hr. unfold vec_normalize, Controls.rotateY. simpl.
      replace (0 * 0 + 0 * 0 + (0 + 1) * (0 + 1)) with 1 by lra.
      rewrite sqrt_1, decide_False by lra. f_equal; lra.
  - split; [|split; [done|split; [done|]]].
    + split; [done|]. intros Hk. by apply Hmoving in Hk.
    + intros Hf Hb Hl Hr. exfalso. apply Hpos, Hmoving. left.
      by rewrite Hf, Hb.
Qed.

(** * Properties of camera.js *)

(** X16.  The position the camera aims for lies at distance 6 from the
    point it looks at, 2.2 above the character's position, for every yaw
    and pitch. *)
Theorem camera_target_on_sphere (characterPos : vec3) (yaw pitch : R) :
  vec_distance (Camera.lookAtPos characterPos)
    (Camera.targetPos characterPos yaw pitch) = 6.
Proof.
  unfold vec_distance, vec_length, Camera.lookAtPos, Camera.targetPos,
    Camera.DISTANCE, Camera.HEIGHT_OFFSET. simpl.
  pose proof (sin2_cos2 yaw) as Hy. pose proof (sin2_cos2 pitch) as Hp.
  unfold Rsqr in Hy, Hp.
  replace (_ + _ + _) with (6 * 6).
  - apply sqrt_square. lra.
  - set (sy := sin yaw) in *. set (cy := cos yaw) in *.
    set (sp := sin pitch) in *. set (cp := cos pitch) in *.
    assert (cp * cp * (sy * sy + cy * cy) + sp * sp = 1) as H1
      by (rewrite Hy; lra).
    nra.
Qed.

Lemma vec_lerp_gap (a v : vec3) (alpha : R) :
  vec_distance (Camera.vec_lerp a v alpha) v
  = Rabs (1 - alpha) * vec_distance a v.
Proof.
  destruct a as [ax ay az], v as [x y z].
  unfold vec_distance, Camera.vec_lerp. simpl.
  replace (x - (ax + (x - ax) * alpha)) with ((x - ax) * (1 - alpha)) by lra.
  replace (y - (ay + (y - ay) * alpha)) with ((y - ay) * (1 - alpha)) by lra.
  replace (z - (az + (z - az) * alpha)) with ((z - az) * (1 - alpha)) by lra.
  apply (vec_length_scale (1 - alpha) (Vec3 (x - ax) (y - ay) (z - az))).
Qed.

Lemma camera_update_gap (delta : R) (characterPos : vec3) (yaw pitch : R)
    (currentPos : vec3) :
  vec_distance (Camera.update delta characterPos yaw pitch currentPos)
    (Camera.targetPos characterPos yaw pitch)
  = exp (- (8 * delta))
    * vec_distance currentPos (Camera.targetPos characterPos yaw pitch).
Proof.
  unfold Camera.update. rewrite vec_lerp_gap. unfold Camera.FOLLOW_LERP.
  replace (Ropp 8 * delta) with (- (8 * delta)) by lra.
  replace (1 - (1 - exp (- (8 * delta)))) with (exp (- (8 * delta))) by lra.
  rewrite Rabs_right; [done|]. left. apply exp_pos.
Qed.

(** X17.  While the character and the view stay the same, the camera's
    distance to the position it aims for is multiplied by
    [exp(-8 * delta)] at each update, so after any number of updates it is
    the initial distance times [exp(-8 * T)], [T] being the sum of the
    deltas: it depends on the time passed, not on how that time is cut
    into frames, and with no negative delta it never grows. *)
Theorem camera_follow_is_frame_rate_independent (deltas : list R)
    (characterPos : vec3) (yaw pitch : R) (currentPos : vec3) :
  let target := Camera.targetPos characterPos yaw pitch in
  vec_distance (Camera.updates deltas characterPos yaw pitch currentPos) target
  = exp (- (8 * sum_R deltas)) * vec_distance currentPos target
  /\ (0 <= sum_R deltas ->
      vec_distance (Camera.updates deltas characterPos yaw pitch currentPos)
        target
      <= vec_distance currentPos target).
Proof.
  simpl.
  assert (vec_distance
            (Camera.updates deltas characterPos yaw pitch currentPos)
            (Camera.targetPos characterPos yaw pitch)
          = exp (- (8 * sum_R deltas))
            * vec_distance currentPos (Camera.targetPos characterPos yaw pitch))
    as Heq.
  { unfold Camera.updates. revert currentPos.
    induction deltas as [|d deltas IH]; intros currentPos; simpl.
    - replace (- (8 * 0)) with 0 by lra. rewrite exp_0. lra.
    - rewrite IH, camera_update_gap, <- Rmult_assoc, <- exp_plus.
      do 2 f_equal. lra. }
  split; [exact Heq|]. intros Hpos. rewrite Heq.
  assert (0 <= vec_distance currentPos (Camera.targetPos characterPos yaw pitch))
    as Hd by apply sqrt_pos.
  assert (exp (- (8 * sum_R deltas)) <= 1) as Hle.
  { rewrite <- exp_0. destruct (Req_dec (sum_R deltas) 0) as [->|Hne].
    - replace (- (8 * 0)) with 0 by lra. lra.
    - left. apply exp_increasing. lra. }
  nra.
Qed.

(** * Properties of main.js *)

Lemma clamp_range (v lo hi : R) : lo <= hi -> lo <= Main.clamp v lo hi <= hi.
Proof.
  intros Hle. unfold Main.clamp. split; [apply Rmax_l|].
  apply Rmax_lub; [done|apply Rmin_l].
Qed.

Lemma clamp_inside (v lo hi : R) : lo <= v <= hi -> Main.clamp v lo hi = v.
Proof.
  intros [Hlo Hhi]. unfold Main.clamp.
  rewrite Rmin_right by done. by rewrite Rmax_right.
Qed.


(** X18.  After every call of [gameLoop], whatever the state before and the
    clock delta, the character's x and z lie between -95 and 95. *)
Theorem character_stays_in_bounds (getTerrainHeight : R -> R -> R)
    (clockDelta : R) (g : Main.game) :
  let g' := Main.gameLoop getTerrainHeight clockDelta g in
  -95 <= vx (Main.char_position g') <= 95
  /\ -95 <= vz (Main.char_position g') <= 95.
Proof.
  simpl. unfold Main.gameLoop.
  destruct (Main.move_character _ _ _ _) as [pos target].
  destruct (Main.jump_and_fall _ _ _ _ _ _) as [[y vel] grounded]. simpl.
  split; apply clamp_range; lra.
Qed.






(** X20.  Jumping and falling in [gameLoop], measured against the terrain
    height the frame reads, [ground_under]: the height at the place the
    character has moved to, read before the clamp to the bounds.  A
    character that ends the frame in the air is above that height.  A
    character that was in the air either lands, exactly at that height with
    vertical velocity 0, or keeps falling with its velocity changed by
    gravity alone ([-20 * delta]): the jump key does nothing in the air.  A
    character on the ground with the jump key held leaves it with velocity
    [8 - 20 * delta], unless that already brings it down to that height.
    When the move stays inside the bounds, that height is the height of the
    terrain under the place where the character ends the frame; a character
    that the clamp holds back at the bounds ends the frame elsewhere. *)
Theorem jump_and_landing (getTerrainHeight : R -> R -> R) (clockDelta : R)
    (g : Main.game) :
  let g' := Main.gameLoop getTerrainHeight clockDelta g in
  let delta := frame_delta clockDelta in
  let ground := ground_under getTerrainHeight clockDelta g in
  let y := vy (Main.char_position g) in
  let y' := vy (Main.char_position g') in
  (Main.isGrounded g' = false -> ground < y')
  /\ (Main.isGrounded g = false ->
      if decide (y + (Main.velocityY g - 20 * delta) * delta <= ground)
      then Main.isGrounded g' = true /\ y' = ground /\ Main.velocityY g' = 0
      else Main.isGrounded g' = false
           /\ Main.velocityY g' = Main.velocityY g - 20 * delta
           /\ y' = y + Main.velocityY g' * delta)
  /\ (Main.isGrounded g = true ->
      Controls.key_jump (Main.controls g) = true ->
      if decide (y + (8 - 20 * delta) * delta <= ground)
      then Main.isGrounded g' = true /\ y' = ground /\ Main.velocityY g' = 0
      else Main.isGrounded g' = false
           /\ Main.velocityY g' = 8 - 20 * delta)
  /\ (Main.isGrounded g = true ->
      Controls.key_jump (Main.controls g) = false ->
      Main.isGrounded g' = true /\ Main.velocityY g' = Main.velocityY g
      /\ y' = lerp y ground (Rmin 1 (8 * delta)))
  /\ (-95 <= vx (moved_to clockDelta g) <= 95 ->
      -95 <= vz (moved_to clockDelta g) <= 95 ->
      ground
      = getTerrainHeight (vx (Main.char_position g'))
          (vz (Main.char_position g'))).
Proof.
  simpl. unfold ground_under, moved_to, frame_delta, Main.gameLoop.
  set (delta := Rmin clockDelta 0.05).
  set (c := Controls.update delta (Main.controls g)).
  assert (Controls.key_jump c = Controls.key_jump (Main.controls g)) as Hjump.
  { unfold c, Controls.update. by case_bool_decide. }
  assert (vy (fst (Main.move_character delta c (Main.char_position g)
                     (Main.targetRotationY g)))
          = vy (Main.char_position g)) as Hy.
  { unfold Main.move_character. by destruct (Controls.isMoving c). }
  destruct (Main.move_character delta c (Main.char_position g)
              (Main.targetRotationY g)) as [pos target]. simpl in *.
  rewrite Hjump, Hy. clear Hjump Hy.
  unfold Main.jump_and_fall, Main.GRAVITY, Main.JUMP_FORCE.
  destruct (Controls.key_jump (Main.controls g)), (Main.isGrounded g);
    simpl; repeat case_decide; simpl; repeat split; intros; try done;
    try lra; by rewrite !clamp_inside by lra.
Qed.

(** ** The dialogue with Sven *)





Lemma tap_E_opens (random : nat -> R) (g : Main.game) :
  Main.dialogueOpen g = false -> Main.nearSven g = true ->
  Main.eKeyHandled g = false ->
  let g' := tap_E random g in
  Main.dialogueOpen g' = true /\ Main.currentLineIndex g' = 0%Z
  /\ Main.dialogueBox_hidden g' = false
  /\ Main.interactPrompt_hidden g' = true
  /\ Main.eKeyHandled g' = false /\ Main.rolls g' = S (Main.rolls g).
Proof.
  intros Ho Hn He. cbv zeta. unfold tap_E, Main.onKeyUp, Main.onKeyDown.
  destruct (decide ("KeyE" = "KeyE")); [|done].
  destruct (decide ("KeyE" <> "KeyE" \/ Main.eKeyHandled g = true))
    as [[|]|]; [done|congruence|].
  by rewrite Ho, Hn.
Qed.

Lemma tap_E_advances (random : nat -> R) (g : Main.game) :
  Main.dialogueOpen g = true -> Main.eKeyHandled g = false ->
  (Main.currentLineIndex g + 1 < 3)%Z ->
  let g' := tap_E random g in
  Main.dialogueOpen g' = true
  /\ Main.currentLineIndex g' = (Main.currentLineIndex g + 1)%Z
  /\ Main.eKeyHandled g' = false /\ Main.rolls g' = S (Main.rolls g).
Proof.
  intros Ho He Hi. cbv zeta. unfold tap_E, Main.onKeyUp, Main.onKeyDown.
  destruct (decide ("KeyE" = "KeyE")); [|done].
  destruct (decide ("KeyE" <> "KeyE" \/ Main.eKeyHandled g = true))
    as [[|]|]; [done|congruence|].
  rewrite Ho. by case_decide; [lia|].
Qed.

Lemma tap_E_closes (random : nat -> R) (g : Main.game) :
  Main.dialogueOpen g = true -> Main.eKeyHandled g = false ->
  (Main.currentLineIndex g + 1 >= 3)%Z ->
  let g' := tap_E random g in
  Main.dialogueOpen g' = false /\ Main.dialogueBox_hidden g' = true
  /\ Main.rolls g' = Main.rolls g
  /\ Main.dialogueText g' = Main.dialogueText g.
Proof.
  intros Ho He Hi. cbv zeta. unfold tap_E, Main.onKeyUp, Main.onKeyDown.
  destruct (decide ("KeyE" = "KeyE")); [|done].
  destruct (decide ("KeyE" <> "KeyE" \/ Main.eKeyHandled g = true))
    as [[|]|]; [done|congruence|].
  rewrite Ho. by case_decide; [|lia].
Qed.

Lemma onKeyDown_held (random : nat -> R) (code : string) (g : Main.game) :
  Main.onKeyDown random code (Main.onKeyDown random code g)
  = Main.onKeyDown random code g.
Proof.
  assert (code <> "KeyE"
          \/ Main.eKeyHandled (Main.onKeyDown random code g) = true)
    as Hskip.
  { unfold Main.onKeyDown. case_decide as Hs.
    - destruct Hs; [by left|by right].
    - right.
      by destruct (Main.dialogueOpen g);
        [case_decide|destruct (Main.nearSven g)]. }
  revert Hskip. generalize (Main.onKeyDown random code g). intros g' Hskip.
  unfold Main.onKeyDown. by destruct (decide _).
Qed.

(** X22.  A conversation shows three lines.  With the dialogue closed, Sven
    near and the E key up, the first tap on E opens the dialogue on a first
    line, the second and the third tap show a new line each, and the fourth
    tap closes the dialogue and hides the box; three random lines were
    drawn in all.  A repeated key-down without a key-up in between does
    nothing. *)
Theorem conversation_has_three_lines (random : nat -> R) (g : Main.game) :
  Main.dialogueOpen g = false -> Main.nearSven g = true ->
  Main.eKeyHandled g = false ->
  let g1 := tap_E random g in
  let g2 := tap_E random g1 in
  let g3 := tap_E random g2 in
  let g4 := tap_E random g3 in
  (Main.dialogueOpen g1 = true /\ Main.currentLineIndex g1 = 0%Z
   /\ Main.dialogueBox_hidden g1 = false
   /\ Main.interactPrompt_hidden g1 = true)
  /\ (Main.dialogueOpen g2 = true /\ Main.currentLineIndex g2 = 1%Z)
  /\ (Main.dialogueOpen g3 = true /\ Main.currentLineIndex g3 = 2%Z)
  /\ (Main.dialogueOpen g4 = false /\ Main.dialogueBox_hidden g4 = true
      /\ Main.rolls g4 = (Main.rolls g + 3)%nat
      /\ Main.dialogueText g4 = Main.dialogueText g3)
  /\ Main.onKeyDown random "KeyE" (Main.onKeyDown random "KeyE" g)
     = Main.onKeyDown random "KeyE" g.
Proof.
  intros Ho Hn He. cbv zeta.
  destruct (tap_E_opens random g Ho Hn He)
    as (Ho1 & Hi1 & Hb1 & Hp1 & He1 & Hr1).
  destruct (tap_E_advances random (tap_E random g) Ho1 He1)
    as (Ho2 & Hi2 & He2 & Hr2); [lia|].
  destruct (tap_E_advances random (tap_E random (tap_E random g)) Ho2 He2)
    as (Ho3 & Hi3 & He3 & Hr3); [lia|].
  destruct (tap_E_closes random
              (tap_E random (tap_E random (tap_E random g))) Ho3 He3)
    as (Ho4 & Hb4 & Hr4 & Ht4); [lia|].
  split; [done|]. split; [split; [done|lia]|]. split; [split; [done|lia]|].
  split; [|apply onKeyDown_held].
  split; [done|]. split; [done|]. split; [lia|done].
Qed.

Lemma conversation_has_three_lines_witness :
  Main.dialogueOpen
    (tap_E no_dice (tap_E no_dice (tap_E no_dice (tap_E no_dice
       (Main.Game (Vec3 6 1 2) 0 0 0 true Controls.initial Camera.initial
          0 false (-1) true false false true None 0))))) = false
  /\ Main.rolls
       (tap_E no_dice (tap_E no_dice (tap_E no_dice (tap_E no_dice
          (Main.Game (Vec3 6 1 2) 0 0 0 true Controls.initial Camera.initial
             0 false (-1) true false false true None 0))))) = 3%nat.
Proof.
  destruct (conversation_has_three_lines no_dice
              (Main.Game (Vec3 6 1 2) 0 0 0 true Controls.initial
                 Camera.initial 0 false (-1) true false false true None 0)
              eq_refl eq_refl eq_refl)
    as (_ & _ & _ & (Hopen & _ & Hrolls & _) & _).
  split; [exact Hopen|exact Hrolls].
Defined.

(** ** A frozen monster still attacks *)




(** ** A cast of the name [__proto__] *)

(** X25.  The update of the spell system ends by throwing exactly from the
    first cast of the name [__proto__] on (the name being no key of
    [spells], as in every reachable state): that cast leaves a property
    [currentCd] on [Object.prototype], no call takes it away again, and no
    other call puts it there.  An update that throws has updated the
    cooldowns and nothing else. *)
Theorem update_throws_after_proto_cast (getTerrainHeight : R -> R -> R)
    (random : nat -> R) (c : call) (w w' : world) (dt t : R) :
  step getTerrainHeight random c w = Some w' ->
  update_throws w'
  = update_throws w
    || match c with
       | CallCastSpell name _ _ _ _ =>
           bool_decide (name = "__proto__")
           && bool_decide (spells w !! name = None)
       | _ => false
       end
  /\ (update_throws w' = true ->
      monsters (spell_update dt t w') = monsters w'
      /\ projectiles (spell_update dt t w') = projectiles w'
      /\ effects (spell_update dt t w') = effects w'
      /\ spells (spell_update dt t w')
         = decay_cooldown dt <$> spells w').
Proof.
  intros Hstep. unfold update_throws. split.
  - destruct c; simpl in Hstep.
    + destruct (wrapped_update _ _ _ _ _ _ _). simplify_eq. simpl.
      by rewrite orb_false_r.
    + destruct (checkPlayerDamage _ _). simplify_eq. simpl.
      by rewrite orb_false_r.
    + destruct (attackMonstersInRange _ _ _ _ _). simplify_eq. simpl.
      by rewrite orb_false_r.
    + simplify_eq. destruct (spells w !! name) as [s|] eqn:Hs.
      * rewrite (bool_decide_eq_false_2 (Some s = None)) by done.
        rewrite andb_false_r, orb_false_r.
        unfold castSpell. rewrite Hs. by repeat case_decide.
      * destruct (castSpell_no_entry name casterPos casterAngle casterPitch
                    now w Hs) as (_ & _ & _ & _ & _ & ->).
        by rewrite (bool_decide_eq_true_2 (None = None)), andb_true_r by done.
    + simplify_eq. rewrite orb_false_r. unfold spell_update.
      destruct (proto_currentCd w); [done|].
      by destruct (update_projectiles _ _ _ _ _) as [[ps ms] es].
    + destruct (timers (sim w)); [done|].
      destruct (spawnMonster _ _ _ _ _) as [[ms k]|]; [|done].
      simplify_eq. simpl. by rewrite orb_false_r.
  - intros Hthrows. unfold spell_update. by rewrite Hthrows.
Qed.

Lemma update_throws_after_proto_cast_witness :
  exists w',
    step flat_terrain no_dice
      (CallCastSpell "__proto__" (Vec3 0 0 0) 0 None 0)
      (fresh_world [monster_at 0 3]) = Some w'
    /\ snd (castSpell "__proto__" (Vec3 0 0 0) 0 None 0
              (fresh_world [monster_at 0 3])) = true
    /\ update_throws (fresh_world [monster_at 0 3]) = false
    /\ update_throws w' = true
    /\ projectiles (spell_update 0.05 1 w') = projectiles w'.
Proof.
  eexists. split; [reflexivity|]. split; [done|]. split; [done|].
  destruct (update_throws_after_proto_cast flat_terrain no_dice
              (CallCastSpell "__proto__" (Vec3 0 0 0) 0 None 0)
              (fresh_world [monster_at 0 3]) _ 0.05 1 eq_refl)
    as [Hflag Hleft].
  assert (update_throws
            (fst (castSpell "__proto__" (Vec3 0 0 0) 0 None 0
                    (fresh_world [monster_at 0 3]))) = true) as Ht
    by (by rewrite Hflag).
  split; [exact Ht|]. by destruct (Hleft Ht) as (_ & ? & _).
Defined.
